(** * A shallow embedding of the single-instruction decoder of MyDisassembler

    The development follows [src/constants.h] (the enumerations, their
    [to_string] functions, [hasModrm], [PREFIX_INSTRUCTIONS_BYTES_SET]) and
    [src/state.h] (the [State] structure and the decoding pipeline
    [decodeSingleInstruction]).  The headers [modrm.h] and [table.h] that
    [state.h] includes are taken as a parameter record, [Externals]. *)

From Stdlib Require Import ZArith List Bool Lia.
From Stdlib Require Import Strings.String Strings.Ascii Strings.Byte.
From Stdlib Require Import Numbers.DecimalString.
Import ListNotations.

Open Scope string_scope.
Open Scope Z_scope.

(** ** Enumerations of [constants.h] *)

(** [enum class Operand]. *)
Module Operand.
Inductive t : Set :=
  one | imm8 | imm16 | imm32 | imm64 | reg | rm | al | ax | eax | rax | moff.

(** [to_string(Operand)]: eight enumerators are named, the [default] case
    answers for [imm64], [al], [ax] and [rax]. *)
Definition to_string (opu : t) : string :=
  match opu with
  | one => "one"
  | imm8 => "imm8"
  | imm16 => "imm16"
  | imm32 => "imm32"
  | reg => "reg"
  | rm => "rm"
  | eax => "eax"
  | moff => "moff"
  | _ => "unknown"
  end.
End Operand.

(** [enum class OpEnc]. *)
Module OpEnc.
Inductive t : Set := I | D | M | O | NP | MI | M1 | MR | RM | RMI | OI.

Definition to_string (openc : t) : string :=
  match openc with
  | I => "I" | D => "D" | M => "M" | O => "O" | NP => "NP" | MI => "MI"
  | M1 => "M1" | MR => "MR" | RM => "RM" | RMI => "RMI" | OI => "OI"
  end.
End OpEnc.

(** [hasModrm(OpEnc)], case by case as the [switch] has it. *)
Definition hasModrm (openc : OpEnc.t) : bool :=
  match openc with
  | OpEnc.I => false
  | OpEnc.D => false
  | OpEnc.M => true
  | OpEnc.O => false
  | OpEnc.NP => false
  | OpEnc.MI => true
  | OpEnc.M1 => true
  | OpEnc.MR => true
  | OpEnc.RM => true
  | OpEnc.RMI => true
  | OpEnc.OI => false
  end.

(** [enum class Prefix], in declaration order. *)
Module Prefix.
Inductive t : Set := NONE | P66 | REXW | REX.

Definition eqb (a b : t) : bool :=
  match a, b with
  | NONE, NONE | P66, P66 | REXW, REXW | REX, REX => true
  | _, _ => false
  end.
End Prefix.

(** [enum class Mnemonic], in declaration order. *)
Module Mnemonic.
Inductive t : Set :=
  MOV | LEA | ADD | ADC | SUB | SBB | MUL | IMUL | DIV | IDIV | INC | DEC
  | AND | OR | XOR | NOT | NEG | CMP | TEST | SAL | SHL | SAR | SHR | RCL
  | RCR | ROL | ROR | JMP | LOOP | JZ | JNZ | JA | JAE | JB | JBE | JG
  | JGE | JL | JLE | JP | JNP | JO | JNO | JS | JC | JCXZ | JECXZ | CALL
  | RET | PUSH | POP | MOVSB | MOVSW | MOVSD | REP | REPE | REPNE | CLD
  | STD | LODSB | LODSW | LODSD | STOSB | STOSW | STOSD | SCASB | SCASW
  | SCASD | CMPSB | CMPSW | CMPSD | IN | OUT | INSB | INSW | INSD | OUTSB
  | OUTSW | OUTSD | CBW | CWD | CWDE | CDQ | INT21 | LOCK | ENTER | LEAVE
  | NOP | UD2 | CPUID | XCHG | STC | CLC.

(** The underlying value of an enumerator: its position in the declaration. *)
Definition value (mnemonic : t) : Z :=
  match mnemonic with
  | MOV => 0 | LEA => 1 | ADD => 2 | ADC => 3 | SUB => 4 | SBB => 5
  | MUL => 6 | IMUL => 7 | DIV => 8 | IDIV => 9 | INC => 10 | DEC => 11
  | AND => 12 | OR => 13 | XOR => 14 | NOT => 15 | NEG => 16 | CMP => 17
  | TEST => 18 | SAL => 19 | SHL => 20 | SAR => 21 | SHR => 22 | RCL => 23
  | RCR => 24 | ROL => 25 | ROR => 26 | JMP => 27 | LOOP => 28 | JZ => 29
  | JNZ => 30 | JA => 31 | JAE => 32 | JB => 33 | JBE => 34 | JG => 35
  | JGE => 36 | JL => 37 | JLE => 38 | JP => 39 | JNP => 40 | JO => 41
  | JNO => 42 | JS => 43 | JC => 44 | JCXZ => 45 | JECXZ => 46 | CALL => 47
  | RET => 48 | PUSH => 49 | POP => 50 | MOVSB => 51 | MOVSW => 52
  | MOVSD => 53 | REP => 54 | REPE => 55 | REPNE => 56 | CLD => 57
  | STD => 58 | LODSB => 59 | LODSW => 60 | LODSD => 61 | STOSB => 62
  | STOSW => 63 | STOSD => 64 | SCASB => 65 | SCASW => 66 | SCASD => 67
  | CMPSB => 68 | CMPSW => 69 | CMPSD => 70 | IN => 71 | OUT => 72
  | INSB => 73 | INSW => 74 | INSD => 75 | OUTSB => 76 | OUTSW => 77
  | OUTSD => 78 | CBW => 79 | CWD => 80 | CWDE => 81 | CDQ => 82
  | INT21 => 83 | LOCK => 84 | ENTER => 85 | LEAVE => 86 | NOP => 87
  | UD2 => 88 | CPUID => 89 | XCHG => 90 | STC => 91 | CLC => 92
  end.

(** [operator==] on a scoped enumeration compares the underlying values. *)
Definition eqb (a b : t) : bool := value a =? value b.

(** [to_string(Mnemonic)]. *)
Definition to_string (mnemonic : t) : string :=
  match mnemonic with
  | MOV => "MOV" | LEA => "LEA" | ADD => "ADD" | ADC => "ADC"
  | SUB => "SUB" | SBB => "SBB" | MUL => "MUL" | IMUL => "IMUL"
  | DIV => "DIV" | IDIV => "IDIV" | INC => "INC" | DEC => "DEC"
  | AND => "AND" | OR => "OR" | XOR => "XOR" | NOT => "NOT" | NEG => "NEG"
  | CMP => "CMP" | TEST => "TEST" | SAL => "SAL" | SHL => "SHL"
  | SAR => "SAR" | SHR => "SHR" | RCL => "RCL" | RCR => "RCR"
  | ROL => "ROL" | ROR => "ROR" | JMP => "JMP" | LOOP => "LOOP"
  | JZ => "JZ" | JNZ => "JNZ" | JA => "JA" | JAE => "JAE" | JB => "JB"
  | JBE => "JBE" | JG => "JG" | JGE => "JGE" | JL => "JL" | JLE => "JLE"
  | JP => "JP" | JNP => "JNP" | JO => "JO" | JNO => "JNO" | JS => "JS"
  | JC => "JC" | JCXZ => "JCXZ" | JECXZ => "JECXZ" | CALL => "CALL"
  | RET => "RET" | PUSH => "PUSH" | POP => "POP" | MOVSB => "MOVSB"
  | MOVSW => "MOVSW" | MOVSD => "MOVSD" | REP => "REP" | REPE => "REPE"
  | REPNE => "REPNE" | CLD => "CLD" | STD => "STD" | LODSB => "LODSB"
  | LODSW => "LODSW" | LODSD => "LODSD" | STOSB => "STOSB"
  | STOSW => "STOSW" | STOSD => "STOSD" | SCASB => "SCASB"
  | SCASW => "SCASW" | SCASD => "SCASD" | CMPSB => "CMPSB"
  | CMPSW => "CMPSW" | CMPSD => "CMPSD" | IN => "IN" | OUT => "OUT"
  | INSB => "INSB" | INSW => "INSW" | INSD => "INSD" | OUTSB => "OUTSB"
  | OUTSW => "OUTSW" | OUTSD => "OUTSD" | CBW => "CBW" | CWD => "CWD"
  | CWDE => "CWDE" | CDQ => "CDQ" | INT21 => "INT21" | LOCK => "LOCK"
  | ENTER => "ENTER" | LEAVE => "LEAVE" | NOP => "NOP" | UD2 => "UD2"
  | CPUID => "CPUID" | XCHG => "XCHG" | STC => "STC" | CLC => "CLC"
  end.
End Mnemonic.

(** [PREFIX_INSTRUCTIONS_BYTES_SET] of [constants.h]. *)
Definition PREFIX_INSTRUCTIONS_BYTES_SET : list Z := [0x0F; 0xF0; 0xF2; 0xF3].

(** Membership in a [std::unordered_set<int>]: [s.find(x) != s.end()]. *)
Definition inSet (x : Z) (s : list Z) : bool := existsb (Z.eqb x) s.

(** ** Types declared in the headers that are not part of the sources *)

(** Modelled from the spec: the class [REX] of [modrm.h] is missing; it holds
    the four booleans W, R, X, B ([state.h] reads [rexW]). *)
Module REX.
Record t : Set := { rexW : bool; rexR : bool; rexX : bool; rexB : bool }.
End REX.

(** Modelled from the spec: the class [ModRM] of [modrm.h] is missing;
    [state.h] reads [hasSib], [hasDisp8], [hasDisp32] and [modByte], the other
    fields are the raw [reg] and [rm] fields and the REX byte it was built
    with. *)
Module ModRM.
Record t : Set := {
  modByte : Z;
  regByte : Z;
  rmByte : Z;
  hasSib : bool;
  hasDisp8 : bool;
  hasDisp32 : bool;
  rex : REX.t
}.
End ModRM.

(** Modelled from the spec: the class [SIB] of [modrm.h] is missing;
    [state.h] reads [hasDisp8], [hasDisp32] and [baseByte]. *)
Module SIB.
Record t : Set := {
  scaleByte : Z;
  indexByte : Z;
  baseByte : Z;
  modByte : Z;
  hasDisp8 : bool;
  hasDisp32 : bool;
  rex : REX.t
}.
End SIB.

(** A [std::unordered_map] built from an initializer list and only read:
    an association list, the first binding of a key being the one kept. *)
Definition Reg2Mnem : Set := list (Z * Mnemonic.t).
Definition OperandRow : Set := OpEnc.t * list string * list Operand.t.

(** What [state.h] uses from [modrm.h] and [table.h]: the three encoding
    tables, the register-name tables, the operand-kind predicates, and the
    constructors and renderers of [REX], [ModRM] and [SIB]. *)
Record Externals : Type := {
  TWO_BYTES_OPCODE_PREFIX : list Z;
  OP_LOOKUP : list ((Prefix.t * Z) * Reg2Mnem);
  OPERAND_LOOKUP : list ((Prefix.t * Mnemonic.t * Z) * OperandRow);
  REGISTERS8 : list string;
  REGISTERS16 : list string;
  REGISTERS32 : list string;
  REGISTERS64 : list string;
  isA_REG : Operand.t -> bool;
  isRM : Operand.t -> bool;
  isREG : Operand.t -> bool;
  isIMM : Operand.t -> bool;
  is8Bit : Operand.t -> bool;
  is16Bit : Operand.t -> bool;
  is32Bit : Operand.t -> bool;
  is64Bit : Operand.t -> bool;
  getRegVal : Z -> Z;
  REX_new : Z -> REX.t;
  ModRM_new : Z -> REX.t -> ModRM.t;
  getAddrMode : ModRM.t -> Operand.t -> string -> string -> string;
  getReg : ModRM.t -> Operand.t -> string;
  SIB_new : Z -> Z -> REX.t -> SIB.t;
  getAddr : SIB.t -> Operand.t -> string -> string -> string
}.

(** ** Failures *)

(** The ways a decoding step ends other than by returning. *)
Inductive Error : Set :=
| UnknownOpcode (p : Prefix.t) (opcodeByte : Z)
    (* runtime_error: Unknown combination of the prefix and the opcodeByte *)
| UnknownOperandForm (p : Prefix.t) (m : Mnemonic.t) (opcodeByte : Z)
    (* runtime_error: Unknown combination of prefix, mnemonic and opcodeByte *)
| ExpectedModRM
    (* runtime_error: Expected ModRM byte but there aren't any bytes left. *)
| ExpectedSIB
    (* runtime_error: Expected SIB byte but there aren't any bytes left. *)
| StdInvalidArgument
    (* std::invalid_argument thrown by std::stoi *)
| StdOutOfRange
    (* std::out_of_range thrown by std::stoi or by vector::at *)
| OutOfBoundsRead (idx : Z).
    (* an unchecked access past the end of a vector: undefined behaviour *)

Inductive Result (A : Type) : Type :=
| Ok (a : A)
| Err (e : Error).
Arguments Ok {A} a.
Arguments Err {A} e.

Definition bind {A B : Type} (c : Result A) (k : A -> Result B) : Result B :=
  match c with
  | Ok a => k a
  | Err e => Err e
  end.

Notation "x <- c ;; k" := (bind c (fun x => k))
  (at level 61, c at next level, right associativity).
Notation "st |> f" := (f st) (at level 45, left associativity, only parsing).

(** ** The decoder state of [state.h] *)

Record State : Type := {
  objectSource : list byte;
  hasREX : bool;
  hasSIB : bool;
  hasDisp8 : bool;
  hasDisp32 : bool;
  curIdx : Z;
  instructionLen : Z;
  prefixOffset : Z;
  prefixInstructionByte : Z;
  opcodeByte : Z;
  modrmByte : Z;
  sibByte : Z;
  mnemonic : Mnemonic.t;
  prefix : Prefix.t;
  rex : REX.t;
  modrm : ModRM.t;
  sib : SIB.t;
  opEnc : OpEnc.t;
  remOps : list string;
  operands : list Operand.t;
  disp8 : string;
  disp32 : string;
  assemblyInstruction : list string;
  assemblyOperands : list string
}.

Definition set_hasREX (v : bool) (st : State) : State :=
  {| objectSource := objectSource st; hasREX := v; hasSIB := hasSIB st;
     hasDisp8 := hasDisp8 st; hasDisp32 := hasDisp32 st; curIdx := curIdx st;
     instructionLen := instructionLen st; prefixOffset := prefixOffset st;
     prefixInstructionByte := prefixInstructionByte st;
     opcodeByte := opcodeByte st; modrmByte := modrmByte st;
     sibByte := sibByte st; mnemonic := mnemonic st; prefix := prefix st;
     rex := rex st; modrm := modrm st; sib := sib st; opEnc := opEnc st;
     remOps := remOps st; operands := operands st; disp8 := disp8 st;
     disp32 := disp32 st; assemblyInstruction := assemblyInstruction st;
     assemblyOperands := assemblyOperands st |}.

Definition set_hasDisp8 (v : bool) (st : State) : State :=
  {| objectSource := objectSource st; hasREX := hasREX st;
     hasSIB := hasSIB st; hasDisp8 := v; hasDisp32 := hasDisp32 st;
     curIdx := curIdx st; instructionLen := instructionLen st;
     prefixOffset := prefixOffset st;
     prefixInstructionByte := prefixInstructionByte st;
     opcodeByte := opcodeByte st; modrmByte := modrmByte st;
     sibByte := sibByte st; mnemonic := mnemonic st; prefix := prefix st;
     rex := rex st; modrm := modrm st; sib := sib st; opEnc := opEnc st;
     remOps := remOps st; operands := operands st; disp8 := disp8 st;
     disp32 := disp32 st; assemblyInstruction := assemblyInstruction st;
     assemblyOperands := assemblyOperands st |}.

Definition set_hasDisp32 (v : bool) (st : State) : State :=
  {| objectSource := objectSource st; hasREX := hasREX st;
     hasSIB := hasSIB st; hasDisp8 := hasDisp8 st; hasDisp32 := v;
     curIdx := curIdx st; instructionLen := instructionLen st;
     prefixOffset := prefixOffset st;
     prefixInstructionByte := prefixInstructionByte st;
     opcodeByte := opcodeByte st; modrmByte := modrmByte st;
     sibByte := sibByte st; mnemonic := mnemonic st; prefix := prefix st;
     rex := rex st; modrm := modrm st; sib := sib st; opEnc := opEnc st;
     remOps := remOps st; operands := operands st; disp8 := disp8 st;
     disp32 := disp32 st; assemblyInstruction := assemblyInstruction st;
     assemblyOperands := assemblyOperands st |}.

Definition set_curIdx (v : Z) (st : State) : State :=
  {| objectSource := objectSource st; hasREX := hasREX st;
     hasSIB := hasSIB st; hasDisp8 := hasDisp8 st; hasDisp32 := hasDisp32 st;
     curIdx := v; instructionLen := instructionLen st;
     prefixOffset := prefixOffset st;
     prefixInstructionByte := prefixInstructionByte st;
     opcodeByte := opcodeByte st; modrmByte := modrmByte st;
     sibByte := sibByte st; mnemonic := mnemonic st; prefix := prefix st;
     rex := rex st; modrm := modrm st; sib := sib st; opEnc := opEnc st;
     remOps := remOps st; operands := operands st; disp8 := disp8 st;
     disp32 := disp32 st; assemblyInstruction := assemblyInstruction st;
     assemblyOperands := assemblyOperands st |}.

Definition set_instructionLen (v : Z) (st : State) : State :=
  {| objectSource := objectSource st; hasREX := hasREX st;
     hasSIB := hasSIB st; hasDisp8 := hasDisp8 st; hasDisp32 := hasDisp32 st;
     curIdx := curIdx st; instructionLen := v;
     prefixOffset := prefixOffset st;
     prefixInstructionByte := prefixInstructionByte st;
     opcodeByte := opcodeByte st; modrmByte := modrmByte st;
     sibByte := sibByte st; mnemonic := mnemonic st; prefix := prefix st;
     rex := rex st; modrm := modrm st; sib := sib st; opEnc := opEnc st;
     remOps := remOps st; operands := operands st; disp8 := disp8 st;
     disp32 := disp32 st; assemblyInstruction := assemblyInstruction st;
     assemblyOperands := assemblyOperands st |}.

Definition set_prefixOffset (v : Z) (st : State) : State :=
  {| objectSource := objectSource st; hasREX := hasREX st;
     hasSIB := hasSIB st; hasDisp8 := hasDisp8 st; hasDisp32 := hasDisp32 st;
     curIdx := curIdx st; instructionLen := instructionLen st;
     prefixOffset := v; prefixInstructionByte := prefixInstructionByte st;
     opcodeByte := opcodeByte st; modrmByte := modrmByte st;
     sibByte := sibByte st; mnemonic := mnemonic st; prefix := prefix st;
     rex := rex st; modrm := modrm st; sib := sib st; opEnc := opEnc st;
     remOps := remOps st; operands := operands st; disp8 := disp8 st;
     disp32 := disp32 st; assemblyInstruction := assemblyInstruction st;
     assemblyOperands := assemblyOperands st |}.

Definition set_prefixInstructionByte (v : Z) (st : State) : State :=
  {| objectSource := objectSource st; hasREX := hasREX st;
     hasSIB := hasSIB st; hasDisp8 := hasDisp8 st; hasDisp32 := hasDisp32 st;
     curIdx := curIdx st; instructionLen := instructionLen st;
     prefixOffset := prefixOffset st; prefixInstructionByte := v;
     opcodeByte := opcodeByte st; modrmByte := modrmByte st;
     sibByte := sibByte st; mnemonic := mnemonic st; prefix := prefix st;
     rex := rex st; modrm := modrm st; sib := sib st; opEnc := opEnc st;
     remOps := remOps st; operands := operands st; disp8 := disp8 st;
     disp32 := disp32 st; assemblyInstruction := assemblyInstruction st;
     assemblyOperands := assemblyOperands st |}.

Definition set_opcodeByte (v : Z) (st : State) : State :=
  {| objectSource := objectSource st; hasREX := hasREX st;
     hasSIB := hasSIB st; hasDisp8 := hasDisp8 st; hasDisp32 := hasDisp32 st;
     curIdx := curIdx st; instructionLen := instructionLen st;
     prefixOffset := prefixOffset st;
     prefixInstructionByte := prefixInstructionByte st; opcodeByte := v;
     modrmByte := modrmByte st; sibByte := sibByte st;
     mnemonic := mnemonic st; prefix := prefix st; rex := rex st;
     modrm := modrm st; sib := sib st; opEnc := opEnc st;
     remOps := remOps st; operands := operands st; disp8 := disp8 st;
     disp32 := disp32 st; assemblyInstruction := assemblyInstruction st;
     assemblyOperands := assemblyOperands st |}.

Definition set_modrmByte (v : Z) (st : State) : State :=
  {| objectSource := objectSource st; hasREX := hasREX st;
     hasSIB := hasSIB st; hasDisp8 := hasDisp8 st; hasDisp32 := hasDisp32 st;
     curIdx := curIdx st; instructionLen := instructionLen st;
     prefixOffset := prefixOffset st;
     prefixInstructionByte := prefixInstructionByte st;
     opcodeByte := opcodeByte st; modrmByte := v; sibByte := sibByte st;
     mnemonic := mnemonic st; prefix := prefix st; rex := rex st;
     modrm := modrm st; sib := sib st; opEnc := opEnc st;
     remOps := remOps st; operands := operands st; disp8 := disp8 st;
     disp32 := disp32 st; assemblyInstruction := assemblyInstruction st;
     assemblyOperands := assemblyOperands st |}.

Definition set_sibByte (v : Z) (st : State) : State :=
  {| objectSource := objectSource st; hasREX := hasREX st;
     hasSIB := hasSIB st; hasDisp8 := hasDisp8 st; hasDisp32 := hasDisp32 st;
     curIdx := curIdx st; instructionLen := instructionLen st;
     prefixOffset := prefixOffset st;
     prefixInstructionByte := prefixInstructionByte st;
     opcodeByte := opcodeByte st; modrmByte := modrmByte st; sibByte := v;
     mnemonic := mnemonic st; prefix := prefix st; rex := rex st;
     modrm := modrm st; sib := sib st; opEnc := opEnc st;
     remOps := remOps st; operands := operands st; disp8 := disp8 st;
     disp32 := disp32 st; assemblyInstruction := assemblyInstruction st;
     assemblyOperands := assemblyOperands st |}.

Definition set_mnemonic (v : Mnemonic.t) (st : State) : State :=
  {| objectSource := objectSource st; hasREX := hasREX st;
     hasSIB := hasSIB st; hasDisp8 := hasDisp8 st; hasDisp32 := hasDisp32 st;
     curIdx := curIdx st; instructionLen := instructionLen st;
     prefixOffset := prefixOffset st;
     prefixInstructionByte := prefixInstructionByte st;
     opcodeByte := opcodeByte st; modrmByte := modrmByte st;
     sibByte := sibByte st; mnemonic := v; prefix := prefix st;
     rex := rex st; modrm := modrm st; sib := sib st; opEnc := opEnc st;
     remOps := remOps st; operands := operands st; disp8 := disp8 st;
     disp32 := disp32 st; assemblyInstruction := assemblyInstruction st;
     assemblyOperands := assemblyOperands st |}.

Definition set_prefix (v : Prefix.t) (st : State) : State :=
  {| objectSource := objectSource st; hasREX := hasREX st;
     hasSIB := hasSIB st; hasDisp8 := hasDisp8 st; hasDisp32 := hasDisp32 st;
     curIdx := curIdx st; instructionLen := instructionLen st;
     prefixOffset := prefixOffset st;
     prefixInstructionByte := prefixInstructionByte st;
     opcodeByte := opcodeByte st; modrmByte := modrmByte st;
     sibByte := sibByte st; mnemonic := mnemonic st; prefix := v;
     rex := rex st; modrm := modrm st; sib := sib st; opEnc := opEnc st;
     remOps := remOps st; operands := operands st; disp8 := disp8 st;
     disp32 := disp32 st; assemblyInstruction := assemblyInstruction st;
     assemblyOperands := assemblyOperands st |}.

Definition set_rex (v : REX.t) (st : State) : State :=
  {| objectSource := objectSource st; hasREX := hasREX st;
     hasSIB := hasSIB st; hasDisp8 := hasDisp8 st; hasDisp32 := hasDisp32 st;
     curIdx := curIdx st; instructionLen := instructionLen st;
     prefixOffset := prefixOffset st;
     prefixInstructionByte := prefixInstructionByte st;
     opcodeByte := opcodeByte st; modrmByte := modrmByte st;
     sibByte := sibByte st; mnemonic := mnemonic st; prefix := prefix st;
     rex := v; modrm := modrm st; sib := sib st; opEnc := opEnc st;
     remOps := remOps st; operands := operands st; disp8 := disp8 st;
     disp32 := disp32 st; assemblyInstruction := assemblyInstruction st;
     assemblyOperands := assemblyOperands st |}.

Definition set_modrm (v : ModRM.t) (st : State) : State :=
  {| objectSource := objectSource st; hasREX := hasREX st;
     hasSIB := hasSIB st; hasDisp8 := hasDisp8 st; hasDisp32 := hasDisp32 st;
     curIdx := curIdx st; instructionLen := instructionLen st;
     prefixOffset := prefixOffset st;
     prefixInstructionByte := prefixInstructionByte st;
     opcodeByte := opcodeByte st; modrmByte := modrmByte st;
     sibByte := sibByte st; mnemonic := mnemonic st; prefix := prefix st;
     rex := rex st; modrm := v; sib := sib st; opEnc := opEnc st;
     remOps := remOps st; operands := operands st; disp8 := disp8 st;
     disp32 := disp32 st; assemblyInstruction := assemblyInstruction st;
     assemblyOperands := assemblyOperands st |}.

Definition set_sib (v : SIB.t) (st : State) : State :=
  {| objectSource := objectSource st; hasREX := hasREX st;
     hasSIB := hasSIB st; hasDisp8 := hasDisp8 st; hasDisp32 := hasDisp32 st;
     curIdx := curIdx st; instructionLen := instructionLen st;
     prefixOffset := prefixOffset st;
     prefixInstructionByte := prefixInstructionByte st;
     opcodeByte := opcodeByte st; modrmByte := modrmByte st;
     sibByte := sibByte st; mnemonic := mnemonic st; prefix := prefix st;
     rex := rex st; modrm := modrm st; sib := v; opEnc := opEnc st;
     remOps := remOps st; operands := operands st; disp8 := disp8 st;
     disp32 := disp32 st; assemblyInstruction := assemblyInstruction st;
     assemblyOperands := assemblyOperands st |}.

Definition set_opEnc (v : OpEnc.t) (st : State) : State :=
  {| objectSource := objectSource st; hasREX := hasREX st;
     hasSIB := hasSIB st; hasDisp8 := hasDisp8 st; hasDisp32 := hasDisp32 st;
     curIdx := curIdx st; instructionLen := instructionLen st;
     prefixOffset := prefixOffset st;
     prefixInstructionByte := prefixInstructionByte st;
     opcodeByte := opcodeByte st; modrmByte := modrmByte st;
     sibByte := sibByte st; mnemonic := mnemonic st; prefix := prefix st;
     rex := rex st; modrm := modrm st; sib := sib st; opEnc := v;
     remOps := remOps st; operands := operands st; disp8 := disp8 st;
     disp32 := disp32 st; assemblyInstruction := assemblyInstruction st;
     assemblyOperands := assemblyOperands st |}.

Definition set_remOps (v : list string) (st : State) : State :=
  {| objectSource := objectSource st; hasREX := hasREX st;
     hasSIB := hasSIB st; hasDisp8 := hasDisp8 st; hasDisp32 := hasDisp32 st;
     curIdx := curIdx st; instructionLen := instructionLen st;
     prefixOffset := prefixOffset st;
     prefixInstructionByte := prefixInstructionByte st;
     opcodeByte := opcodeByte st; modrmByte := modrmByte st;
     sibByte := sibByte st; mnemonic := mnemonic st; prefix := prefix st;
     rex := rex st; modrm := modrm st; sib := sib st; opEnc := opEnc st;
     remOps := v; operands := operands st; disp8 := disp8 st;
     disp32 := disp32 st; assemblyInstruction := assemblyInstruction st;
     assemblyOperands := assemblyOperands st |}.

Definition set_operands (v : list Operand.t) (st : State) : State :=
  {| objectSource := objectSource st; hasREX := hasREX st;
     hasSIB := hasSIB st; hasDisp8 := hasDisp8 st; hasDisp32 := hasDisp32 st;
     curIdx := curIdx st; instructionLen := instructionLen st;
     prefixOffset := prefixOffset st;
     prefixInstructionByte := prefixInstructionByte st;
     opcodeByte := opcodeByte st; modrmByte := modrmByte st;
     sibByte := sibByte st; mnemonic := mnemonic st; prefix := prefix st;
     rex := rex st; modrm := modrm st; sib := sib st; opEnc := opEnc st;
     remOps := remOps st; operands := v; disp8 := disp8 st;
     disp32 := disp32 st; assemblyInstruction := assemblyInstruction st;
     assemblyOperands := assemblyOperands st |}.

Definition set_disp8 (v : string) (st : State) : State :=
  {| objectSource := objectSource st; hasREX := hasREX st;
     hasSIB := hasSIB st; hasDisp8 := hasDisp8 st; hasDisp32 := hasDisp32 st;
     curIdx := curIdx st; instructionLen := instructionLen st;
     prefixOffset := prefixOffset st;
     prefixInstructionByte := prefixInstructionByte st;
     opcodeByte := opcodeByte st; modrmByte := modrmByte st;
     sibByte := sibByte st; mnemonic := mnemonic st; prefix := prefix st;
     rex := rex st; modrm := modrm st; sib := sib st; opEnc := opEnc st;
     remOps := remOps st; operands := operands st; disp8 := v;
     disp32 := disp32 st; assemblyInstruction := assemblyInstruction st;
     assemblyOperands := assemblyOperands st |}.

Definition set_disp32 (v : string) (st : State) : State :=
  {| objectSource := objectSource st; hasREX := hasREX st;
     hasSIB := hasSIB st; hasDisp8 := hasDisp8 st; hasDisp32 := hasDisp32 st;
     curIdx := curIdx st; instructionLen := instructionLen st;
     prefixOffset := prefixOffset st;
     prefixInstructionByte := prefixInstructionByte st;
     opcodeByte := opcodeByte st; modrmByte := modrmByte st;
     sibByte := sibByte st; mnemonic := mnemonic st; prefix := prefix st;
     rex := rex st; modrm := modrm st; sib := sib st; opEnc := opEnc st;
     remOps := remOps st; operands := operands st; disp8 := disp8 st;
     disp32 := v; assemblyInstruction := assemblyInstruction st;
     assemblyOperands := assemblyOperands st |}.

Definition set_assemblyInstruction (v : list string) (st : State) : State :=
  {| objectSource := objectSource st; hasREX := hasREX st;
     hasSIB := hasSIB st; hasDisp8 := hasDisp8 st; hasDisp32 := hasDisp32 st;
     curIdx := curIdx st; instructionLen := instructionLen st;
     prefixOffset := prefixOffset st;
     prefixInstructionByte := prefixInstructionByte st;
     opcodeByte := opcodeByte st; modrmByte := modrmByte st;
     sibByte := sibByte st; mnemonic := mnemonic st; prefix := prefix st;
     rex := rex st; modrm := modrm st; sib := sib st; opEnc := opEnc st;
     remOps := remOps st; operands := operands st; disp8 := disp8 st;
     disp32 := disp32 st; assemblyInstruction := v;
     assemblyOperands := assemblyOperands st |}.

Definition set_assemblyOperands (v : list string) (st : State) : State :=
  {| objectSource := objectSource st; hasREX := hasREX st;
     hasSIB := hasSIB st; hasDisp8 := hasDisp8 st; hasDisp32 := hasDisp32 st;
     curIdx := curIdx st; instructionLen := instructionLen st;
     prefixOffset := prefixOffset st;
     prefixInstructionByte := prefixInstructionByte st;
     opcodeByte := opcodeByte st; modrmByte := modrmByte st;
     sibByte := sibByte st; mnemonic := mnemonic st; prefix := prefix st;
     rex := rex st; modrm := modrm st; sib := sib st; opEnc := opEnc st;
     remOps := remOps st; operands := operands st; disp8 := disp8 st;
     disp32 := disp32 st; assemblyInstruction := assemblyInstruction st;
     assemblyOperands := v |}.

(** ** Integer conversions and text formatting *)

(** [int] to [size_t] and [size_t] to [int], as the implicit conversions of
    [curIdx = startIdx] and of [std::make_tuple(startIdx, instructionLen, ...)]
    into a tuple of [int]. *)
Definition size_t_of_int (z : Z) : Z := z mod 2 ^ 64.
Definition int_of_size_t (z : Z) : Z := (z + 2 ^ 31) mod 2 ^ 32 - 2 ^ 31.

(** [std::to_string] and [operator<<] on an integer: decimal digits, a minus
    sign for a negative number. *)
Definition dec_string (z : Z) : string := NilZero.string_of_int (Z.to_int z).

Definition hex_digit (d : Z) : ascii :=
  match String.get (Z.to_nat d) "0123456789abcdef" with
  | Some c => c
  | None => "?"%char
  end.

(** [ss << std::hex << std::setw(2) << std::setfill('0') << static_cast<int>(x)]
    for an [unsigned char] x. *)
Definition hex2 (x : Z) : string :=
  String (hex_digit (x / 16)) (String (hex_digit (x mod 16)) EmptyString).

(** The loop that writes [0x] and then each byte of the vector. *)
Definition hex_of_bytes (bs : list Z) : string :=
  fold_left (fun ss x => ss ++ hex2 x) bs "0x".

Definition is_digit (c : ascii) : bool :=
  let n := Z.of_nat (nat_of_ascii c) in (48 <=? n) && (n <=? 57).

Definition is_space (c : ascii) : bool :=
  let n := Z.of_nat (nat_of_ascii c) in (n =? 32) || ((9 <=? n) && (n <=? 13)).

Fixpoint stoi_digits (s : string) (acc : option Z) : option Z :=
  match s with
  | String c s' =>
      if is_digit c
      then stoi_digits s'
             (Some (10 * match acc with Some a => a | None => 0 end
                    + (Z.of_nat (nat_of_ascii c) - 48)))
      else acc
  | EmptyString => acc
  end.

Fixpoint stoi_skip (s : string) : string :=
  match s with
  | String c s' => if is_space c then stoi_skip s' else s
  | EmptyString => s
  end.

(** [std::stoi(str)] in base 10: leading white space is skipped, a sign is
    accepted, the longest run of digits is converted; no digit throws
    [std::invalid_argument], a value outside [int] throws
    [std::out_of_range]. *)
Definition stoi (str : string) : Result Z :=
  let s := stoi_skip str in
  let '(neg, s) :=
    match s with
    | String "-"%char s' => (true, s')
    | String "+"%char s' => (false, s')
    | _ => (false, s)
    end in
  match stoi_digits s None with
  | None => Err StdInvalidArgument
  | Some v =>
      let v := if neg then - v else v in
      if (- 2 ^ 31 <=? v) && (v <? 2 ^ 31) then Ok v else Err StdOutOfRange
  end.

(** ** Access to vectors and maps *)

Definition size (st : State) : Z := Z.of_nat (List.length (objectSource st)).

(** [objectSource[i]]: [operator[]] does not check the index. *)
Definition byteAt (st : State) (i : Z) : Result Z :=
  if (0 <=? i) && (i <? size st)
  then Ok (Z.of_N (Byte.to_N (nth (Z.to_nat i) (objectSource st) x00)))
  else Err (OutOfBoundsRead i).

(** [std::vector<uint8_t>(objectSource.begin() + i, objectSource.begin() + i + n)]:
    the range has to lie inside the vector. *)
Definition bytesAt (st : State) (i n : Z) : Result (list Z) :=
  if (0 <=? i) && (i + n <=? size st)
  then Ok (map (fun b => Z.of_N (Byte.to_N b))
             (firstn (Z.to_nat n) (skipn (Z.to_nat i) (objectSource st))))
  else Err (OutOfBoundsRead (i + n - 1)).

(** [v.at(i)] on a vector of names. *)
Definition vector_at (v : list string) (i : Z) : Result string :=
  if (0 <=? i) && (i <? Z.of_nat (List.length v))
  then Ok (nth (Z.to_nat i) v "")
  else Err StdOutOfRange.

(** [remOps[0]]. *)
Definition remOps0 (st : State) : Result string :=
  match remOps st with
  | r :: _ => Ok r
  | [] => Err (OutOfBoundsRead 0)
  end.

(** [m.find(k)] on an association list with a decidable key equality. *)
Fixpoint find {K V : Type} (eqb : K -> K -> bool) (k : K) (m : list (K * V))
  : option V :=
  match m with
  | (k', v) :: m' => if eqb k k' then Some v else find eqb k m'
  | [] => None
  end.

Definition op_key_eqb (a b : Prefix.t * Z) : bool :=
  Prefix.eqb (fst a) (fst b) && (snd a =? snd b).

Definition operand_key_eqb (a b : Prefix.t * Mnemonic.t * Z) : bool :=
  Prefix.eqb (fst (fst a)) (fst (fst b))
  && Mnemonic.eqb (snd (fst a)) (snd (fst b))
  && (snd a =? snd b).

(** [reg2mnem[k]]: [operator[]] of [std::unordered_map<int, Mnemonic>]
    answers the mapped value, and for an absent key inserts and answers a
    value-initialised [Mnemonic], the enumerator of value 0.  [reg2mnem] is
    a local copy of the row, so the insertion is not seen elsewhere. *)
Definition reg2mnem_index (reg2mnem : Reg2Mnem) (k : Z) : Mnemonic.t :=
  match find Z.eqb k reg2mnem with
  | Some m => m
  | None => Mnemonic.MOV
  end.


(** ** The pipeline of [state.h] *)

(** [State::init].  The fields [mnemonic], [rex], [modrm], [sib], [opEnc],
    [disp8] and [disp32] are not assigned. *)
Definition init (st : State) : State :=
  {| objectSource := objectSource st;
     hasREX := false; hasSIB := false; hasDisp8 := false; hasDisp32 := false;
     curIdx := 0;
     instructionLen := 0;
     prefixOffset := 0;
     prefixInstructionByte := -1; opcodeByte := -1; modrmByte := -1;
     sibByte := -1;
     mnemonic := mnemonic st;
     prefix := Prefix.NONE;
     rex := rex st; modrm := modrm st; sib := sib st;
     opEnc := opEnc st;
     remOps := [];
     operands := [];
     disp8 := disp8 st; disp32 := disp32 st;
     assemblyInstruction := [];
     assemblyOperands := [] |}.

(** [State::parsePrefix]. *)
Definition parsePrefix (st : State) : Result State :=
  b <- byteAt st (curIdx st) ;;
  if b =? 0x66
  then Ok (st |> set_prefix Prefix.P66
              |> set_instructionLen (instructionLen st + 1)
              |> set_curIdx (curIdx st + 1))
  else Ok st.

(** [State::parsePrefixInstructions]. *)
Definition parsePrefixInstructions (st : State) : Result State :=
  startByte <- byteAt st (curIdx st) ;;
  if inSet startByte PREFIX_INSTRUCTIONS_BYTES_SET
  then Ok (st |> set_prefixInstructionByte startByte
              |> set_prefixOffset 1
              |> set_instructionLen (instructionLen st + 1)
              |> set_curIdx (curIdx st + 1))
  else Ok st.

Section Decoder.

Variable E : Externals.

(** [State::parseREX]. *)
Definition parseREX (st : State) : Result State :=
  b <- byteAt st (curIdx st) ;;
  if Z.shiftr b 4 =? 4
  then
    let st := st |> set_hasREX true
                 |> set_rex (REX_new E b)
                 |> set_instructionLen (instructionLen st + 1)
                 |> set_curIdx (curIdx st + 1) in
    if REX.rexW (rex st)
    then Ok (set_prefix Prefix.REXW st)
    else Ok (set_prefix Prefix.REX st)
  else Ok st.

(** [State::parseOpecode], first part: the opcode bytes are eaten. *)
Definition eatOpecode (st : State) : Result State :=
  b <- byteAt st (curIdx st) ;;
  let st := st |> set_opcodeByte b
               |> set_instructionLen (instructionLen st + 1)
               |> set_curIdx (curIdx st + 1) in
  if inSet (opcodeByte st) (TWO_BYTES_OPCODE_PREFIX E)
  then
    b2 <- byteAt st (curIdx st) ;;
    Ok (st |> set_opcodeByte (Z.shiftl (opcodeByte st) 8 + b2)
           |> set_instructionLen (instructionLen st + 1)
           |> set_curIdx (curIdx st + 1))
  else Ok st.

(** [State::parseOpecode], second part: the row of [OP_LOOKUP] for
    [(prefix, opcodeByte)], with the two retries of the [else if] chain. *)
Definition lookupOpcode (st : State) : Result (Reg2Mnem * State) :=
  match find op_key_eqb (prefix st, opcodeByte st) (OP_LOOKUP E) with
  | Some reg2mnem => Ok (reg2mnem, st)
  | None =>
      match
        (if Prefix.eqb (prefix st) Prefix.REXW
         then find op_key_eqb (Prefix.REX, opcodeByte st) (OP_LOOKUP E)
         else None)
      with
      | Some reg2mnem => Ok (reg2mnem, set_prefix Prefix.REX st)
      | None =>
          match
            (if Prefix.eqb (prefix st) Prefix.REX
             then find op_key_eqb (Prefix.NONE, opcodeByte st) (OP_LOOKUP E)
             else None)
          with
          | Some reg2mnem => Ok (reg2mnem, set_prefix Prefix.NONE st)
          | None => Err (UnknownOpcode (prefix st) (opcodeByte st))
          end
      end
  end.

(** [State::parseOpecode], third part: the byte after the opcode is peeked
    when there is one, and the mnemonic is chosen in the row. *)
Definition peekModRM (st : State) : State :=
  if curIdx st <? size st
  then match byteAt st (curIdx st) with
       | Ok b => set_modrmByte b st
       | Err _ => st
       end
  else st.

Definition selectMnemonic (reg2mnem : Reg2Mnem) (modrmByte : Z) : Mnemonic.t :=
  if modrmByte >=? 0
  then
    let reg := getRegVal E modrmByte in
    match find Z.eqb reg reg2mnem with
    | Some _ => reg2mnem_index reg2mnem reg
    | None => reg2mnem_index reg2mnem (-1)
    end
  else reg2mnem_index reg2mnem (-1).

(** [State::parseOpecode], last part: the operand template of
    [OPERAND_LOOKUP] for [(prefix, mnemonic, opcodeByte)]. *)
Definition lookupOperands (st : State) : Result State :=
  let st := set_assemblyInstruction
              (assemblyInstruction st ++ [Mnemonic.to_string (mnemonic st)])%list st in
  match
    find operand_key_eqb (prefix st, mnemonic st, opcodeByte st)
      (OPERAND_LOOKUP E)
  with
  | Some (openc, rem, ops) =>
      Ok (st |> set_opEnc openc |> set_remOps rem |> set_operands ops)
  | None =>
      Err (UnknownOperandForm (prefix st) (mnemonic st) (opcodeByte st))
  end.

(** [State::parseOpecode] from the table lookup on. *)
Definition resolveOpecode (st : State) : Result State :=
  r <- lookupOpcode st ;;
  let '(reg2mnem, st) := r in
  let st := peekModRM st in
  let st := set_mnemonic (selectMnemonic reg2mnem (modrmByte st)) st in
  lookupOperands st.

(** [State::parseOpecode]. *)
Definition parseOpecode (st : State) : Result State :=
  st <- eatOpecode st ;;
  resolveOpecode st.

(** [State::parseModRM]. *)
Definition parseModRM (st : State) : Result State :=
  if hasModrm (opEnc st)
  then
    if modrmByte st <? 0
    then Err ExpectedModRM
    else Ok (st |> set_instructionLen (instructionLen st + 1)
                |> set_curIdx (curIdx st + 1)
                |> set_modrm (ModRM_new E (modrmByte st) (rex st)))
  else Ok st.

(** [State::parseSIB]. *)
Definition parseSIB (st : State) : Result State :=
  if hasModrm (opEnc st) && ModRM.hasSib (modrm st)
  then
    let st := if curIdx st <? size st
              then match byteAt st (curIdx st) with
                   | Ok b => set_sibByte b st
                   | Err _ => st
                   end
              else st in
    if sibByte st <? 0
    then Err ExpectedSIB
    else Ok (st |> set_sib (SIB_new E (sibByte st) (ModRM.modByte (modrm st))
                              (rex st))
                |> set_instructionLen (instructionLen st + 1)
                |> set_curIdx (curIdx st + 1))
  else Ok st.

(** The two conditions of [State::parseAddressOffset]. *)
Definition wantsDisp8 (st : State) : bool :=
  (hasModrm (opEnc st) && ModRM.hasDisp8 (modrm st))
  || (hasModrm (opEnc st) && ModRM.hasSib (modrm st) && SIB.hasDisp8 (sib st))
  || (hasModrm (opEnc st) && ModRM.hasSib (modrm st)
      && (ModRM.modByte (modrm st) =? 1) && (SIB.baseByte (sib st) =? 5)).

Definition wantsDisp32 (st : State) : bool :=
  (hasModrm (opEnc st) && ModRM.hasDisp32 (modrm st))
  || (hasModrm (opEnc st) && ModRM.hasSib (modrm st) && SIB.hasDisp32 (sib st))
  || (hasModrm (opEnc st) && ModRM.hasSib (modrm st)
      && ((ModRM.modByte (modrm st) =? 0) || (ModRM.modByte (modrm st) =? 2))
      && (SIB.baseByte (sib st) =? 5)).

(** [State::parseAddressOffset], first [if]: the 8-bit displacement. *)
Definition readDisp8 (st : State) : Result State :=
  if wantsDisp8 st
  then
    b <- byteAt st (curIdx st) ;;
    Ok (st |> set_disp8 (dec_string b)
           |> set_hasDisp8 true
           |> set_instructionLen (instructionLen st + 1)
           |> set_curIdx (curIdx st + 1))
  else Ok st.

(** [State::parseAddressOffset], second [if]: the 32-bit displacement. *)
Definition readDisp32 (st : State) : Result State :=
  if wantsDisp32 st
  then
    _disp32 <- bytesAt st (curIdx st) 4 ;;
    Ok (st |> set_disp32 (hex_of_bytes (rev _disp32))
           |> set_hasDisp32 true
           |> set_instructionLen (instructionLen st + 4)
           |> set_curIdx (curIdx st + 4))
  else Ok st.

(** [State::parseAddressOffset]. *)
Definition parseAddressOffset (st : State) : Result State :=
  st <- readDisp8 st ;;
  readDisp32 st.

(** The register named by [remOps[0]] when the encoding has no ModR/M byte;
    an operand of no width leaves the text empty. *)
Definition embeddedRegister (st : State) (operand : Operand.t) : Result string :=
  if is8Bit E operand
  then r <- remOps0 st ;; i <- stoi r ;; vector_at (REGISTERS8 E) i
  else if is16Bit E operand
  then r <- remOps0 st ;; i <- stoi r ;; vector_at (REGISTERS16 E) i
  else if is32Bit E operand
  then r <- remOps0 st ;; i <- stoi r ;; vector_at (REGISTERS32 E) i
  else if is64Bit E operand
  then r <- remOps0 st ;; i <- stoi r ;; vector_at (REGISTERS64 E) i
  else Ok "".

Definition immSize (operand : Operand.t) : Z :=
  match operand with
  | Operand.imm64 => 8
  | Operand.imm32 => 4
  | Operand.imm16 => 2
  | Operand.imm8 => 1
  | _ => 0
  end.

(** The body of the loop over [operands] in [decodeSingleInstruction]. *)
Definition processOperand (st : State) (operand : Operand.t) : Result State :=
  r <-
    (if isA_REG E operand
     then Ok (Operand.to_string operand, st)
     else if isRM E operand || isREG E operand
     then
       v <-
         (if hasModrm (opEnc st)
          then
            if isRM E operand
            then Ok (getAddrMode E (modrm st) operand (disp8 st) (disp32 st))
            else Ok (getReg E (modrm st) operand)
          else embeddedRegister st operand) ;;
       if isRM E operand && hasModrm (opEnc st) && ModRM.hasSib (modrm st)
       then Ok (getAddr E (sib st) operand (disp8 st) (disp32 st), st)
       else Ok (v, st)
     else if isIMM E operand
     then
       imm <- bytesAt st (curIdx st) (immSize operand) ;;
       Ok (hex_of_bytes (rev imm),
           st |> set_instructionLen (instructionLen st + immSize operand)
              |> set_curIdx (curIdx st + immSize operand))
     else Ok ("", st)) ;;
  let '(decodedTranslatedValue, st) := r in
  Ok (set_assemblyOperands (assemblyOperands st ++ [decodedTranslatedValue])%list st).

Fixpoint processOperands (ops : list Operand.t) (st : State) : Result State :=
  match ops with
  | operand :: ops' => st <- processOperand st operand ;; processOperands ops' st
  | [] => Ok st
  end.

(** The loops [s += " " + a] over a vector of strings. *)
Definition joinWithSpaces (l : list string) : string :=
  fold_left (fun s a => s ++ " " ++ a) l "".

(** What a call of [decodeSingleInstruction] leaves behind: the returned
    tuple, the line written to [std::cout], and the state. *)
Record Decoded : Type := {
  result : Z * Z * string * string;
  printed : string;
  final : State
}.

Definition newline : string := String (ascii_of_nat 10) EmptyString.

(** [State::decodeSingleInstruction]. *)
Definition decodeSingleInstruction (st : State) (startIdx : Z) : Result Decoded :=
  let st := init st in
  let st := set_curIdx (size_t_of_int startIdx) st in
  st <- parsePrefixInstructions st ;;
  st <- parsePrefix st ;;
  st <- parseREX st ;;
  st <- parseOpecode st ;;
  st <- parseModRM st ;;
  st <- parseSIB st ;;
  st <- parseAddressOffset st ;;
  st <- processOperands (operands st) st ;;
  let ao := joinWithSpaces (assemblyOperands st) in
  let st := set_assemblyInstruction (assemblyInstruction st ++ [ao])%list st in
  let assemblyInstructionStr := joinWithSpaces (assemblyInstruction st) in
  Ok {| result := (startIdx, int_of_size_t (instructionLen st),
                   Mnemonic.to_string (mnemonic st), assemblyInstructionStr);
        printed := dec_string startIdx ++ " " ++ dec_string (instructionLen st)
                   ++ " " ++ assemblyInstructionStr ++ newline;
        final := st |}.

End Decoder.

(** ** A sample instance of the missing headers

    The scenarios of the specification need the rows of a few opcodes and a
    reading of ModR/M and SIB bytes; [Spec] gives them, following the data
    model and the component design of the specification. *)
Module Spec.

(** Modelled from the spec: [getRegVal] of [modrm.h] is missing; the [reg]
    field is the three bits above [rm]. *)
Definition getRegVal (modrmByte : Z) : Z := Z.land (Z.shiftr modrmByte 3) 7.

(** Modelled from the spec: the constructor of [REX] is missing; the byte is
    0100|W|R|X|B. *)
Definition REX_new (b : Z) : REX.t :=
  {| REX.rexW := Z.testbit b 3; REX.rexR := Z.testbit b 2;
     REX.rexX := Z.testbit b 1; REX.rexB := Z.testbit b 0 |}.

(** Modelled from the spec: the register-name tables are missing; sixteen
    names for each width. *)
Definition REGISTERS8 : list string :=
  ["al"; "cl"; "dl"; "bl"; "spl"; "bpl"; "sil"; "dil";
   "r8b"; "r9b"; "r10b"; "r11b"; "r12b"; "r13b"; "r14b"; "r15b"].
Definition REGISTERS16 : list string :=
  ["ax"; "cx"; "dx"; "bx"; "sp"; "bp"; "si"; "di";
   "r8w"; "r9w"; "r10w"; "r11w"; "r12w"; "r13w"; "r14w"; "r15w"].
Definition REGISTERS32 : list string :=
  ["eax"; "ecx"; "edx"; "ebx"; "esp"; "ebp"; "esi"; "edi";
   "r8d"; "r9d"; "r10d"; "r11d"; "r12d"; "r13d"; "r14d"; "r15d"].
Definition REGISTERS64 : list string :=
  ["rax"; "rcx"; "rdx"; "rbx"; "rsp"; "rbp"; "rsi"; "rdi";
   "r8"; "r9"; "r10"; "r11"; "r12"; "r13"; "r14"; "r15"].

(** Modelled from the spec: the operand-kind predicates are missing; the
    accumulators, the two ModR/M slots and the immediates are told apart,
    and a slot without a width of its own is read as a 32-bit one. *)
Definition isA_REG (o : Operand.t) : bool :=
  match o with
  | Operand.al | Operand.ax | Operand.eax | Operand.rax => true
  | _ => false
  end.
Definition isRM (o : Operand.t) : bool :=
  match o with Operand.rm => true | _ => false end.
Definition isREG (o : Operand.t) : bool :=
  match o with Operand.reg => true | _ => false end.
Definition isIMM (o : Operand.t) : bool :=
  match o with
  | Operand.imm8 | Operand.imm16 | Operand.imm32 | Operand.imm64 => true
  | _ => false
  end.
Definition is8Bit (o : Operand.t) : bool :=
  match o with Operand.imm8 | Operand.al => true | _ => false end.
Definition is16Bit (o : Operand.t) : bool :=
  match o with Operand.imm16 | Operand.ax => true | _ => false end.
Definition is32Bit (o : Operand.t) : bool :=
  match o with
  | Operand.imm32 | Operand.eax | Operand.reg | Operand.rm => true
  | _ => false
  end.
Definition is64Bit (o : Operand.t) : bool :=
  match o with Operand.imm64 | Operand.rax => true | _ => false end.

Definition registerName (o : Operand.t) (i : Z) : string :=
  nth (Z.to_nat i)
    (if is8Bit o then REGISTERS8
     else if is16Bit o then REGISTERS16
     else if is64Bit o then REGISTERS64
     else REGISTERS32) "".

Definition ext (b : bool) (field : Z) : Z := Z.lor field (if b then 8 else 0).

(** Modelled from the spec: the constructor of [ModRM] is missing; the
    fields and the derived flags are those of the ModRmDecoder. *)
Definition ModRM_new (modrmByte : Z) (rex : REX.t) : ModRM.t :=
  let mod_ := Z.shiftr modrmByte 6 in
  let rm := Z.land modrmByte 7 in
  let hasSib := negb (mod_ =? 3) && (rm =? 4) in
  {| ModRM.modByte := mod_;
     ModRM.regByte := Z.land (Z.shiftr modrmByte 3) 7;
     ModRM.rmByte := rm;
     ModRM.hasSib := hasSib;
     ModRM.hasDisp8 := (mod_ =? 1) && negb hasSib;
     ModRM.hasDisp32 :=
       ((mod_ =? 2) && negb hasSib) || ((mod_ =? 0) && (rm =? 5));
     ModRM.rex := rex |}.

(** Modelled from the spec: [ModRM::getReg] is missing; the name of the
    register [reg] extended by REX.R. *)
Definition getReg (m : ModRM.t) (o : Operand.t) : string :=
  registerName o (ext (REX.rexR (ModRM.rex m)) (ModRM.regByte m)).

(** Modelled from the spec: [ModRM::getAddrMode] is missing; the
    effective-address forms without SIB. *)
Definition getAddrMode (m : ModRM.t) (o : Operand.t) (disp8 disp32 : string)
  : string :=
  let rmExt := ext (REX.rexB (ModRM.rex m)) (ModRM.rmByte m) in
  let base := nth (Z.to_nat rmExt) REGISTERS64 "" in
  if ModRM.modByte m =? 3 then registerName o rmExt
  else if (ModRM.modByte m =? 0) && (ModRM.rmByte m =? 5) then disp32
  else if ModRM.modByte m =? 0 then "[" ++ base ++ "]"
  else if ModRM.modByte m =? 1 then "[" ++ base ++ " + " ++ disp8 ++ "]"
  else "[" ++ base ++ " + " ++ disp32 ++ "]".

(** Modelled from the spec: the constructor of [SIB] is missing; the
    displacement follows the [mod] field of the ModR/M byte. *)
Definition SIB_new (sibByte modByte : Z) (rex : REX.t) : SIB.t :=
  {| SIB.scaleByte := Z.shiftr sibByte 6;
     SIB.indexByte := Z.land (Z.shiftr sibByte 3) 7;
     SIB.baseByte := Z.land sibByte 7;
     SIB.modByte := modByte;
     SIB.hasDisp8 := modByte =? 1;
     SIB.hasDisp32 := modByte =? 2;
     SIB.rex := rex |}.

(** Modelled from the spec: [SIB::getAddr] is missing; displacement, base
    and scaled index in this order, a lone displacement without brackets. *)
Definition getAddr (s : SIB.t) (o : Operand.t) (disp8 disp32 : string)
  : string :=
  let noBase := (SIB.baseByte s =? 5) && (SIB.modByte s =? 0) in
  let noIndex := (SIB.indexByte s =? 4) && negb (REX.rexX (SIB.rex s)) in
  let disp :=
    if SIB.modByte s =? 1 then [disp8]
    else if (SIB.modByte s =? 2) || noBase then [disp32]
    else [] in
  let base :=
    if noBase then []
    else [nth (Z.to_nat (ext (REX.rexB (SIB.rex s)) (SIB.baseByte s)))
            REGISTERS64 ""] in
  let index :=
    if noIndex then []
    else [nth (Z.to_nat (ext (REX.rexX (SIB.rex s)) (SIB.indexByte s)))
            REGISTERS64 ""
          ++ " * " ++ dec_string (2 ^ SIB.scaleByte s)] in
  if noBase && noIndex then disp32
  else "[" ++ String.concat " + " (disp ++ base ++ index)%list ++ "]".

(** Modelled from the spec: [OP_LOOKUP] of [table.h] is missing; the rows
    of the opcodes met in the scenarios, and /digit rows that do not cover
    every digit (F7 and C7). *)
Definition OP_LOOKUP : list ((Prefix.t * Z) * Reg2Mnem) :=
  [ ((Prefix.NONE, 0x90), [(-1, Mnemonic.NOP)]);
    ((Prefix.NONE, 0xC3), [(-1, Mnemonic.RET)]);
    ((Prefix.NONE, 0xB8), [(-1, Mnemonic.MOV)]);
    ((Prefix.NONE, 0x01), [(-1, Mnemonic.ADD)]);
    ((Prefix.NONE, 0x8B), [(-1, Mnemonic.MOV)]);
    ((Prefix.NONE, 0x83),
     [(0, Mnemonic.ADD); (1, Mnemonic.OR); (2, Mnemonic.ADC);
      (3, Mnemonic.SBB); (4, Mnemonic.AND); (5, Mnemonic.SUB);
      (6, Mnemonic.XOR); (7, Mnemonic.CMP)]);
    ((Prefix.NONE, 0xF7),
     [(2, Mnemonic.NOT); (3, Mnemonic.NEG); (4, Mnemonic.MUL);
      (5, Mnemonic.IMUL); (6, Mnemonic.DIV); (7, Mnemonic.IDIV)]);
    ((Prefix.NONE, 0xC7), [(0, Mnemonic.MOV)]);
    ((Prefix.NONE, 0x0FAF), [(-1, Mnemonic.IMUL)]) ].

(** Modelled from the spec: [OPERAND_LOOKUP] of [table.h] is missing; the
    operand templates of the rows above. *)
Definition OPERAND_LOOKUP
  : list ((Prefix.t * Mnemonic.t * Z) * OperandRow) :=
  [ ((Prefix.NONE, Mnemonic.NOP, 0x90), (OpEnc.NP, [], []));
    ((Prefix.NONE, Mnemonic.RET, 0xC3), (OpEnc.NP, [], []));
    ((Prefix.NONE, Mnemonic.MOV, 0xB8),
     (OpEnc.OI, ["0"], [Operand.reg; Operand.imm32]));
    ((Prefix.NONE, Mnemonic.ADD, 0x01),
     (OpEnc.MR, [], [Operand.rm; Operand.reg]));
    ((Prefix.NONE, Mnemonic.MOV, 0x8B),
     (OpEnc.RM, [], [Operand.reg; Operand.rm]));
    ((Prefix.NONE, Mnemonic.ADD, 0x83),
     (OpEnc.MI, [], [Operand.rm; Operand.imm8]));
    ((Prefix.NONE, Mnemonic.OR, 0x83),
     (OpEnc.MI, [], [Operand.rm; Operand.imm8]));
    ((Prefix.NONE, Mnemonic.NOT, 0xF7), (OpEnc.M, [], [Operand.rm]));
    ((Prefix.NONE, Mnemonic.NEG, 0xF7), (OpEnc.M, [], [Operand.rm]));
    ((Prefix.NONE, Mnemonic.MOV, 0xC7),
     (OpEnc.MI, [], [Operand.rm; Operand.imm32]));
    ((Prefix.NONE, Mnemonic.IMUL, 0x0FAF),
     (OpEnc.RM, [], [Operand.reg; Operand.rm])) ].

Definition externals : Externals :=
  Build_Externals [0x0F] OP_LOOKUP OPERAND_LOOKUP
    REGISTERS8 REGISTERS16 REGISTERS32 REGISTERS64
    isA_REG isRM isREG isIMM is8Bit is16Bit is32Bit is64Bit
    getRegVal REX_new ModRM_new getAddrMode getReg SIB_new getAddr.

End Spec.

(** A state as the constructor of [State] leaves it, over a given buffer;
    the fields the constructor does not initialise are given a value. *)
Definition State_new (objectSource : list byte) : State :=
  let rex0 := {| REX.rexW := false; REX.rexR := false; REX.rexX := false;
                 REX.rexB := false |} in
  {| objectSource := objectSource;
     hasREX := false; hasSIB := false; hasDisp8 := false; hasDisp32 := false;
     curIdx := 0; instructionLen := 0; prefixOffset := 0;
     prefixInstructionByte := 0; opcodeByte := 0; modrmByte := 0; sibByte := 0;
     mnemonic := Mnemonic.MOV;
     prefix := Prefix.NONE;
     rex := rex0;
     modrm := Spec.ModRM_new 0 rex0;
     sib := Spec.SIB_new 0 0 rex0;
     opEnc := OpEnc.I;
     remOps := []; operands := [];
     disp8 := ""; disp32 := "";
     assemblyInstruction := []; assemblyOperands := [] |}.

(** The text of a result, and its other components. *)
Definition text_of (d : Decoded) : string := snd (result d).
Definition mnemonic_of (d : Decoded) : string := snd (fst (result d)).
Definition length_of (d : Decoded) : Z := snd (fst (fst (result d))).
Definition start_of (d : Decoded) : Z := fst (fst (fst (result d))).

Definition decode (E : Externals) (bytes : list byte) (startIdx : Z)
  : Result Decoded :=
  decodeSingleInstruction E (State_new bytes) startIdx.

(** ** Vocabulary of the statements *)

(** The value of the byte at index [i] of the buffer. *)
Definition byteValue (st : State) (i : Z) : Z :=
  Z.of_N (Byte.to_N (nth (Z.to_nat i) (objectSource st) x00)).

(** The bytes a stage has eaten: the progress of the cursor. *)
Definition consumed (st st' : State) : Z := curIdx st' - curIdx st.

Definition is_upper_or_digit (c : ascii) : bool :=
  let n := Z.of_nat (nat_of_ascii c) in
  ((65 <=? n) && (n <=? 90)) || is_digit c.

Definition is_hex_digit (c : ascii) : bool :=
  let n := Z.of_nat (nat_of_ascii c) in
  is_digit c || ((97 <=? n) && (n <=? 102)).

Fixpoint string_forallb (p : ascii -> bool) (s : string) : bool :=
  match s with
  | String c s' => p c && string_forallb p s'
  | EmptyString => true
  end.

(** What every stage of the pipeline keeps: the buffer, and the distance
    between the cursor and the length counter. *)
Record Lockstep (st st' : State) : Prop := {
  lock_source : objectSource st' = objectSource st;
  lock_cursor : curIdx st' - instructionLen st' = curIdx st - instructionLen st;
  lock_mono : instructionLen st <= instructionLen st'
}.

(** What the stages other than the opcode resolver and the operand loop
    keep: the mnemonic, the operand template and the two text vectors. *)
Record KeepsText (st st' : State) : Prop := {
  keeps_mnemonic : mnemonic st' = mnemonic st;
  keeps_operands : operands st' = operands st;
  keeps_assemblyInstruction : assemblyInstruction st' = assemblyInstruction st;
  keeps_assemblyOperands : assemblyOperands st' = assemblyOperands st
}.

(** Two runs agree: both fail the same way, or both return, with related
    values. *)
Definition agree {A : Type} (R : A -> A -> Prop) (r1 r2 : Result A) : Prop :=
  match r1, r2 with
  | Ok a1, Ok a2 => R a1 a2
  | Err e1, Err e2 => e1 = e2
  | _, _ => False
  end.

(** The state without the fields that [init] neither resets nor the later
    stages read before they assign them. *)
Definition forget_opcode (st : State) : State :=
  st |> set_mnemonic Mnemonic.MOV |> set_opEnc OpEnc.I.

Definition forget_modrm_sib (st : State) : State :=
  st |> set_modrm (modrm (State_new [])) |> set_sib (sib (State_new [])).

(** Agreement of two states at the successive points of the pipeline:
    before the opcode is resolved, after it, after ModR/M, after SIB. *)
Definition same_scanned (st1 st2 : State) : Prop :=
  forget_opcode (forget_modrm_sib st1) = forget_opcode (forget_modrm_sib st2).

Definition same_resolved (st1 st2 : State) : Prop :=
  forget_modrm_sib st1 = forget_modrm_sib st2.

Definition same_modrm (st1 st2 : State) : Prop :=
  same_resolved st1 st2
  /\ (hasModrm (opEnc st1) = true -> modrm st1 = modrm st2).

Definition same_decoded (st1 st2 : State) : Prop :=
  same_modrm st1 st2
  /\ (hasModrm (opEnc st1) && ModRM.hasSib (modrm st1) = true ->
      sib st1 = sib st2).

Definition same_row (r1 r2 : Reg2Mnem * State) : Prop :=
  fst r1 = fst r2 /\ same_scanned (snd r1) (snd r2).

Definition same_observation (d1 d2 : Decoded) : Prop :=
  result d1 = result d2 /\ printed d1 = printed d2.

(** What a caller observes of a call: the returned tuple and the line
    written to the standard output. *)
Definition observable (r : Result Decoded)
  : Result (Z * Z * string * string * string) :=
  match r with
  | Ok d => Ok (result d, printed d)
  | Err e => Err e
  end.

(** Case analysis on the outcome of a stage that returned. *)
Ltac stage_cases H :=
  repeat
    (match type of H with
     | Ok _ = Ok _ => injection H as H; try subst
     | Err _ = Ok _ => discriminate H
     | context [bind ?c _] =>
         let Hc := fresh "Hc" in destruct c eqn:Hc; cbn [bind] in H
     | context [if ?c then _ else _] =>
         let Hc := fresh "Hc" in destruct c eqn:Hc
     | context [match ?c with Some _ => _ | None => _ end] =>
         let Hc := fresh "Hc" in destruct c eqn:Hc
     | context [let '(_, _) := ?c in _] => destruct c
     end).

(** The goals left by the records above on states built with setters. *)
Ltac frame := split; cbn; first [reflexivity | lia].

(** Two states that agree up to the fields named by [forget]: field by
    field. *)
Ltac same_fields H :=
  match type of H with
  | ?R ?a ?b =>
      destruct a, b;
      unfold same_scanned, same_resolved, forget_opcode, forget_modrm_sib in H;
      cbn in H; injection H as H; intros; subst
  end.

(** Reduction of the projections of a state built with setters, leaving
    arithmetic alone. *)
Ltac fields :=
  cbn [objectSource hasREX hasSIB hasDisp8 hasDisp32 curIdx instructionLen
       prefixOffset prefixInstructionByte opcodeByte modrmByte sibByte
       mnemonic prefix rex modrm sib opEnc remOps operands disp8 disp32
       assemblyInstruction assemblyOperands set_hasREX set_hasDisp8
       set_hasDisp32 set_curIdx set_instructionLen set_prefixOffset
       set_prefixInstructionByte set_opcodeByte set_modrmByte set_sibByte
       set_mnemonic set_prefix set_rex set_modrm set_sib set_opEnc
       set_remOps set_operands set_disp8 set_disp32 set_assemblyInstruction
       set_assemblyOperands bind agree fst snd andb orb].

(** Both runs take the same branch wherever they test the same value. *)
Ltac same_branches :=
  repeat
    (fields;
     match goal with
     | |- context [match ?c with _ => _ end] =>
         lazymatch c with
         | context [match _ with _ => _ end] => fail
         | _ => destruct c eqn:?
         end
     | |- context [bind ?c _] =>
         lazymatch c with
         | context [match _ with _ => _ end] => fail
         | context [bind _ _] => fail
         | _ => destruct c eqn:?
         end
     end);
  fields.

(** The ModR/M and SIB records of two states that agree after the SIB
    stage are the same wherever the encoding makes the code read them. *)
Ltac same_decoded_fields H :=
  let Hm := fresh "Hm" in
  let Hs := fresh "Hs" in
  destruct H as [[H Hm] Hs]; same_fields H;
  cbn [opEnc modrm sib] in Hm, Hs;
  match type of Hm with
  | hasModrm ?o = true -> _ =>
      let Hh := fresh "Hh" in
      destruct (hasModrm o) eqn:Hh;
      [ rewrite (Hm eq_refl) in *; clear Hm;
        match type of Hs with
        | true && ModRM.hasSib ?m = true -> _ =>
            let Hb := fresh "Hb" in
            destruct (ModRM.hasSib m) eqn:Hb;
            [ rewrite (Hs eq_refl) in *; clear Hs | clear Hs ]
        end
      | clear Hm Hs ]
  end.

Ltac same_decoded_result :=
  unfold same_decoded, same_modrm, same_resolved, forget_modrm_sib;
  (split; [split|]); fields; intros;
  try match goal with
      | Hc : _ && _ = true |- _ => apply andb_prop in Hc; destruct Hc
      end;
  first [reflexivity | congruence].

(** Closed goals are settled by evaluation. *)
Ltac run := vm_compute; first [reflexivity | discriminate | lia].

(** ** The other tables of [constants.h] *)

(** [enum class InstructionCategory]. *)
Module InstructionCategory.
Inductive t : Set := CALL | FUNC_END | JUMP | JCC.
End InstructionCategory.

(** [instructionCategories]: a map from the name of an instruction to its
    category. *)
Definition instructionCategories : list (string * InstructionCategory.t) :=
  [("CALL", InstructionCategory.CALL);
   ("RET", InstructionCategory.FUNC_END);
   ("RETN", InstructionCategory.FUNC_END);
   ("RETF", InstructionCategory.FUNC_END);
   ("JMP", InstructionCategory.JUMP);
   ("JZ", InstructionCategory.JCC);
   ("JNZ", InstructionCategory.JCC)].

(** [BYTE2PREFIX_INSTRUCTIONS]: the instructions each prefix byte goes with. *)
Definition BYTE2PREFIX_INSTRUCTIONS : list (Z * list string) :=
  [(0x0F, ["IMUL"; "JZ"; "JNZ"]);
   (0xF0, ["LOCK"]);
   (0xF2, ["REPNE"; "REPNZ"]);
   (0xF3, ["REP"; "REPE"; "REPZ"])].

(** ** Vocabulary of the further statements *)

(** The number a run of hexadecimal digits denotes, most significant digit
    first; a character that is no digit ends the reading with nothing. *)
Definition hex_digit_value (c : ascii) : option Z :=
  let n := Z.of_nat (nat_of_ascii c) in
  if (48 <=? n) && (n <=? 57) then Some (n - 48)
  else if (97 <=? n) && (n <=? 102) then Some (n - 87)
  else None.

Fixpoint hex_value_from (acc : Z) (s : string) : option Z :=
  match s with
  | String c s' =>
      match hex_digit_value c with
      | Some d => hex_value_from (16 * acc + d) s'
      | None => None
      end
  | EmptyString => Some acc
  end.

(** The number written as [0x] and hexadecimal digits. *)
Definition hex_value (s : string) : option Z :=
  match s with
  | String "0" (String "x" digits) => hex_value_from 0 digits
  | _ => None
  end.

(** The number a sequence of bytes encodes, least significant byte first. *)
Fixpoint little_endian (bs : list Z) : Z :=
  match bs with
  | b :: bs' => b + 256 * little_endian bs'
  | [] => 0
  end.

(** The bytes the operand loop eats for a template: the sizes of the
    operands that reach the immediate branch of the loop. *)
Definition immBytes (E : Externals) (ops : list Operand.t) : Z :=
  fold_right
    (fun o n =>
       (if negb (isA_REG E o) && negb (isRM E o || isREG E o) && isIMM E o
        then immSize o else 0) + n)
    0 ops.

(** The cursor is inside the buffer or at its end. *)
Definition within (st : State) : Prop := 0 <= curIdx st <= size st.

(** The state a call hands to its first stage. *)
Definition entry (st : State) (startIdx : Z) : State :=
  set_curIdx (size_t_of_int startIdx) (init st).

(** What every stage keeps of the state a call started from: the buffer,
    a cursor inside it, the flag [hasSIB], and the REX record as long as no
    REX byte has been met. *)
Record Kept (src : list byte) (rex0 : REX.t) (st : State) : Prop := {
  kept_source : objectSource st = src;
  kept_within : 0 <= curIdx st <= Z.of_nat (List.length src);
  kept_hasSIB : hasSIB st = false;
  kept_rex : hasREX st = false -> rex st = rex0
}.

(** After the resolver the peeked byte, when there is one, is the byte
    under the cursor. *)
Definition peeked (st : State) : Prop :=
  (0 <= modrmByte st ->
   curIdx st < size st /\ modrmByte st = byteValue st (curIdx st))
  /\ (modrmByte st < 0 -> size st <= curIdx st).

(** ** Two runs over shifted buffers *)

(** The same state over another buffer. *)
Definition with_objectSource (src : list byte) (st : State) : State :=
  {| objectSource := src; hasREX := hasREX st; hasSIB := hasSIB st;
     hasDisp8 := hasDisp8 st; hasDisp32 := hasDisp32 st; curIdx := curIdx st;
     instructionLen := instructionLen st; prefixOffset := prefixOffset st;
     prefixInstructionByte := prefixInstructionByte st;
     opcodeByte := opcodeByte st; modrmByte := modrmByte st;
     sibByte := sibByte st; mnemonic := mnemonic st; prefix := prefix st;
     rex := rex st; modrm := modrm st; sib := sib st; opEnc := opEnc st;
     remOps := remOps st; operands := operands st; disp8 := disp8 st;
     disp32 := disp32 st; assemblyInstruction := assemblyInstruction st;
     assemblyOperands := assemblyOperands st |}.

(** The first state is the second one over a buffer with [pre] put in
    front: its cursor is further by the length of [pre], its length counter
    by [j], and the two fields of the prefix instruction are left aside. *)
Record Shifted (pre : list byte) (j : Z) (s1 s2 : State) : Prop := {
  sh_source : objectSource s1 = (pre ++ objectSource s2)%list;
  sh_curIdx : curIdx s1 = curIdx s2 + Z.of_nat (List.length pre);
  sh_nonneg : 0 <= curIdx s2;
  sh_instructionLen : instructionLen s1 = instructionLen s2 + j;
  sh_hasREX : hasREX s1 = hasREX s2;
  sh_hasSIB : hasSIB s1 = hasSIB s2;
  sh_hasDisp8 : hasDisp8 s1 = hasDisp8 s2;
  sh_hasDisp32 : hasDisp32 s1 = hasDisp32 s2;
  sh_opcodeByte : opcodeByte s1 = opcodeByte s2;
  sh_modrmByte : modrmByte s1 = modrmByte s2;
  sh_sibByte : sibByte s1 = sibByte s2;
  sh_mnemonic : mnemonic s1 = mnemonic s2;
  sh_prefix : prefix s1 = prefix s2;
  sh_rex : rex s1 = rex s2;
  sh_modrm : modrm s1 = modrm s2;
  sh_sib : sib s1 = sib s2;
  sh_opEnc : opEnc s1 = opEnc s2;
  sh_remOps : remOps s1 = remOps s2;
  sh_operands : operands s1 = operands s2;
  sh_disp8 : disp8 s1 = disp8 s2;
  sh_disp32 : disp32 s1 = disp32 s2;
  sh_assemblyInstruction : assemblyInstruction s1 = assemblyInstruction s2;
  sh_assemblyOperands : assemblyOperands s1 = assemblyOperands s2
}.

(** Two runs fail both, or return both with related values. *)
Definition alike {A : Type} (R : A -> A -> Prop) (r1 r2 : Result A) : Prop :=
  match r1, r2 with
  | Ok a1, Ok a2 => R a1 a2
  | Err _, Err _ => True
  | _, _ => False
  end.

(** The byte at an index, when there is one. *)
Definition read (st : State) (i : Z) : option Z :=
  if (0 <=? i) && (i <? size st) then Some (byteValue st i) else None.

(** [decodeSingleInstruction] after its first stage. *)
Definition afterPrefixInstructions (E : Externals) (startIdx : Z) (st : State)
  : Result Decoded :=
  st <- parsePrefix st ;;
  st <- parseREX E st ;;
  st <- parseOpecode E st ;;
  st <- parseModRM E st ;;
  st <- parseSIB E st ;;
  st <- parseAddressOffset st ;;
  st <- processOperands E (operands st) st ;;
  let ao := joinWithSpaces (assemblyOperands st) in
  let st := set_assemblyInstruction (assemblyInstruction st ++ [ao])%list st in
  let assemblyInstructionStr := joinWithSpaces (assemblyInstruction st) in
  Ok {| result := (startIdx, int_of_size_t (instructionLen st),
                   Mnemonic.to_string (mnemonic st), assemblyInstructionStr);
        printed := dec_string startIdx ++ " " ++ dec_string (instructionLen st)
                   ++ " " ++ assemblyInstructionStr ++ newline;
        final := st |}.

(** Two results name the same instruction: mnemonic and text. *)
Definition same_rendering (d1 d2 : Decoded) : Prop :=
  mnemonic_of d1 = mnemonic_of d2 /\ text_of d1 = text_of d2.

(** Two rows found alike: the same row, in shifted states. *)
Definition shifted_row (pre : list byte) (j : Z) (r1 r2 : Reg2Mnem * State)
  : Prop :=
  fst r1 = fst r2 /\ Shifted pre j (snd r1) (snd r2).

(** The fields of the first of two shifted states, read in the second. *)
Ltac via S :=
  rewrite ?(sh_prefix _ _ _ _ S), ?(sh_opcodeByte _ _ _ _ S),
    ?(sh_modrmByte _ _ _ _ S), ?(sh_sibByte _ _ _ _ S),
    ?(sh_mnemonic _ _ _ _ S), ?(sh_rex _ _ _ _ S), ?(sh_modrm _ _ _ _ S),
    ?(sh_sib _ _ _ _ S), ?(sh_opEnc _ _ _ _ S), ?(sh_remOps _ _ _ _ S),
    ?(sh_operands _ _ _ _ S), ?(sh_disp8 _ _ _ _ S), ?(sh_disp32 _ _ _ _ S),
    ?(sh_assemblyInstruction _ _ _ _ S), ?(sh_assemblyOperands _ _ _ _ S).

(** Two results render alike and their length counters differ by [j]. *)
Definition shifted_result (j : Z) (d1 d2 : Decoded) : Prop :=
  same_rendering d1 d2
  /\ instructionLen (final d1) = instructionLen (final d2) + j.

(** Two results with the same tuple and the same length counter. *)
Definition same_result (d1 d2 : Decoded) : Prop :=
  result d1 = result d2
  /\ instructionLen (final d1) = instructionLen (final d2).

(** Reduction of the projections of a state built with setters, in the
    goal and in the hypotheses. *)
Ltac fields_everywhere :=
  cbn [objectSource hasREX hasSIB hasDisp8 hasDisp32 curIdx instructionLen
       prefixOffset prefixInstructionByte opcodeByte modrmByte sibByte
       mnemonic prefix rex modrm sib opEnc remOps operands disp8 disp32
       assemblyInstruction assemblyOperands set_hasREX set_hasDisp8
       set_hasDisp32 set_curIdx set_instructionLen set_prefixOffset
       set_prefixInstructionByte set_opcodeByte set_modrmByte set_sibByte
       set_mnemonic set_prefix set_rex set_modrm set_sib set_opEnc
       set_remOps set_operands set_disp8 set_disp32 set_assemblyInstruction
       set_assemblyOperands bind fst snd init] in *.

(** ** Two runs over the same slice *)

(** The bytes [buffer[start .. start + n]]. *)
Definition slice (src : list byte) (start n : Z) : list byte :=
  firstn (Z.to_nat n) (skipn (Z.to_nat start) src).

(** The byte peeked after the opcode chooses among the mnemonics of a row
    only where the template chosen with it has a ModR/M byte, which the
    peeked byte then is: in a row that leads to a template without ModR/M,
    every peeked byte, and none, chooses the same mnemonic. *)
Definition peek_is_ModRM (E : Externals) : Prop :=
  forall p op reg2mnem b b' openc rem ops,
    find op_key_eqb (p, op) (OP_LOOKUP E) = Some reg2mnem ->
    find operand_key_eqb (p, selectMnemonic E reg2mnem b, op)
      (OPERAND_LOOKUP E)
    = Some (openc, rem, ops) ->
    hasModrm openc = false ->
    selectMnemonic E reg2mnem b' = selectMnemonic E reg2mnem b.

(** The same state over another buffer, with another peeked byte. *)
Definition over (src : list byte) (peek : Z) (st : State) : State :=
  with_objectSource src (set_modrmByte peek st).

(** The sample tables with a row for 0x90 whose mnemonic the peeked byte
    chooses, although none of its templates has a ModR/M byte. *)
Definition peeking_externals : Externals :=
  let E := Spec.externals in
  Build_Externals (TWO_BYTES_OPCODE_PREFIX E)
    (((Prefix.NONE, 0x90), [(-1, Mnemonic.NOP); (1, Mnemonic.RET)])
       :: OP_LOOKUP E)
    (((Prefix.NONE, Mnemonic.RET, 0x90), (OpEnc.NP, [], []))
       :: OPERAND_LOOKUP E)
    (REGISTERS8 E) (REGISTERS16 E) (REGISTERS32 E) (REGISTERS64 E)
    (isA_REG E) (isRM E) (isREG E) (isIMM E)
    (is8Bit E) (is16Bit E) (is32Bit E) (is64Bit E)
    (getRegVal E) (REX_new E) (ModRM_new E) (getAddrMode E) (getReg E)
    (SIB_new E) (getAddr E).

(** * Properties *)

(** ** The stages one by one *)

Lemma Lockstep_refl (st : State) : Lockstep st st.
Proof. split; first [reflexivity | lia]. Qed.

Lemma Lockstep_trans (a b c : State) :
  Lockstep a b -> Lockstep b c -> Lockstep a c.
Proof.
  intros [H1 H2 H3] [H4 H5 H6]. split; [congruence | lia | lia].
Qed.

Lemma KeepsText_refl (st : State) : KeepsText st st.
Proof. split; reflexivity. Qed.

Lemma KeepsText_trans (a b c : State) :
  KeepsText a b -> KeepsText b c -> KeepsText a c.
Proof.
  intros [H1 H2 H3 H4] [H5 H6 H7 H8]. split; congruence.
Qed.

Lemma parsePrefixInstructions_frame (st st' : State) :
  parsePrefixInstructions st = Ok st' -> Lockstep st st' /\ KeepsText st st'.
Proof.
  intros H. unfold parsePrefixInstructions in H.
  stage_cases H; split; frame.
Qed.

Lemma parsePrefix_frame (st st' : State) :
  parsePrefix st = Ok st' -> Lockstep st st' /\ KeepsText st st'.
Proof.
  intros H. unfold parsePrefix in H.
  stage_cases H; split; frame.
Qed.

Lemma parseREX_frame (E : Externals) (st st' : State) :
  parseREX E st = Ok st' -> Lockstep st st' /\ KeepsText st st'.
Proof.
  intros H. unfold parseREX in H.
  stage_cases H; split; frame.
Qed.

Lemma eatOpecode_frame (E : Externals) (st st' : State) :
  eatOpecode E st = Ok st' -> Lockstep st st' /\ KeepsText st st'.
Proof.
  intros H. unfold eatOpecode in H.
  stage_cases H; split; frame.
Qed.

Lemma lookupOpcode_frame (E : Externals) (st st' : State) (r : Reg2Mnem) :
  lookupOpcode E st = Ok (r, st') -> Lockstep st st' /\ KeepsText st st'.
Proof.
  intros H. unfold lookupOpcode in H.
  stage_cases H; split; frame.
Qed.

Lemma peekModRM_cases (st : State) :
  peekModRM st = st
  \/ (curIdx st < size st
      /\ peekModRM st = set_modrmByte (byteValue st (curIdx st)) st).
Proof.
  unfold peekModRM, byteAt, byteValue.
  destruct (curIdx st <? size st) eqn:Hlt; [|now left].
  destruct (0 <=? curIdx st); cbn [andb]; [|now left].
  right. split; [lia | reflexivity].
Qed.

Lemma peekModRM_frame (st : State) :
  Lockstep st (peekModRM st) /\ KeepsText st (peekModRM st).
Proof.
  destruct (peekModRM_cases st) as [-> | [_ ->]]; split; frame.
Qed.

Lemma parseModRM_frame (E : Externals) (st st' : State) :
  parseModRM E st = Ok st' -> Lockstep st st' /\ KeepsText st st'.
Proof.
  intros H. unfold parseModRM in H.
  stage_cases H; split; frame.
Qed.

Lemma parseSIB_frame (E : Externals) (st st' : State) :
  parseSIB E st = Ok st' -> Lockstep st st' /\ KeepsText st st'.
Proof.
  intros H. unfold parseSIB in H.
  destruct (hasModrm (opEnc st) && ModRM.hasSib (modrm st));
    [|injection H as <-; split; frame].
  destruct (curIdx st <? size st).
  - destruct (byteAt st (curIdx st)); stage_cases H; split; frame.
  - stage_cases H; split; frame.
Qed.

Lemma readDisp8_frame (st st' : State) :
  readDisp8 st = Ok st' -> Lockstep st st' /\ KeepsText st st'.
Proof.
  intros H. unfold readDisp8 in H.
  stage_cases H; split; frame.
Qed.

Lemma readDisp32_frame (st st' : State) :
  readDisp32 st = Ok st' -> Lockstep st st' /\ KeepsText st st'.
Proof.
  intros H. unfold readDisp32 in H.
  stage_cases H; split; frame.
Qed.

Lemma parseAddressOffset_frame (st st' : State) :
  parseAddressOffset st = Ok st' -> Lockstep st st' /\ KeepsText st st'.
Proof.
  intros H. unfold parseAddressOffset in H.
  destruct (readDisp8 st) as [st1|] eqn:H1; [cbn [bind] in H | discriminate].
  apply readDisp8_frame in H1. apply readDisp32_frame in H.
  destruct H1, H. split;
    [eapply Lockstep_trans | eapply KeepsText_trans]; eassumption.
Qed.

Lemma lookupOperands_frame (E : Externals) (st st' : State) :
  lookupOperands E st = Ok st' ->
  Lockstep st st'
  /\ mnemonic st' = mnemonic st
  /\ assemblyInstruction st'
     = (assemblyInstruction st ++ [Mnemonic.to_string (mnemonic st)])%list
  /\ assemblyOperands st' = assemblyOperands st.
Proof.
  intros H. unfold lookupOperands in H. cbn in H.
  destruct (find operand_key_eqb _ _) as [[[openc rem] ops]|];
    [|discriminate].
  injection H as <-. split; [frame|]. repeat split.
Qed.

Lemma parseOpecode_frame (E : Externals) (st st' : State) :
  parseOpecode E st = Ok st' ->
  Lockstep st st'
  /\ assemblyInstruction st'
     = (assemblyInstruction st ++ [Mnemonic.to_string (mnemonic st')])%list
  /\ assemblyOperands st' = assemblyOperands st.
Proof.
  intros H. unfold parseOpecode, resolveOpecode in H.
  destruct (eatOpecode E st) as [s1|] eqn:H1; [cbn [bind] in H | discriminate].
  destruct (lookupOpcode E s1) as [[r s2]|] eqn:H2;
    [cbn [bind] in H | discriminate].
  apply eatOpecode_frame in H1. apply lookupOpcode_frame in H2.
  apply lookupOperands_frame in H.
  destruct H1 as [L1 K1], H2 as [L2 K2], H as (L3 & Hm & Ha & Ho).
  destruct (peekModRM_frame s2) as [L4 K4].
  destruct K1, K2, K4.
  set (s3 := peekModRM s2) in *.
  assert (L5 : Lockstep s3 (set_mnemonic (selectMnemonic E r (modrmByte s3)) s3))
    by frame.
  split; [|split].
  - eauto using Lockstep_trans.
  - rewrite Ha, Hm. cbn. congruence.
  - rewrite Ho. cbn. congruence.
Qed.

Lemma processOperand_frame (E : Externals) (st st' : State) (o : Operand.t) :
  processOperand E st o = Ok st' ->
  Lockstep st st'
  /\ mnemonic st' = mnemonic st
  /\ operands st' = operands st
  /\ assemblyInstruction st' = assemblyInstruction st
  /\ exists v, assemblyOperands st' = (assemblyOperands st ++ [v])%list.
Proof.
  intros H. unfold processOperand in H.
  match type of H with
  | bind ?c _ = _ => destruct c as [[v s]|] eqn:Hc; [cbn [bind] in H | discriminate]
  end.
  injection H as <-.
  assert (Hs : s = st
               \/ s = (st |> set_instructionLen (instructionLen st + immSize o)
                          |> set_curIdx (curIdx st + immSize o))).
  { stage_cases Hc; auto. }
  assert (0 <= immSize o) by (destruct o; cbn; lia).
  destruct Hs as [-> | ->]; (split; [frame | cbn; eauto 6]).
Qed.

Lemma processOperands_frame (E : Externals) (ops : list Operand.t) :
  forall st st',
    processOperands E ops st = Ok st' ->
    Lockstep st st'
    /\ mnemonic st' = mnemonic st
    /\ operands st' = operands st
    /\ assemblyInstruction st' = assemblyInstruction st
    /\ exists vs, assemblyOperands st' = (assemblyOperands st ++ vs)%list
                  /\ List.length vs = List.length ops.
Proof.
  induction ops as [|o ops IH]; intros st st' H; cbn [processOperands] in H.
  - injection H as <-. split; [apply Lockstep_refl|].
    split; [reflexivity|]. split; [reflexivity|]. split; [reflexivity|].
    exists []. now rewrite app_nil_r.
  - destruct (processOperand E st o) as [s1|] eqn:H1;
      [cbn [bind] in H | discriminate].
    apply processOperand_frame in H1. apply IH in H.
    destruct H1 as (L1 & M1 & O1 & A1 & v & V1),
             H as (L2 & M2 & O2 & A2 & vs & V2 & Hl).
    split; [eauto using Lockstep_trans|].
    split; [congruence|]. split; [congruence|]. split; [congruence|].
    + exists (v :: vs). split; [|cbn; congruence].
      rewrite V2, V1, <- app_assoc. reflexivity.
Qed.

(** A call that returns went through every stage. *)
Lemma decodeSingleInstruction_stages (E : Externals) (st : State) (startIdx : Z)
    (d : Decoded) :
  decodeSingleInstruction E st startIdx = Ok d ->
  exists s1 s2 s3 s4 s5 s6 s7 s8,
    parsePrefixInstructions (set_curIdx (size_t_of_int startIdx) (init st)) = Ok s1
    /\ parsePrefix s1 = Ok s2
    /\ parseREX E s2 = Ok s3
    /\ parseOpecode E s3 = Ok s4
    /\ parseModRM E s4 = Ok s5
    /\ parseSIB E s5 = Ok s6
    /\ parseAddressOffset s6 = Ok s7
    /\ processOperands E (operands s7) s7 = Ok s8
    /\ result d
       = (startIdx, int_of_size_t (instructionLen s8),
          Mnemonic.to_string (mnemonic s8),
          joinWithSpaces
            (assemblyInstruction s8 ++ [joinWithSpaces (assemblyOperands s8)])%list)
    /\ printed d
       = dec_string startIdx ++ " " ++ dec_string (instructionLen s8) ++ " "
         ++ snd (result d) ++ newline
    /\ final d
       = set_assemblyInstruction
           (assemblyInstruction s8 ++ [joinWithSpaces (assemblyOperands s8)])%list
           s8.
Proof.
  unfold decodeSingleInstruction. intros H.
  destruct (parsePrefixInstructions _) as [s1|] eqn:H1; [cbn [bind] in H | discriminate].
  destruct (parsePrefix s1) as [s2|] eqn:H2; [cbn [bind] in H | discriminate].
  destruct (parseREX E s2) as [s3|] eqn:H3; [cbn [bind] in H | discriminate].
  destruct (parseOpecode E s3) as [s4|] eqn:H4; [cbn [bind] in H | discriminate].
  destruct (parseModRM E s4) as [s5|] eqn:H5; [cbn [bind] in H | discriminate].
  destruct (parseSIB E s5) as [s6|] eqn:H6; [cbn [bind] in H | discriminate].
  destruct (parseAddressOffset s6) as [s7|] eqn:H7; [cbn [bind] in H | discriminate].
  destruct (processOperands E (operands s7) s7) as [s8|] eqn:H8;
    [cbn [bind] in H | discriminate].
  injection H as <-.
  exists s1, s2, s3, s4, s5, s6, s7, s8. cbn. repeat split; assumption.
Qed.

(** The state at the end of the operand loop of a call that returned. *)
Lemma decodeSingleInstruction_summary (E : Externals) (st : State)
    (startIdx : Z) (d : Decoded) :
  decodeSingleInstruction E st startIdx = Ok d ->
  exists s8 vs,
    curIdx s8 - instructionLen s8 = size_t_of_int startIdx
    /\ 0 <= instructionLen s8
    /\ assemblyInstruction s8 = [Mnemonic.to_string (mnemonic s8)]
    /\ assemblyOperands s8 = vs
    /\ List.length vs = List.length (operands s8)
    /\ result d
       = (startIdx, int_of_size_t (instructionLen s8),
          Mnemonic.to_string (mnemonic s8),
          joinWithSpaces
            (assemblyInstruction s8 ++ [joinWithSpaces (assemblyOperands s8)])%list)
    /\ final d
       = set_assemblyInstruction
           (assemblyInstruction s8 ++ [joinWithSpaces (assemblyOperands s8)])%list
           s8.
Proof.
  intros H.
  destruct (decodeSingleInstruction_stages _ _ _ _ H)
    as (s1 & s2 & s3 & s4 & s5 & s6 & s7 & s8 &
        H1 & H2 & H3 & H4 & H5 & H6 & H7 & H8 & Hr & _ & Hf).
  apply parsePrefixInstructions_frame in H1. destruct H1 as [L1 [ ]].
  apply parsePrefix_frame in H2. destruct H2 as [L2 [ ]].
  apply parseREX_frame in H3. destruct H3 as [L3 [ ]].
  apply parseOpecode_frame in H4. destruct H4 as (L4 & A4 & O4).
  apply parseModRM_frame in H5. destruct H5 as [L5 [ ]].
  apply parseSIB_frame in H6. destruct H6 as [L6 [ ]].
  apply parseAddressOffset_frame in H7. destruct H7 as [L7 [ ]].
  apply processOperands_frame in H8.
  destruct H8 as (L8 & M8 & P8 & A8 & vs & V8 & Hl).
  assert (L : Lockstep (set_curIdx (size_t_of_int startIdx) (init st)) s8)
    by eauto 10 using Lockstep_trans.
  destruct L as [_ Lc Lm]. cbn in Lc, Lm.
  assert (Hops : assemblyOperands s7 = []) by (cbn in *; congruence).
  assert (Hins : assemblyInstruction s4 = [Mnemonic.to_string (mnemonic s4)])
    by (rewrite A4; cbn in *; replace (assemblyInstruction s3) with (@nil string)
          by congruence; reflexivity).
  exists s8, vs. repeat split; try assumption; try lia.
  - congruence.
  - rewrite V8, Hops. reflexivity.
  - congruence.
Qed.

Lemma joinWithSpaces_two (a b : string) :
  joinWithSpaces [a; b] = " " ++ a ++ " " ++ b.
Proof. reflexivity. Qed.

Lemma Mnemonic_to_string_upper (m : Mnemonic.t) :
  string_forallb is_upper_or_digit (Mnemonic.to_string m) = true
  /\ Mnemonic.to_string m <> "".
Proof. destruct m; split; (reflexivity || discriminate). Qed.

(** ** Stages that can be run by rewriting *)

Lemma selectMnemonic_wildcard_only (E : Externals) (m : Mnemonic.t) (b : Z) :
  selectMnemonic E [(-1, m)] b = m.
Proof.
  unfold selectMnemonic, reg2mnem_index. cbn [find].
  destruct (b >=? 0); [|reflexivity].
  destruct (getRegVal E b =? -1); reflexivity.
Qed.

Lemma eatOpecode_single (E : Externals) (st : State) (b : Z) :
  byteAt st (curIdx st) = Ok b ->
  inSet b (TWO_BYTES_OPCODE_PREFIX E) = false ->
  eatOpecode E st
  = Ok (st |> set_opcodeByte b |> set_instructionLen (instructionLen st + 1)
           |> set_curIdx (curIdx st + 1)).
Proof.
  intros Hb Hs. unfold eatOpecode. rewrite Hb. cbn [bind].
  cbn [opcodeByte set_curIdx set_instructionLen set_opcodeByte].
  rewrite Hs. reflexivity.
Qed.

Lemma lookupOpcode_hit (E : Externals) (st : State) (r : Reg2Mnem) :
  find op_key_eqb (prefix st, opcodeByte st) (OP_LOOKUP E) = Some r ->
  lookupOpcode E st = Ok (r, st).
Proof. intros H. unfold lookupOpcode. rewrite H. reflexivity. Qed.

Lemma lookupOperands_hit (E : Externals) (st : State) (row : OperandRow) :
  find operand_key_eqb (prefix st, mnemonic st, opcodeByte st)
    (OPERAND_LOOKUP E) = Some row ->
  lookupOperands E st
  = Ok (st |> set_assemblyInstruction
                (assemblyInstruction st ++ [Mnemonic.to_string (mnemonic st)])%list
           |> set_opEnc (fst (fst row)) |> set_remOps (snd (fst row))
           |> set_operands (snd row)).
Proof.
  intros H. unfold lookupOperands.
  cbn [prefix mnemonic opcodeByte set_assemblyInstruction].
  rewrite H. destruct row as [[openc rem] ops]. reflexivity.
Qed.

(** ** The truth table of [hasModrm] *)

(** C7: the presence of ModR/M depends on the operand-encoding tag alone:
    every tag is either one of M, MI, M1, MR, RM, RMI, where [hasModrm]
    answers true, or one of I, D, O, NP, OI, where it answers false. *)
Theorem hasModrm_truth_table (openc : OpEnc.t) :
  (hasModrm openc = true
   /\ In openc [OpEnc.M; OpEnc.MI; OpEnc.M1; OpEnc.MR; OpEnc.RM; OpEnc.RMI])
  \/ (hasModrm openc = false
      /\ In openc [OpEnc.I; OpEnc.D; OpEnc.O; OpEnc.NP; OpEnc.OI]).
Proof.
  destruct openc; cbn; intuition.
Qed.

(** ** The scenario B8 44 33 22 11 *)

(** C1: with a table row that makes B8 the opcode of MOV with the encoding
    OI, an embedded 32-bit register 0 named eax and a 32-bit immediate,
    decoding B8 44 33 22 11 at offset 0 returns length 5, the mnemonic MOV
    and the text [ MOV  eax 0x11223344]: one space, the mnemonic, two
    spaces, the register, the immediate read little-endian and written as
    0x and eight hexadecimal digits. *)
Theorem decode_mov_eax_imm32 (E : Externals) (st : State)
    (Hbuf : objectSource st = [xb8; x44; x33; x22; x11])
    (Htwo : inSet 0xB8 (TWO_BYTES_OPCODE_PREFIX E) = false)
    (Hop : find op_key_eqb (Prefix.NONE, 0xB8) (OP_LOOKUP E)
           = Some [(-1, Mnemonic.MOV)])
    (Hrow : find operand_key_eqb (Prefix.NONE, Mnemonic.MOV, 0xB8)
              (OPERAND_LOOKUP E)
            = Some (OpEnc.OI, ["0"], [Operand.reg; Operand.imm32]))
    (Hreg : isA_REG E Operand.reg = false /\ isREG E Operand.reg = true
            /\ is8Bit E Operand.reg = false /\ is16Bit E Operand.reg = false
            /\ is32Bit E Operand.reg = true)
    (Heax : vector_at (REGISTERS32 E) 0 = Ok "eax")
    (Himm : isA_REG E Operand.imm32 = false /\ isRM E Operand.imm32 = false
            /\ isREG E Operand.imm32 = false /\ isIMM E Operand.imm32 = true) :
  exists d,
    decodeSingleInstruction E st 0 = Ok d
    /\ result d = (0, 5, "MOV", " MOV  eax 0x11223344").
Proof.
  destruct Hreg as (Hr1 & Hr2 & Hr3 & Hr4 & Hr5).
  destruct Himm as (Hi1 & Hi2 & Hi3 & Hi4).
  destruct st; simpl in Hbuf; subst.
  unfold decodeSingleInstruction.
  match goal with |- context [parsePrefixInstructions ?s] => set (s0 := s) end.
  change (parsePrefixInstructions s0) with (Ok s0). cbn [bind].
  change (parsePrefix s0) with (Ok s0). cbn [bind].
  change (parseREX E s0) with (Ok s0). cbn [bind].
  unfold parseOpecode, resolveOpecode.
  rewrite (eatOpecode_single E s0 0xB8) by (reflexivity || exact Htwo).
  cbn [bind].
  erewrite lookupOpcode_hit by exact Hop. cbn [bind].
  rewrite selectMnemonic_wildcard_only.
  erewrite lookupOperands_hit by exact Hrow. cbn [bind fst snd].
  match goal with |- context [parseModRM E ?s] => set (s1 := s) end.
  change (parseModRM E s1) with (Ok s1). cbn [bind].
  change (parseSIB E s1) with (Ok s1). cbn [bind].
  change (parseAddressOffset s1) with (Ok s1). cbn [bind].
  change (operands s1) with [Operand.reg; Operand.imm32].
  cbn [processOperands].
  unfold processOperand at 1. rewrite Hr1, Hr2, Bool.orb_true_r.
  change (hasModrm (opEnc s1)) with false. cbv iota.
  unfold embeddedRegister. rewrite Hr3, Hr4, Hr5.
  change (remOps0 s1) with (Ok "0"). cbn [bind].
  change (stoi "0") with (Ok 0). cbn [bind]. rewrite Heax. cbn [bind].
  rewrite Bool.andb_false_r. cbn [andb bind].
  match goal with |- context [processOperand E ?s] => set (s2 := s) end.
  unfold processOperand. rewrite Hi1, Hi2, Hi3, Hi4. cbn [orb].
  eexists. split; reflexivity.
Qed.

Lemma decode_mov_eax_imm32_witness :
  exists d,
    decodeSingleInstruction Spec.externals
      (State_new [xb8; x44; x33; x22; x11]) 0 = Ok d
    /\ result d = (0, 5, "MOV", " MOV  eax 0x11223344").
Proof.
  apply decode_mov_eax_imm32; repeat split; run.
Defined.

(** ** The shape of the text *)

(** C9: the text of a decode that returns is one space, the mnemonic in
    capitals (letters and digits, not empty), one space and the operands,
    each after a space; when the operand template is empty the text ends
    with the space that follows the mnemonic, as in [ NOP ]. *)
Theorem text_is_space_mnemonic_space_operands (E : Externals) (st : State)
    (startIdx : Z) (d : Decoded) :
  decodeSingleInstruction E st startIdx = Ok d ->
  mnemonic_of d = Mnemonic.to_string (mnemonic (final d))
  /\ text_of d
     = " " ++ mnemonic_of d ++ " "
       ++ joinWithSpaces (assemblyOperands (final d))
  /\ string_forallb is_upper_or_digit (mnemonic_of d) = true
  /\ mnemonic_of d <> ""
  /\ (operands (final d) = [] -> text_of d = " " ++ mnemonic_of d ++ " ").
Proof.
  intros H.
  destruct (decodeSingleInstruction_summary _ _ _ _ H)
    as (s8 & vs & _ & _ & Ha & Hv & Hl & Hr & Hf).
  unfold mnemonic_of, text_of. rewrite Hr, Hf. cbn [fst snd].
  rewrite Ha. cbn [app]. rewrite joinWithSpaces_two.
  destruct (Mnemonic_to_string_upper (mnemonic s8)) as [Hu Hn].
  cbn. repeat split; try assumption.
  intros Hops. rewrite Hops in Hl. rewrite Hv.
  destruct vs; [reflexivity | discriminate].
Qed.

Lemma text_is_space_mnemonic_space_operands_witness :
  exists d,
    decodeSingleInstruction Spec.externals (State_new [x90]) 0 = Ok d
    /\ text_of d = " NOP ".
Proof.
  eexists. split; [run|].
  refine (proj2 (proj2 (proj2 (proj2
            (text_is_space_mnemonic_space_operands Spec.externals
               (State_new [x90]) 0 _ _)))) _);
    [run | run].
Defined.

(** ** The length counter *)

(** C6: in a decode that returns, the length counter equals the distance
    the cursor has moved from the start offset, every stage advancing both
    by the same amount (the byte peeked after the opcode moves neither);
    the reported length is that counter converted to [int], hence the
    number of bytes consumed as long as it is below 2^31. *)
Theorem length_is_bytes_consumed (E : Externals) (st : State) (startIdx : Z)
    (d : Decoded) :
  decodeSingleInstruction E st startIdx = Ok d ->
  instructionLen (final d) = curIdx (final d) - size_t_of_int startIdx
  /\ 0 <= instructionLen (final d)
  /\ length_of d = int_of_size_t (instructionLen (final d))
  /\ (instructionLen (final d) < 2 ^ 31 ->
      length_of d = curIdx (final d) - size_t_of_int startIdx).
Proof.
  intros H.
  destruct (decodeSingleInstruction_summary _ _ _ _ H)
    as (s8 & vs & Hc & H0 & _ & _ & _ & Hr & Hf).
  unfold length_of. rewrite Hr, Hf. cbn.
  repeat split; try lia.
  intros Hlt. unfold int_of_size_t.
  rewrite Z.mod_small by lia. lia.
Qed.

Lemma length_is_bytes_consumed_witness :
  exists d,
    decodeSingleInstruction Spec.externals
      (State_new [xb8; x44; x33; x22; x11]) 0 = Ok d
    /\ length_of d = 5
    /\ length_of d = curIdx (final d) - size_t_of_int 0.
Proof.
  eexists. split; [run|]. split; [run|].
  refine (proj2 (proj2 (proj2
            (length_is_bytes_consumed Spec.externals
               (State_new [xb8; x44; x33; x22; x11]) 0 _ _))) _);
    [run | run].
Defined.

(** ** The escape byte 0x0F *)

Lemma byteAt_is_byte (st : State) (i b : Z) :
  byteAt st i = Ok b -> exists x : byte, b = Z.of_N (Byte.to_N x).
Proof.
  unfold byteAt. destruct ((0 <=? i) && (i <? size st)); [|discriminate].
  intros H. injection H as <-. eauto.
Qed.

Lemma escape_plus_is_lor (x : byte) :
  Z.shiftl 0x0F 8 + Z.of_N (Byte.to_N x)
  = Z.lor (Z.shiftl 0x0F 8) (Z.of_N (Byte.to_N x)).
Proof. destruct x; reflexivity. Qed.

(** C2, as the code has it: a byte 0x0F under the cursor of the prefix
    scanner is eaten there and kept as the prefix-instruction byte; the
    opcode resolver, when the byte under its cursor is 0x0F (a member of
    [TWO_BYTES_OPCODE_PREFIX]) and another byte follows, eats both and
    looks the tables up with the opcode (0x0F << 8) | second. *)
Theorem escape_byte_in_both_stages (E : Externals) (st : State)
    (Hfirst : byteAt st (curIdx st) = Ok 0x0F) :
  (exists st',
     parsePrefixInstructions st = Ok st'
     /\ consumed st st' = 1
     /\ instructionLen st' = instructionLen st + 1
     /\ prefixInstructionByte st' = 0x0F)
  /\ (forall second,
        inSet 0x0F (TWO_BYTES_OPCODE_PREFIX E) = true ->
        byteAt st (curIdx st + 1) = Ok second ->
        exists st',
          eatOpecode E st = Ok st'
          /\ consumed st st' = 2
          /\ instructionLen st' = instructionLen st + 2
          /\ opcodeByte st' = Z.lor (Z.shiftl 0x0F 8) second
          /\ parseOpecode E st = resolveOpecode E st').
Proof.
  split.
  - unfold parsePrefixInstructions. rewrite Hfirst. cbn [bind].
    change (inSet 15 PREFIX_INSTRUCTIONS_BYTES_SET) with true. cbv iota.
    eexists. split; [reflexivity|]. unfold consumed. cbn.
    repeat split; lia.
  - intros second Htwo Hsecond.
    destruct (byteAt_is_byte _ _ _ Hsecond) as [x ->].
    assert (Heat : eatOpecode E st
                   = Ok (st |> set_opcodeByte 0x0F
                            |> set_instructionLen (instructionLen st + 1)
                            |> set_curIdx (curIdx st + 1)
                            |> set_opcodeByte
                                 (Z.shiftl 0x0F 8 + Z.of_N (Byte.to_N x))
                            |> set_instructionLen (instructionLen st + 1 + 1)
                            |> set_curIdx (curIdx st + 1 + 1))).
    { unfold eatOpecode. rewrite Hfirst. cbn [bind].
      cbn [opcodeByte set_curIdx set_instructionLen set_opcodeByte curIdx
           instructionLen].
      rewrite Htwo.
      replace (byteAt _ (curIdx st + 1)) with (byteAt st (curIdx st + 1))
        by reflexivity.
      rewrite Hsecond. reflexivity. }
    eexists. split; [exact Heat|].
    split; [unfold consumed; cbn [curIdx set_curIdx]; lia|].
    split; [cbn [instructionLen set_curIdx set_instructionLen]; lia|].
    split.
    + cbn [opcodeByte set_curIdx set_instructionLen set_opcodeByte].
      apply escape_plus_is_lor.
    + unfold parseOpecode. rewrite Heat. reflexivity.
Qed.

Lemma escape_byte_in_both_stages_witness :
  let st := set_curIdx 0 (init (State_new [x0f; xaf; xc1])) in
  (exists st',
     parsePrefixInstructions st = Ok st'
     /\ consumed st st' = 1
     /\ instructionLen st' = instructionLen st + 1
     /\ prefixInstructionByte st' = 0x0F)
  /\ (exists st',
        eatOpecode Spec.externals st = Ok st'
        /\ consumed st st' = 2
        /\ instructionLen st' = instructionLen st + 2
        /\ opcodeByte st' = Z.lor (Z.shiftl 0x0F 8) 0xAF
        /\ parseOpecode Spec.externals st = resolveOpecode Spec.externals st').
Proof.
  intros st.
  assert (Hfirst : byteAt st (curIdx st) = Ok 0x0F) by run.
  destruct (escape_byte_in_both_stages Spec.externals st Hfirst) as [H1 H2].
  split; [exact H1|].
  apply (H2 0xAF); run.
Defined.

(** C2, as stated, fails on 0F AF C1: the prefix scanner eats the byte
    0x0F, and the opcode resolver that runs after it reads the one-byte
    opcode 0xAF, not (0x0F << 8) | 0xAF. *)
Lemma escape_byte_eaten_by_prefix_scanner :
  let s0 := set_curIdx 0 (init (State_new [x0f; xaf; xc1])) in
  exists s1 s2 s3 s4,
    parsePrefixInstructions s0 = Ok s1
    /\ parsePrefix s1 = Ok s2
    /\ parseREX Spec.externals s2 = Ok s3
    /\ eatOpecode Spec.externals s3 = Ok s4
    /\ consumed s0 s1 = 1
    /\ prefixInstructionByte s1 = 0x0F
    /\ opcodeByte s4 = 0xAF
    /\ opcodeByte s4 <> Z.lor (Z.shiftl 0x0F 8) 0xAF
    /\ observable (decode Spec.externals [x0f; xaf; xc1] 0)
       = Err (UnknownOpcode Prefix.NONE 0xAF).
Proof.
  cbv zeta. do 4 eexists.
  split; [run|]. split; [run|]. split; [run|]. split; [run|].
  repeat split; run.
Qed.

(** ** The fallback of the opcode lookup *)

(** C3, as the code has it: a key missing from [OP_LOOKUP] is retried
    once: the class REXW with the class REX, the class REX with the class
    NONE, the class found being kept; the classes NONE and P66 are not
    retried; any other miss is an unknown opcode, and so is a REXW key
    whose REX retry misses, whatever the table holds for NONE. *)
Theorem lookupOpcode_retries_once (E : Externals) (st : State) :
  let row p := find op_key_eqb (p, opcodeByte st) (OP_LOOKUP E) in
  (forall r, row (prefix st) = Some r -> lookupOpcode E st = Ok (r, st))
  /\ (forall r,
        prefix st = Prefix.REXW -> row Prefix.REXW = None ->
        row Prefix.REX = Some r ->
        lookupOpcode E st = Ok (r, set_prefix Prefix.REX st))
  /\ (forall r,
        prefix st = Prefix.REX -> row Prefix.REX = None ->
        row Prefix.NONE = Some r ->
        lookupOpcode E st = Ok (r, set_prefix Prefix.NONE st))
  /\ (prefix st = Prefix.REXW -> row Prefix.REXW = None ->
      row Prefix.REX = None ->
      lookupOpcode E st = Err (UnknownOpcode Prefix.REXW (opcodeByte st)))
  /\ (prefix st = Prefix.REX -> row Prefix.REX = None ->
      row Prefix.NONE = None ->
      lookupOpcode E st = Err (UnknownOpcode Prefix.REX (opcodeByte st)))
  /\ (prefix st = Prefix.NONE \/ prefix st = Prefix.P66 ->
      row (prefix st) = None ->
      lookupOpcode E st = Err (UnknownOpcode (prefix st) (opcodeByte st))).
Proof.
  cbv zeta. unfold lookupOpcode. repeat split.
  - intros r ->. reflexivity.
  - intros r Hp. rewrite Hp. intros -> ->. reflexivity.
  - intros r Hp. rewrite Hp. intros -> ->. reflexivity.
  - intros Hp. rewrite Hp. intros -> ->. reflexivity.
  - intros Hp. rewrite Hp. intros -> ->. reflexivity.
  - intros [Hp | Hp]; rewrite Hp; intros ->; reflexivity.
Qed.

Lemma lookupOpcode_retries_once_witness :
  let resolved p op :=
    State_new [] |> init |> set_prefix p |> set_opcodeByte op in
  lookupOpcode Spec.externals (resolved Prefix.REX 0x90)
  = Ok ([(-1, Mnemonic.NOP)], set_prefix Prefix.NONE (resolved Prefix.REX 0x90))
  /\ lookupOpcode Spec.externals (resolved Prefix.REXW 0x90)
     = Err (UnknownOpcode Prefix.REXW 0x90)
  /\ lookupOpcode Spec.externals (resolved Prefix.P66 0x90)
     = Err (UnknownOpcode Prefix.P66 0x90).
Proof.
  intros resolved. split; [|split].
  - apply (proj1 (proj2 (proj2
             (lookupOpcode_retries_once Spec.externals
                (resolved Prefix.REX 0x90))))); run.
  - apply (proj1 (proj2 (proj2 (proj2
             (lookupOpcode_retries_once Spec.externals
                (resolved Prefix.REXW 0x90)))))); run.
  - apply (proj2 (proj2 (proj2 (proj2 (proj2
             (lookupOpcode_retries_once Spec.externals
                (resolved Prefix.P66 0x90))))))); [right|]; run.
Defined.

(** C3, as stated, fails on 48 90: the class is REXW, the table has a row
    for (NONE, 0x90) and none for (REXW, 0x90) or (REX, 0x90), and the
    lookup reports an unknown opcode. *)
Lemma rexw_miss_never_reaches_the_NONE_row :
  let st := State_new [x48; x90] |> init |> set_prefix Prefix.REXW
                                 |> set_opcodeByte 0x90 in
  find op_key_eqb (Prefix.NONE, 0x90) (OP_LOOKUP Spec.externals)
  = Some [(-1, Mnemonic.NOP)]
  /\ lookupOpcode Spec.externals st = Err (UnknownOpcode Prefix.REXW 0x90)
  /\ observable (decode Spec.externals [x48; x90] 0)
     = Err (UnknownOpcode Prefix.REXW 0x90).
Proof. cbv zeta. repeat split; run. Qed.

(** ** A row without the wildcard *)

(** C10: when the row found has neither the key of the [reg] field of the
    peeked byte nor the wildcard key -1, choosing the mnemonic raises
    nothing: [operator[]] answers the value-initialised enumerator, MOV
    (the enumerator of value 0), and the resolver goes on to the operand
    template of MOV, returning with the mnemonic MOV when
    [OPERAND_LOOKUP] has one. *)
Theorem missing_wildcard_yields_MOV (E : Externals) (st : State)
    (reg2mnem : Reg2Mnem) (st1 : State)
    (Hrow : lookupOpcode E st = Ok (reg2mnem, st1))
    (Hwild : find Z.eqb (-1) reg2mnem = None)
    (Hreg : find Z.eqb (getRegVal E (modrmByte (peekModRM st1))) reg2mnem
            = None) :
  selectMnemonic E reg2mnem (modrmByte (peekModRM st1)) = Mnemonic.MOV
  /\ Mnemonic.value Mnemonic.MOV = 0
  /\ resolveOpecode E st
     = lookupOperands E (set_mnemonic Mnemonic.MOV (peekModRM st1))
  /\ (forall row,
        find operand_key_eqb (prefix st1, Mnemonic.MOV, opcodeByte st1)
          (OPERAND_LOOKUP E) = Some row ->
        exists st', resolveOpecode E st = Ok st'
                    /\ mnemonic st' = Mnemonic.MOV
                    /\ assemblyInstruction st'
                       = (assemblyInstruction st1 ++ ["MOV"])%list).
Proof.
  assert (Hsel : selectMnemonic E reg2mnem (modrmByte (peekModRM st1))
                 = Mnemonic.MOV).
  { unfold selectMnemonic, reg2mnem_index. rewrite Hreg, Hwild.
    destruct (_ >=? 0); reflexivity. }
  assert (Hres : resolveOpecode E st
                 = lookupOperands E (set_mnemonic Mnemonic.MOV (peekModRM st1))).
  { unfold resolveOpecode. rewrite Hrow. cbn [bind]. rewrite Hsel.
    reflexivity. }
  repeat split; try assumption.
  intros row Hfind. rewrite Hres.
  destruct (peekModRM_frame st1) as [_ [_ _ Ha _]].
  erewrite lookupOperands_hit.
  - eexists. split; [reflexivity|]. cbn. rewrite Ha. split; reflexivity.
  - destruct (peekModRM_cases st1) as [-> | [_ ->]]; exact Hfind.
Qed.

Lemma missing_wildcard_yields_MOV_witness :
  let st := State_new [xc7; xc8; x44; x33; x22; x11]
            |> init |> set_opcodeByte 0xC7 |> set_curIdx 1 in
  getRegVal Spec.externals 0xC8 = 1
  /\ selectMnemonic Spec.externals [(0, Mnemonic.MOV)]
       (modrmByte (peekModRM st)) = Mnemonic.MOV
  /\ (exists st', resolveOpecode Spec.externals st = Ok st'
                  /\ mnemonic st' = Mnemonic.MOV
                  /\ assemblyInstruction st'
                     = (assemblyInstruction st ++ ["MOV"])%list)
  /\ observable
       (decode Spec.externals [xc7; xc8; x44; x33; x22; x11] 0)
     = Ok (0, 6, "MOV", " MOV  eax 0x11223344",
           "0 6  MOV  eax 0x11223344" ++ newline).
Proof.
  intros st.
  assert (Hrow : lookupOpcode Spec.externals st = Ok ([(0, Mnemonic.MOV)], st))
    by run.
  assert (Hwild : find Z.eqb (-1) [(0, Mnemonic.MOV)] = None) by run.
  assert (Hreg : find Z.eqb
                   (getRegVal Spec.externals (modrmByte (peekModRM st)))
                   [(0, Mnemonic.MOV)] = None) by run.
  pose proof (missing_wildcard_yields_MOV Spec.externals st
                [(0, Mnemonic.MOV)] st Hrow Hwild Hreg)
    as (Hsel & _ & _ & Hops).
  split; [run|]. split; [exact Hsel|].
  split; [|run].
  apply (Hops (OpEnc.MI, [], [Operand.rm; Operand.imm32])). run.
Defined.

(** ** The displacement reader *)

Lemma byteAt_in_bounds (st : State) (i : Z) :
  0 <= i -> i < size st -> byteAt st i = Ok (byteValue st i).
Proof.
  intros H0 H1. unfold byteAt, byteValue.
  replace (0 <=? i) with true by lia. replace (i <? size st) with true by lia.
  reflexivity.
Qed.

Lemma firstn_4_skipn {A : Type} (d : A) (l : list A) :
  forall n : nat,
    (n + 4 <= List.length l)%nat ->
    firstn 4 (skipn n l)
    = [nth n l d; nth (n + 1) l d; nth (n + 2) l d; nth (n + 3) l d].
Proof.
  induction l as [|a l IH]; intros n Hn; cbn [List.length] in Hn.
  - lia.
  - destruct n as [|n].
    + destruct l as [|b [|c [|e l]]]; cbn [List.length] in Hn; try lia.
      reflexivity.
    + cbn [skipn Nat.add nth]. apply IH. lia.
Qed.

Lemma bytesAt_4_in_bounds (st : State) (i : Z) :
  0 <= i -> i + 4 <= size st ->
  bytesAt st i 4
  = Ok [byteValue st i; byteValue st (i + 1); byteValue st (i + 2);
        byteValue st (i + 3)].
Proof.
  intros H0 H1. unfold bytesAt, byteValue, size in *.
  replace (0 <=? i) with true by lia.
  replace (i + 4 <=? _) with true by lia.
  cbn [andb]. change (Z.to_nat 4) with 4%nat.
  rewrite (firstn_4_skipn x00) by lia.
  replace (Z.to_nat (i + 1)) with (Z.to_nat i + 1)%nat by lia.
  replace (Z.to_nat (i + 2)) with (Z.to_nat i + 2)%nat by lia.
  replace (Z.to_nat (i + 3)) with (Z.to_nat i + 3)%nat by lia.
  reflexivity.
Qed.

Lemma dec_string_of_byte (x : byte) :
  let s := dec_string (Z.of_N (Byte.to_N x)) in
  string_forallb is_digit s = true /\ s <> "".
Proof. destruct x; split; (reflexivity || discriminate). Qed.

Lemma hex_digit_hi (x : byte) :
  is_hex_digit (hex_digit (Z.of_N (Byte.to_N x) / 16)) = true.
Proof. destruct x; reflexivity. Qed.

Lemma hex_digit_lo (x : byte) :
  is_hex_digit (hex_digit (Z.of_N (Byte.to_N x) mod 16)) = true.
Proof. destruct x; reflexivity. Qed.

Lemma disp32_text_shape (x3 x2 x1 x0 : byte) :
  let B x := Z.of_N (Byte.to_N x) in
  let s := "0x" ++ hex2 (B x3) ++ hex2 (B x2) ++ hex2 (B x1) ++ hex2 (B x0) in
  String.length s = 10%nat
  /\ string_forallb is_hex_digit (substring 2 8 s) = true.
Proof.
  cbv zeta. unfold hex2.
  cbn [append substring String.length string_forallb].
  rewrite !hex_digit_hi, !hex_digit_lo. split; reflexivity.
Qed.

Lemma hex_of_bytes_4 (a b c e : Z) :
  hex_of_bytes [a; b; c; e] = "0x" ++ hex2 a ++ hex2 b ++ hex2 c ++ hex2 e.
Proof. reflexivity. Qed.

(** C8: when the first condition of [parseAddressOffset] holds and a byte
    is left, exactly that byte is consumed and [disp8] is its value written
    as an unsigned decimal number; when the second condition holds and four
    bytes are left, exactly these four are consumed and [disp32] is 0x
    followed by eight hexadecimal digits, two per byte, the bytes taken in
    the reverse of their order in the buffer (the value they encode
    little-endian, most significant byte first). *)
Theorem displacement_reader (st : State)
    (Hcur : 0 <= curIdx st) :
  parseAddressOffset st = (st <- readDisp8 st ;; readDisp32 st)
  /\ (wantsDisp8 st = true -> curIdx st + 1 <= size st ->
      exists st',
        readDisp8 st = Ok st'
        /\ consumed st st' = 1
        /\ instructionLen st' = instructionLen st + 1
        /\ hasDisp8 st' = true
        /\ disp8 st' = dec_string (byteValue st (curIdx st))
        /\ string_forallb is_digit (disp8 st') = true
        /\ disp8 st' <> "")
  /\ (wantsDisp32 st = true -> curIdx st + 4 <= size st ->
      exists st',
        readDisp32 st = Ok st'
        /\ consumed st st' = 4
        /\ instructionLen st' = instructionLen st + 4
        /\ hasDisp32 st' = true
        /\ disp32 st'
           = "0x" ++ hex2 (byteValue st (curIdx st + 3))
                  ++ hex2 (byteValue st (curIdx st + 2))
                  ++ hex2 (byteValue st (curIdx st + 1))
                  ++ hex2 (byteValue st (curIdx st))
        /\ String.length (disp32 st') = 10%nat
        /\ string_forallb is_hex_digit
             (substring 2 8 (disp32 st')) = true).
Proof.
  split; [reflexivity|]. split.
  - intros Hw Hb. unfold readDisp8. rewrite Hw.
    rewrite byteAt_in_bounds by lia. cbn [bind].
    eexists. split; [reflexivity|]. unfold consumed. cbn.
    destruct (dec_string_of_byte
                (nth (Z.to_nat (curIdx st)) (objectSource st) x00))
      as [Hd Hn].
    repeat split; try lia; assumption.
  - intros Hw Hb. unfold readDisp32. rewrite Hw.
    rewrite bytesAt_4_in_bounds by lia. cbn [bind].
    eexists. split; [reflexivity|]. unfold consumed.
    cbn [curIdx instructionLen hasDisp32 disp32 set_curIdx
         set_instructionLen set_hasDisp32 set_disp32 rev app].
    rewrite hex_of_bytes_4.
    unfold byteValue.
    destruct (disp32_text_shape
                (nth (Z.to_nat (curIdx st + 3)) (objectSource st) x00)
                (nth (Z.to_nat (curIdx st + 2)) (objectSource st) x00)
                (nth (Z.to_nat (curIdx st + 1)) (objectSource st) x00)
                (nth (Z.to_nat (curIdx st)) (objectSource st) x00))
      as [Hlen Hhex].
    repeat split; try lia; assumption.
Qed.

Lemma displacement_reader_witness :
  let at_disp bs :=
    State_new bs |> init |> set_opEnc OpEnc.RM |> set_curIdx 2
                 |> set_modrm (Spec.ModRM_new (byteValue (State_new bs) 1)
                                 (rex (State_new bs))) in
  (exists st',
     readDisp8 (at_disp [x8b; x48; x01]) = Ok st'
     /\ consumed (at_disp [x8b; x48; x01]) st' = 1
     /\ disp8 st' = "1")
  /\ (exists st',
        readDisp32 (at_disp [x8b; x88; x00; x01; x00; x00]) = Ok st'
        /\ consumed (at_disp [x8b; x88; x00; x01; x00; x00]) st' = 4
        /\ disp32 st' = "0x00000100").
Proof.
  intros at_disp. split.
  - assert (H0 : 0 <= curIdx (at_disp [x8b; x48; x01])) by (cbn; lia).
    destruct (displacement_reader (at_disp [x8b; x48; x01]) H0)
      as (_ & H8 & _).
    destruct H8 as (st' & Hr & Hc & _ & _ & Hd & _);
      [reflexivity | cbn; lia |].
    exists st'. repeat split; assumption.
  - assert (H0 : 0 <= curIdx (at_disp [x8b; x88; x00; x01; x00; x00]))
      by (cbn; lia).
    destruct (displacement_reader
                (at_disp [x8b; x88; x00; x01; x00; x00]) H0)
      as (_ & _ & H32).
    destruct H32 as (st' & Hr & Hc & _ & _ & Hd & _);
      [reflexivity | cbn; lia |].
    exists st'. repeat split; assumption.
Defined.

(** ** Truncated buffers *)

(** C4 fails on the code: only the ModR/M and SIB stages look at the size
    of the buffer before they read.  A REX byte alone, an operand-size
    prefix alone and a prefix-instruction byte alone make the next stage
    read the byte after the end of the buffer, whatever the tables are;
    with the sample tables, so do a ModR/M byte that asks for an 8-bit
    displacement and an opcode that asks for an immediate.  A missing
    ModR/M or SIB byte is reported by an exception, and an opcode with a
    /digit row and no ModR/M byte as an unknown operand form of MOV. *)
Theorem truncated_buffer_is_read_past_its_end (E : Externals) :
  observable (decode E [x48] 0) = Err (OutOfBoundsRead 1)
  /\ observable (decode E [x66] 0) = Err (OutOfBoundsRead 1)
  /\ observable (decode E [xf3] 0) = Err (OutOfBoundsRead 1)
  /\ observable (decode E [] 0) = Err (OutOfBoundsRead 0)
  /\ observable (decode Spec.externals [x8b; x48] 0) = Err (OutOfBoundsRead 2)
  /\ observable (decode Spec.externals [x8b; x88; x00; x01] 0)
     = Err (OutOfBoundsRead 5)
  /\ observable (decode Spec.externals [xb8; x44; x33] 0)
     = Err (OutOfBoundsRead 4)
  /\ observable (decode Spec.externals [x8b] 0) = Err ExpectedModRM
  /\ observable (decode Spec.externals [x8b; x04] 0) = Err ExpectedSIB
  /\ observable (decode Spec.externals [x83] 0)
     = Err (UnknownOperandForm Prefix.NONE Mnemonic.MOV 0x83).
Proof.
  split; [|repeat split].
  unfold decode, decodeSingleInstruction.
  match goal with |- context [parsePrefixInstructions ?s] => set (s0 := s) end.
  change (parsePrefixInstructions s0) with (Ok s0). cbn [bind].
  change (parsePrefix s0) with (Ok s0). cbn [bind].
  unfold parseREX. change (byteAt s0 (curIdx s0)) with (Ok 0x48).
  cbn [bind]. change (Z.shiftr 72 4 =? 4) with true. cbv iota zeta.
  destruct (REX.rexW _); reflexivity.
Qed.

(** ** What a call depends on *)

Lemma agree_bind {A B : Type} (R : A -> A -> Prop) (R' : B -> B -> Prop)
    (r1 r2 : Result A) (f1 f2 : A -> Result B) :
  agree R r1 r2 ->
  (forall a1 a2, R a1 a2 -> agree R' (f1 a1) (f2 a2)) ->
  agree R' (bind r1 f1) (bind r2 f2).
Proof.
  destruct r1, r2; cbn; intros H Hf; auto; contradiction.
Qed.

Lemma init_same_scanned (st1 st2 : State) (c : Z) :
  objectSource st1 = objectSource st2 ->
  rex st1 = rex st2 -> disp8 st1 = disp8 st2 -> disp32 st1 = disp32 st2 ->
  same_scanned (set_curIdx c (init st1)) (set_curIdx c (init st2)).
Proof.
  intros H1 H2 H3 H4. destruct st1, st2. cbn in H1, H2, H3, H4. subst.
  reflexivity.
Qed.

Lemma parsePrefixInstructions_same (st1 st2 : State) :
  same_scanned st1 st2 ->
  agree same_scanned (parsePrefixInstructions st1) (parsePrefixInstructions st2).
Proof.
  intros H. same_fields H.
  unfold parsePrefixInstructions, byteAt, size. same_branches; reflexivity.
Qed.

Lemma parsePrefix_same (st1 st2 : State) :
  same_scanned st1 st2 ->
  agree same_scanned (parsePrefix st1) (parsePrefix st2).
Proof.
  intros H. same_fields H.
  unfold parsePrefix, byteAt, size. same_branches; reflexivity.
Qed.

Lemma parseREX_same (E : Externals) (st1 st2 : State) :
  same_scanned st1 st2 ->
  agree same_scanned (parseREX E st1) (parseREX E st2).
Proof.
  intros H. same_fields H.
  unfold parseREX, byteAt, size. same_branches; reflexivity.
Qed.

Lemma eatOpecode_same (E : Externals) (st1 st2 : State) :
  same_scanned st1 st2 ->
  agree same_scanned (eatOpecode E st1) (eatOpecode E st2).
Proof.
  intros H. same_fields H.
  unfold eatOpecode, byteAt, size. same_branches; reflexivity.
Qed.

Lemma lookupOpcode_same (E : Externals) (st1 st2 : State) :
  same_scanned st1 st2 ->
  agree same_row (lookupOpcode E st1) (lookupOpcode E st2).
Proof.
  intros H. same_fields H.
  unfold lookupOpcode. same_branches; try reflexivity; split; reflexivity.
Qed.

Lemma peekModRM_same (st1 st2 : State) :
  same_scanned st1 st2 ->
  same_scanned (peekModRM st1) (peekModRM st2)
  /\ modrmByte (peekModRM st1) = modrmByte (peekModRM st2).
Proof.
  intros H. same_fields H.
  unfold peekModRM, byteAt, size. same_branches; split; reflexivity.
Qed.

Lemma lookupOperands_same (E : Externals) (m : Mnemonic.t) (st1 st2 : State) :
  same_scanned st1 st2 ->
  agree same_resolved
    (lookupOperands E (set_mnemonic m st1))
    (lookupOperands E (set_mnemonic m st2)).
Proof.
  intros H. same_fields H.
  unfold lookupOperands. same_branches; reflexivity.
Qed.

Lemma parseOpecode_same (E : Externals) (st1 st2 : State) :
  same_scanned st1 st2 ->
  agree same_resolved (parseOpecode E st1) (parseOpecode E st2).
Proof.
  intros H. unfold parseOpecode, resolveOpecode.
  eapply agree_bind; [apply eatOpecode_same, H|].
  clear st1 st2 H. intros st1 st2 H.
  eapply agree_bind; [apply lookupOpcode_same, H|].
  intros [r1 a1] [r2 a2] [Hr Ha]. cbn [fst snd] in Hr, Ha. subst r2.
  destruct (peekModRM_same _ _ Ha) as [Hp Hb]. rewrite Hb.
  apply lookupOperands_same, Hp.
Qed.

Lemma parseModRM_same (E : Externals) (st1 st2 : State) :
  same_resolved st1 st2 ->
  agree same_modrm (parseModRM E st1) (parseModRM E st2).
Proof.
  intros H. same_fields H.
  unfold parseModRM, same_modrm, same_resolved, forget_modrm_sib.
  same_branches; try reflexivity;
    (split; [reflexivity | intros; first [reflexivity | congruence]]).
Qed.

Lemma parseSIB_same (E : Externals) (st1 st2 : State) :
  same_modrm st1 st2 ->
  agree same_decoded (parseSIB E st1) (parseSIB E st2).
Proof.
  intros [H Hm]. same_fields H. cbn [opEnc modrm] in Hm.
  unfold parseSIB, byteAt, size. fields.
  match type of Hm with
  | hasModrm ?o = true -> _ => destruct (hasModrm o) eqn:Hh
  end.
  - rewrite (Hm eq_refl).
    same_branches; try reflexivity; same_decoded_result.
  - fields. same_decoded_result.
Qed.

Lemma readDisp8_same (st1 st2 : State) :
  same_decoded st1 st2 ->
  agree same_decoded (readDisp8 st1) (readDisp8 st2).
Proof.
  intros H. same_decoded_fields H;
    unfold readDisp8, wantsDisp8, byteAt, size; fields; rewrite ?Hh, ?Hb;
    same_branches; try reflexivity; same_decoded_result.
Qed.

Lemma readDisp32_same (st1 st2 : State) :
  same_decoded st1 st2 ->
  agree same_decoded (readDisp32 st1) (readDisp32 st2).
Proof.
  intros H. same_decoded_fields H;
    unfold readDisp32, wantsDisp32, bytesAt, size; fields; rewrite ?Hh, ?Hb;
    same_branches; try reflexivity; same_decoded_result.
Qed.

Lemma parseAddressOffset_same (st1 st2 : State) :
  same_decoded st1 st2 ->
  agree same_decoded (parseAddressOffset st1) (parseAddressOffset st2).
Proof.
  intros H. unfold parseAddressOffset.
  eapply agree_bind; [apply readDisp8_same, H | apply readDisp32_same].
Qed.

Lemma processOperand_same (E : Externals) (o : Operand.t) (st1 st2 : State) :
  same_decoded st1 st2 ->
  agree same_decoded (processOperand E st1 o) (processOperand E st2 o).
Proof.
  intros H. same_decoded_fields H;
    unfold processOperand, embeddedRegister, remOps0, bytesAt, size;
    fields; rewrite ?Hh, ?Hb, ?Bool.andb_false_r, ?Bool.andb_true_r;
    same_branches; try reflexivity; same_decoded_result.
Qed.

Lemma same_decoded_operands (st1 st2 : State) :
  same_decoded st1 st2 -> operands st1 = operands st2.
Proof.
  intros [[H _] _]. apply (f_equal operands) in H. exact H.
Qed.

Lemma processOperands_same (E : Externals) (ops : list Operand.t) :
  forall st1 st2,
    same_decoded st1 st2 ->
    agree same_decoded (processOperands E ops st1) (processOperands E ops st2).
Proof.
  induction ops as [|o ops IH]; intros st1 st2 H; cbn [processOperands].
  - exact H.
  - eapply agree_bind; [apply processOperand_same, H | exact IH].
Qed.

Lemma decodeSingleInstruction_same (E : Externals) (st1 st2 : State)
    (startIdx : Z) :
  objectSource st1 = objectSource st2 ->
  rex st1 = rex st2 -> disp8 st1 = disp8 st2 -> disp32 st1 = disp32 st2 ->
  agree same_observation
    (decodeSingleInstruction E st1 startIdx)
    (decodeSingleInstruction E st2 startIdx).
Proof.
  intros H1 H2 H3 H4. unfold decodeSingleInstruction.
  eapply agree_bind;
    [apply parsePrefixInstructions_same, init_same_scanned; assumption|].
  intros a1 a2 Ha. eapply agree_bind; [apply parsePrefix_same, Ha|].
  clear a1 a2 Ha. intros a1 a2 Ha.
  eapply agree_bind; [apply parseREX_same, Ha|].
  clear a1 a2 Ha. intros a1 a2 Ha.
  eapply agree_bind; [apply parseOpecode_same, Ha|].
  clear a1 a2 Ha. intros a1 a2 Ha.
  eapply agree_bind; [apply parseModRM_same, Ha|].
  clear a1 a2 Ha. intros a1 a2 Ha.
  eapply agree_bind; [apply parseSIB_same, Ha|].
  clear a1 a2 Ha. intros a1 a2 Ha.
  eapply agree_bind; [apply parseAddressOffset_same, Ha|].
  clear a1 a2 Ha. intros a1 a2 Ha.
  rewrite (same_decoded_operands _ _ Ha).
  eapply agree_bind; [apply processOperands_same, Ha|].
  clear a1 a2 Ha. intros a1 a2 [[Ha _] _].
  unfold same_observation. cbn.
  pose proof (f_equal instructionLen Ha) as Hl.
  pose proof (f_equal mnemonic Ha) as Hm.
  pose proof (f_equal assemblyInstruction Ha) as Hi.
  pose proof (f_equal assemblyOperands Ha) as Ho.
  cbn in Hl, Hm, Hi, Ho. rewrite Hl, Hm, Hi, Ho. split; reflexivity.
Qed.

(** C5, as stated, fails: the call writes a line to the standard output,
    and over the buffer 44 01 C1 01 C1 the decode of the slice 01 C1 at
    offset 3 returns one text on a new state and another on the state
    that has decoded the instruction at offset 0 before, whose REX record
    [init] has not reset. *)
Lemma decode_prints_and_remembers_the_REX_byte :
  let buf := [x44; x01; xc1; x01; xc1] in
  exists d1 d2 d3,
    decodeSingleInstruction Spec.externals (State_new buf) 0 = Ok d1
    /\ decodeSingleInstruction Spec.externals (final d1) 3 = Ok d2
    /\ decodeSingleInstruction Spec.externals (State_new buf) 3 = Ok d3
    /\ text_of d1 = " ADD  ecx r8d"
    /\ text_of d2 = " ADD  ecx r8d"
    /\ text_of d3 = " ADD  ecx eax"
    /\ text_of d2 <> text_of d3
    /\ printed d3 = "3 2  ADD  ecx eax" ++ newline
    /\ printed d3 <> "".
Proof.
  cbv zeta. do 3 eexists.
  split; [run|]. split; [run|]. split; [run|].
  repeat split; run.
Qed.

(** * Further properties of [constants.h] *)

(** X1: [to_string(Mnemonic)] gives different mnemonics different names. *)
Theorem Mnemonic_to_string_injective (m1 m2 : Mnemonic.t) :
  Mnemonic.to_string m1 = Mnemonic.to_string m2 -> m1 = m2.
Proof.
  intros H. destruct m1; destruct m2; first [reflexivity | discriminate H].
Qed.

Lemma Mnemonic_to_string_injective_witness :
  Mnemonic.value Mnemonic.JZ = 29 /\ Mnemonic.JZ = Mnemonic.JZ.
Proof.
  split; [reflexivity|].
  apply Mnemonic_to_string_injective. reflexivity.
Defined.

(** X2: [to_string(Operand)] answers [unknown] for imm64, al, ax and rax
    and for no other kind, and names the other eight kinds apart. *)
Theorem Operand_to_string_unknown (o1 o2 : Operand.t) :
  (Operand.to_string o1 = "unknown"
   /\ In o1 [Operand.imm64; Operand.al; Operand.ax; Operand.rax])
  \/ (Operand.to_string o1 <> "unknown"
      /\ In o1 [Operand.one; Operand.imm8; Operand.imm16; Operand.imm32;
                Operand.reg; Operand.rm; Operand.eax; Operand.moff]
      /\ (Operand.to_string o1 = Operand.to_string o2 -> o1 = o2)).
Proof.
  destruct o1;
    first [ left; split; [reflexivity | cbn; tauto]
          | right; split; [discriminate|]; split; [cbn; tauto|];
            destruct o2; intros H; first [reflexivity | discriminate H] ].
Qed.

Lemma Operand_to_string_unknown_witness :
  Operand.to_string Operand.al = "unknown"
  /\ Operand.to_string Operand.rax = Operand.to_string Operand.ax
  /\ Operand.eax = Operand.eax.
Proof.
  split; [reflexivity|]. split; [reflexivity|].
  destruct (Operand_to_string_unknown Operand.eax Operand.eax)
    as [[H _] | (_ & _ & H)]; [discriminate H | apply H; reflexivity].
Defined.

(** X3: [to_string(OpEnc)] gives different encodings different names. *)
Theorem OpEnc_to_string_injective (e1 e2 : OpEnc.t) :
  OpEnc.to_string e1 = OpEnc.to_string e2 -> e1 = e2.
Proof.
  intros H. destruct e1; destruct e2; first [reflexivity | discriminate H].
Qed.

Lemma OpEnc_to_string_injective_witness : OpEnc.RMI = OpEnc.RMI.
Proof. apply OpEnc_to_string_injective. reflexivity. Defined.

(** X4: among the names [to_string] gives to mnemonics,
    [instructionCategories] knows CALL, RET, JMP, JZ and JNZ and no other:
    of the conditional jumps only JZ and JNZ are in the category JCC, and
    the keys RETN and RETF are the name of no mnemonic. *)
Theorem instructionCategories_of_mnemonics (m : Mnemonic.t) :
  find String.eqb (Mnemonic.to_string m) instructionCategories
  = match m with
    | Mnemonic.CALL => Some InstructionCategory.CALL
    | Mnemonic.RET => Some InstructionCategory.FUNC_END
    | Mnemonic.JMP => Some InstructionCategory.JUMP
    | Mnemonic.JZ | Mnemonic.JNZ => Some InstructionCategory.JCC
    | _ => None
    end
  /\ Mnemonic.to_string m <> "RETN"
  /\ Mnemonic.to_string m <> "RETF".
Proof. destruct m; repeat split; discriminate. Qed.

(** X5: the bytes of [PREFIX_INSTRUCTIONS_BYTES_SET] are the keys of
    [BYTE2PREFIX_INSTRUCTIONS]: a byte is eaten as a prefix instruction
    exactly when the map lists instructions for it. *)
Theorem prefix_bytes_are_the_keys (b : Z) :
  inSet b PREFIX_INSTRUCTIONS_BYTES_SET
  = match find Z.eqb b BYTE2PREFIX_INSTRUCTIONS with
    | Some _ => true
    | None => false
    end.
Proof.
  unfold inSet, PREFIX_INSTRUCTIONS_BYTES_SET, BYTE2PREFIX_INSTRUCTIONS.
  cbn [existsb find].
  destruct (b =? 15); [reflexivity|]. destruct (b =? 240); [reflexivity|].
  destruct (b =? 242); [reflexivity|]. destruct (b =? 243); reflexivity.
Qed.

(** * Further properties of [state.h] *)

Lemma byteAt_ok_bounds (st : State) (i b : Z) :
  byteAt st i = Ok b ->
  0 <= i < Z.of_nat (List.length (objectSource st))
  /\ b = byteValue st i /\ 0 <= b < 256.
Proof.
  unfold byteAt, byteValue, size.
  destruct ((0 <=? i) && (i <? _)) eqn:Hb; [|discriminate].
  intros H. injection H as <-.
  pose proof (Byte.to_N_bounded (nth (Z.to_nat i) (objectSource st) x00)).
  repeat split; lia.
Qed.

Lemma bytesAt_ok_bounds (st : State) (i n : Z) (l : list Z) :
  bytesAt st i n = Ok l ->
  0 <= i /\ i + n <= Z.of_nat (List.length (objectSource st)).
Proof.
  unfold bytesAt, size.
  destruct ((0 <=? i) && (i + n <=? _)) eqn:Hb; [|discriminate].
  intros _. lia.
Qed.

Ltac read_bounds :=
  repeat match goal with
         | H : byteAt _ _ = Ok _ |- _ =>
             apply byteAt_ok_bounds in H;
             let H1 := fresh "Hin" in
             let H2 := fresh "Hval" in
             let H3 := fresh "Hbyte" in
             destruct H as (H1 & H2 & H3)
         | H : bytesAt _ _ _ = Ok _ |- _ =>
             apply bytesAt_ok_bounds in H;
             let H1 := fresh "Hin" in
             let H2 := fresh "Hend" in
             destruct H as (H1 & H2)
         end.

Ltac kept :=
  read_bounds;
  match goal with
  | K : Kept _ _ _ |- _ => destruct K as [Ksrc Kin Ksib Krex]
  end;
  fields_everywhere; subst;
  split; fields_everywhere;
  first [reflexivity | assumption | lia | discriminate
        | intros; first [discriminate | auto] ].

Lemma parsePrefixInstructions_kept (src : list byte) (r0 : REX.t)
    (st st' : State) :
  Kept src r0 st -> parsePrefixInstructions st = Ok st' ->
  Kept src r0 st' /\ modrmByte st' = modrmByte st /\ sibByte st' = sibByte st
  /\ 0 <= consumed st st' <= 1.
Proof.
  intros K H. unfold parsePrefixInstructions in H.
  stage_cases H;
    (split; [kept | unfold consumed; cbn; repeat split; lia]).
Qed.

Lemma parsePrefix_kept (src : list byte) (r0 : REX.t) (st st' : State) :
  Kept src r0 st -> parsePrefix st = Ok st' ->
  Kept src r0 st' /\ modrmByte st' = modrmByte st /\ sibByte st' = sibByte st
  /\ 0 <= consumed st st' <= 1.
Proof.
  intros K H. unfold parsePrefix in H.
  stage_cases H;
    (split; [kept | unfold consumed; cbn; repeat split; lia]).
Qed.

Lemma parseREX_kept (E : Externals) (src : list byte) (r0 : REX.t)
    (st st' : State) :
  Kept src r0 st -> parseREX E st = Ok st' ->
  Kept src r0 st' /\ modrmByte st' = modrmByte st /\ sibByte st' = sibByte st
  /\ 0 <= consumed st st' <= 1.
Proof.
  intros K H. unfold parseREX in H.
  stage_cases H;
    (split; [kept | unfold consumed; cbn; repeat split; lia]).
Qed.

Lemma eatOpecode_kept (E : Externals) (src : list byte) (r0 : REX.t)
    (st st' : State) :
  Kept src r0 st -> eatOpecode E st = Ok st' ->
  Kept src r0 st'
  /\ modrmByte st' = modrmByte st /\ sibByte st' = sibByte st
  /\ 1 <= consumed st st' <= 2.
Proof.
  intros K H. unfold eatOpecode in H.
  stage_cases H;
    (split; [kept | unfold consumed; cbn; repeat split; lia]).
Qed.

Lemma lookupOpcode_kept (E : Externals) (src : list byte) (r0 : REX.t)
    (st st' : State) (r : Reg2Mnem) :
  Kept src r0 st -> lookupOpcode E st = Ok (r, st') ->
  Kept src r0 st'
  /\ modrmByte st' = modrmByte st /\ sibByte st' = sibByte st
  /\ consumed st st' = 0.
Proof.
  intros K H. unfold lookupOpcode in H.
  stage_cases H;
    (split; [kept | unfold consumed; cbn; repeat split; lia]).
Qed.

Lemma lookupOperands_kept (E : Externals) (src : list byte) (r0 : REX.t)
    (st st' : State) :
  Kept src r0 st -> lookupOperands E st = Ok st' ->
  Kept src r0 st'
  /\ modrmByte st' = modrmByte st /\ sibByte st' = sibByte st
  /\ consumed st st' = 0.
Proof.
  intros K H. unfold lookupOperands in H. cbn in H.
  destruct (find operand_key_eqb _ _) as [[[openc rem] ops]|];
    [|discriminate].
  injection H as <-.
  split; [kept | unfold consumed; cbn; repeat split; lia].
Qed.

Lemma byteValue_nonneg (st : State) (i : Z) : 0 <= byteValue st i < 256.
Proof.
  unfold byteValue.
  pose proof (Byte.to_N_bounded (nth (Z.to_nat i) (objectSource st) x00)).
  lia.
Qed.

Lemma peekModRM_peeked (st : State) :
  0 <= curIdx st -> modrmByte st = -1 -> peeked (peekModRM st).
Proof.
  intros H0 Hm. unfold peeked, peekModRM, byteAt.
  destruct (curIdx st <? size st) eqn:Hlt.
  - replace (0 <=? curIdx st) with true by lia. cbn [andb].
    pose proof (byteValue_nonneg st (curIdx st)) as Hb.
    unfold size, byteValue in *. cbn.
    split; intros; [split; [lia | reflexivity] | lia].
  - split; intros; lia.
Qed.

Lemma parseOpecode_kept (E : Externals) (src : list byte) (r0 : REX.t)
    (st st' : State) :
  Kept src r0 st -> modrmByte st = -1 -> parseOpecode E st = Ok st' ->
  Kept src r0 st' /\ peeked st' /\ sibByte st' = sibByte st
  /\ 1 <= consumed st st' <= 2.
Proof.
  intros K Hm H. unfold parseOpecode, resolveOpecode in H.
  destruct (eatOpecode E st) as [s1|] eqn:H1; [cbn [bind] in H | discriminate].
  destruct (lookupOpcode E s1) as [[r s2]|] eqn:H2;
    [cbn [bind] in H | discriminate].
  destruct (eatOpecode_kept _ _ _ _ _ K H1) as (K1 & M1 & S1 & C1).
  destruct (lookupOpcode_kept _ _ _ _ _ _ K1 H2) as (K2 & M2 & S2 & C2).
  assert (P : peeked (peekModRM s2)).
  { apply peekModRM_peeked; [destruct K2; lia | congruence]. }
  set (s3 := peekModRM s2) in *.
  assert (K3 : Kept src r0 s3).
  { subst s3. destruct (peekModRM_cases s2) as [-> | [_ ->]];
      [exact K2 | kept]. }
  assert (C3 : consumed s2 s3 = 0 /\ sibByte s3 = sibByte s2).
  { subst s3. unfold consumed.
    destruct (peekModRM_cases s2) as [-> | [_ ->]]; cbn; split; lia. }
  set (s4 := set_mnemonic (selectMnemonic E r (modrmByte s3)) s3) in *.
  assert (K4 : Kept src r0 s4) by (subst s4; kept).
  destruct (lookupOperands_kept _ _ _ _ _ K4 H) as (K5 & M5 & S5 & C5).
  assert (E5 : curIdx st' = curIdx s3 /\ objectSource st' = objectSource s3).
  { unfold consumed in C5. subst s4. cbn in C5.
    destruct K5, K3. split; [lia | congruence]. }
  destruct E5 as [Ec Es].
  split; [exact K5|]. split; [|split].
  - unfold peeked, size, byteValue in *. rewrite M5, Ec, Es. subst s4.
    cbn [modrmByte set_mnemonic]. exact P.
  - rewrite S5. subst s4. cbn [sibByte set_mnemonic].
    destruct C3 as [_ ->]. congruence.
  - unfold consumed in *. destruct C3 as [C3 _]. lia.
Qed.

Lemma parseModRM_kept (E : Externals) (src : list byte) (r0 : REX.t)
    (st st' : State) :
  Kept src r0 st -> peeked st -> parseModRM E st = Ok st' ->
  Kept src r0 st' /\ sibByte st' = sibByte st
  /\ 0 <= consumed st st' <= 1.
Proof.
  intros K [P _] H. unfold parseModRM in H.
  stage_cases H.
  - assert (Hp : 0 <= modrmByte st) by lia.
    destruct (P Hp) as [Hlt _]. unfold size in Hlt.
    split; [kept | unfold consumed; cbn; split; [reflexivity | lia]].
  - split; [exact K | unfold consumed; split; [reflexivity | lia]].
Qed.

Lemma parseSIB_kept (E : Externals) (src : list byte) (r0 : REX.t)
    (st st' : State) :
  Kept src r0 st -> sibByte st = -1 -> parseSIB E st = Ok st' ->
  Kept src r0 st' /\ 0 <= consumed st st' <= 1.
Proof.
  intros K Hs H. unfold parseSIB in H.
  destruct (hasModrm (opEnc st) && ModRM.hasSib (modrm st)).
  - destruct (curIdx st <? size st) eqn:Hlt.
    + destruct (byteAt st (curIdx st)) as [b|e] eqn:Hb.
      * cbn [sibByte set_sibByte] in H.
        destruct (b <? 0); [discriminate|]. injection H as <-.
        split; [kept | unfold consumed; cbn; lia].
      * rewrite Hs in H. discriminate.
    + rewrite Hs in H. discriminate.
  - injection H as <-. split; [exact K | unfold consumed; lia].
Qed.

Lemma readDisp8_kept (src : list byte) (r0 : REX.t) (st st' : State) :
  Kept src r0 st -> readDisp8 st = Ok st' ->
  Kept src r0 st' /\ 0 <= consumed st st' <= 1.
Proof.
  intros K H. unfold readDisp8 in H.
  stage_cases H; (split; [kept | unfold consumed; cbn; lia]).
Qed.

Lemma readDisp32_kept (src : list byte) (r0 : REX.t) (st st' : State) :
  Kept src r0 st -> readDisp32 st = Ok st' ->
  Kept src r0 st' /\ 0 <= consumed st st' <= 4.
Proof.
  intros K H. unfold readDisp32 in H.
  stage_cases H; (split; [kept | unfold consumed; cbn; lia]).
Qed.

Lemma parseAddressOffset_kept (src : list byte) (r0 : REX.t)
    (st st' : State) :
  Kept src r0 st -> parseAddressOffset st = Ok st' ->
  Kept src r0 st' /\ 0 <= consumed st st' <= 5.
Proof.
  intros K H. unfold parseAddressOffset in H.
  destruct (readDisp8 st) as [s1|] eqn:H1; [cbn [bind] in H | discriminate].
  destruct (readDisp8_kept _ _ _ _ K H1) as [K1 C1].
  destruct (readDisp32_kept _ _ _ _ K1 H) as [K2 C2].
  split; [exact K2 | unfold consumed in *; lia].
Qed.

(** The bytes one operand makes the loop eat. *)
Lemma processOperand_kept (E : Externals) (src : list byte) (r0 : REX.t)
    (o : Operand.t) (st st' : State) :
  Kept src r0 st -> processOperand E st o = Ok st' ->
  Kept src r0 st' /\ consumed st st' = immBytes E [o]
  /\ opEnc st' = opEnc st.
Proof.
  intros K H. unfold processOperand in H.
  unfold immBytes. cbn [fold_right]. rewrite Z.add_0_r.
  destruct (isA_REG E o).
  { cbn [bind] in H. injection H as <-.
    split; [kept | unfold consumed; cbn; split; [lia | reflexivity]]. }
  destruct (isRM E o || isREG E o).
  { match type of H with
    | bind (bind ?c _) _ = _ => destruct c as [v|]; [|discriminate]
    end.
    cbn [bind] in H.
    destruct (isRM E o && hasModrm (opEnc st) && ModRM.hasSib (modrm st));
      cbn [bind] in H; injection H as <-;
      (split; [kept | unfold consumed; cbn; split; [lia | reflexivity]]). }
  destruct (isIMM E o).
  - destruct (bytesAt st (curIdx st) (immSize o)) as [imm|] eqn:Hb;
      [|discriminate].
    cbn [bind] in H. injection H as <-.
    assert (0 <= immSize o) by (destruct o; cbn; lia).
    split; [kept | unfold consumed; cbn; split; [lia | reflexivity]].
  - cbn [bind] in H. injection H as <-.
    split; [kept | unfold consumed; cbn; split; [lia | reflexivity]].
Qed.

Lemma immBytes_cons (E : Externals) (o : Operand.t) (ops : list Operand.t) :
  immBytes E (o :: ops) = immBytes E [o] + immBytes E ops.
Proof. unfold immBytes. cbn [fold_right]. lia. Qed.

Lemma immBytes_nonneg (E : Externals) (ops : list Operand.t) :
  0 <= immBytes E ops.
Proof.
  induction ops as [|o ops IH]; [cbn; lia|].
  rewrite immBytes_cons. unfold immBytes at 1. cbn [fold_right].
  assert (0 <= immSize o) by (destruct o; cbn; lia).
  destruct (_ && _); lia.
Qed.

Lemma processOperands_kept (E : Externals) (src : list byte) (r0 : REX.t)
    (ops : list Operand.t) :
  forall st st',
    Kept src r0 st -> processOperands E ops st = Ok st' ->
    Kept src r0 st' /\ consumed st st' = immBytes E ops
    /\ opEnc st' = opEnc st.
Proof.
  induction ops as [|o ops IH]; intros st st' K H; cbn [processOperands] in H.
  - injection H as <-. split; [exact K|]. unfold consumed. cbn.
    split; [lia | reflexivity].
  - destruct (processOperand E st o) as [s1|] eqn:H1;
      [cbn [bind] in H | discriminate].
    destruct (processOperand_kept _ _ _ _ _ _ K H1) as (K1 & C1 & O1).
    destruct (IH _ _ K1 H) as (K2 & C2 & O2).
    split; [exact K2|]. rewrite immBytes_cons. unfold consumed in *.
    split; [lia | congruence].
Qed.

Lemma rex_nibble_range (b : Z) :
  (Z.shiftr b 4 =? 4) = (0x40 <=? b) && (b <=? 0x4F).
Proof.
  rewrite Z.shiftr_div_pow2 by lia. change (2 ^ 4) with 16.
  pose proof (Z.div_mod b 16 ltac:(lia)) as Hd.
  pose proof (Z.mod_pos_bound b 16 ltac:(lia)) as Hm.
  destruct (b / 16 =? 4) eqn:H1, (0x40 <=? b) eqn:H2, (b <=? 0x4F) eqn:H3;
    cbn; try reflexivity; exfalso; lia.
Qed.

(** X6: the three scanning stages eat at most one byte each, in a fixed
    order: a byte of [PREFIX_INSTRUCTIONS_BYTES_SET], then 0x66, then a
    byte from 0x40 to 0x4F; a REX byte sets the class to REXW or REX by its
    W bit even after 0x66, and without a REX byte the class is P66 exactly
    when 0x66 was eaten. *)
Theorem scanner_stages (E : Externals) (st s1 s2 s3 : State) :
  parsePrefixInstructions st = Ok s1 ->
  parsePrefix s1 = Ok s2 ->
  parseREX E s2 = Ok s3 ->
  let b3 := byteValue s2 (curIdx s2) in
  consumed st s1
  = (if inSet (byteValue st (curIdx st)) PREFIX_INSTRUCTIONS_BYTES_SET
     then 1 else 0)
  /\ consumed s1 s2 = (if byteValue s1 (curIdx s1) =? 0x66 then 1 else 0)
  /\ consumed s2 s3 = (if (0x40 <=? b3) && (b3 <=? 0x4F) then 1 else 0)
  /\ 0 <= consumed st s3 <= 3
  /\ (consumed s2 s3 = 1 ->
      hasREX s3 = true /\ rex s3 = REX_new E b3
      /\ prefix s3 = (if REX.rexW (REX_new E b3)
                      then Prefix.REXW else Prefix.REX))
  /\ (consumed s2 s3 = 0 ->
      hasREX s3 = hasREX st /\ rex s3 = rex st
      /\ prefix s3 = (if consumed s1 s2 =? 1 then Prefix.P66 else prefix st)).
Proof.
  intros H1 H2 H3 b3. subst b3.
  rewrite <- rex_nibble_range.
  unfold parsePrefixInstructions in H1. unfold parsePrefix in H2.
  unfold parseREX in H3.
  destruct (byteAt st (curIdx st)) as [z1|] eqn:R1; [|discriminate].
  destruct (byteAt s1 (curIdx s1)) as [z2|] eqn:R2; [|discriminate].
  destruct (byteAt s2 (curIdx s2)) as [z3|] eqn:R3; [|discriminate].
  cbn [bind] in H1, H2, H3.
  apply byteAt_ok_bounds in R1, R2, R3.
  destruct R1 as (_ & <- & _), R2 as (_ & <- & _), R3 as (_ & <- & _).
  destruct (inSet z1 _) eqn:C1; injection H1 as <-;
    (destruct (z2 =? 102) eqn:C2; injection H2 as <-);
    (destruct (Z.shiftr z3 4 =? 4) eqn:C3;
     [ destruct (REX.rexW _) eqn:W in H3 | ]; injection H3 as <-);
    unfold consumed; cbn;
    repeat split; intros; try lia; try reflexivity;
    try (cbn in W; rewrite W; reflexivity);
    match goal with
    | |- _ = (if ?c then _ else _) =>
        first [ replace c with true by lia | replace c with false by lia ];
        reflexivity
    end.
Qed.

Lemma scanner_stages_witness :
  let st := entry (State_new [x66; x48; xb8]) 0 in
  exists s1 s2 s3,
    parsePrefixInstructions st = Ok s1
    /\ parsePrefix s1 = Ok s2
    /\ parseREX Spec.externals s2 = Ok s3
    /\ consumed st s3 = 2
    /\ prefix s3 = Prefix.REXW.
Proof.
  intros st.
  pose (s2 := st |> set_prefix Prefix.P66 |> set_instructionLen 1
                 |> set_curIdx 1).
  pose (s3 := s2 |> set_hasREX true |> set_rex (Spec.REX_new 0x48)
                 |> set_instructionLen 2 |> set_curIdx 2
                 |> set_prefix Prefix.REXW).
  assert (H1 : parsePrefixInstructions st = Ok st) by run.
  assert (H2 : parsePrefix st = Ok s2) by run.
  assert (H3 : parseREX Spec.externals s2 = Ok s3) by run.
  destruct (scanner_stages Spec.externals st st s2 s3 H1 H2 H3)
    as (_ & _ & _ & _ & Hrex & _).
  exists st, s2, s3.
  split; [exact H1|]. split; [exact H2|]. split; [exact H3|].
  split; [run|].
  destruct Hrex as (_ & _ & ->); run.
Defined.

Lemma entry_scanned (st s1 : State) (startIdx : Z) :
  parsePrefixInstructions (entry st startIdx) = Ok s1 ->
  Kept (objectSource st) (rex st) s1
  /\ modrmByte s1 = -1 /\ sibByte s1 = -1
  /\ 0 <= size_t_of_int startIdx < size st
  /\ 0 <= curIdx s1 - size_t_of_int startIdx <= 1.
Proof.
  intros H. unfold parsePrefixInstructions in H.
  destruct (byteAt _ _) as [b|] eqn:Hb; [cbn [bind] in H | discriminate].
  apply byteAt_ok_bounds in Hb. destruct Hb as (Hin & _ & _).
  unfold entry, size in *. cbn in Hin.
  destruct (inSet b PREFIX_INSTRUCTIONS_BYTES_SET); injection H as <-;
    (split; [split; cbn; first [reflexivity | lia | auto] | cbn; lia]).
Qed.

(** A call that returns has kept the cursor inside the buffer. *)
Lemma decodeSingleInstruction_kept (E : Externals) (st : State)
    (startIdx : Z) (d : Decoded) :
  decodeSingleInstruction E st startIdx = Ok d ->
  Kept (objectSource st) (rex st) (final d)
  /\ 0 <= size_t_of_int startIdx < size st
  /\ 1 <= curIdx (final d) - size_t_of_int startIdx
       <= 12 + immBytes E (operands (final d)).
Proof.
  intros H.
  destruct (decodeSingleInstruction_stages _ _ _ _ H)
    as (s1 & s2 & s3 & s4 & s5 & s6 & s7 & s8 &
        H1 & H2 & H3 & H4 & H5 & H6 & H7 & H8 & _ & _ & Hf).
  fold (entry st startIdx) in H1.
  destruct (entry_scanned _ _ _ H1) as (K1 & M1 & S1 & B0 & C1).
  destruct (parsePrefix_kept _ _ _ _ K1 H2) as (K2 & M2 & S2 & C2).
  destruct (parseREX_kept _ _ _ _ _ K2 H3) as (K3 & M3 & S3 & C3).
  assert (M3' : modrmByte s3 = -1) by congruence.
  destruct (parseOpecode_kept _ _ _ _ _ K3 M3' H4) as (K4 & P4 & S4 & C4).
  destruct (parseModRM_kept _ _ _ _ _ K4 P4 H5) as (K5 & S5 & C5).
  assert (S5' : sibByte s5 = -1) by congruence.
  destruct (parseSIB_kept _ _ _ _ _ K5 S5' H6) as (K6 & C6).
  destruct (parseAddressOffset_kept _ _ _ _ K6 H7) as (K7 & C7).
  destruct (processOperands_kept _ _ _ _ _ _ K7 H8) as (K8 & C8 & _).
  destruct (processOperands_frame _ _ _ _ H8) as (_ & _ & O8 & _).
  rewrite Hf. split; [|split].
  - destruct K8. split; cbn; assumption.
  - exact B0.
  - cbn [curIdx operands set_assemblyInstruction]. rewrite O8.
    pose proof (immBytes_nonneg E (operands s7)).
    unfold consumed in *. lia.
Qed.

Lemma readDisp8_opEnc (st st' : State) :
  readDisp8 st = Ok st' ->
  opEnc st' = opEnc st /\ (hasModrm (opEnc st) = false -> st' = st).
Proof.
  unfold readDisp8, wantsDisp8. intros H.
  destruct (hasModrm (opEnc st)) eqn:Hm.
  - split; [|discriminate].
    destruct (_ || _ || _) in H; [|injection H as <-; reflexivity].
    destruct (byteAt st (curIdx st)); [cbn [bind] in H | discriminate].
    injection H as <-. reflexivity.
  - cbn [andb orb] in H. injection H as <-. split; reflexivity.
Qed.

Lemma readDisp32_opEnc (st st' : State) :
  readDisp32 st = Ok st' ->
  opEnc st' = opEnc st /\ (hasModrm (opEnc st) = false -> st' = st).
Proof.
  unfold readDisp32, wantsDisp32. intros H.
  destruct (hasModrm (opEnc st)) eqn:Hm.
  - split; [|discriminate].
    destruct (_ || _ || _) in H; [|injection H as <-; reflexivity].
    destruct (bytesAt st (curIdx st) 4); [cbn [bind] in H | discriminate].
    injection H as <-. reflexivity.
  - cbn [andb orb] in H. injection H as <-. split; reflexivity.
Qed.

(** X7: the length of a call that returns, without having read past the
    end of the buffer, is at least one byte and at most twelve (three
    prefixes, two opcode bytes, ModR/M, SIB, five displacement bytes) plus
    the immediates of the operand template; with a template that has no
    ModR/M byte it is at most five plus the immediates. *)
Theorem instruction_length_bounds (E : Externals) (st : State)
    (startIdx : Z) (d : Decoded) :
  decodeSingleInstruction E st startIdx = Ok d ->
  let imm := immBytes E (operands (final d)) in
  1 <= instructionLen (final d) <= 12 + imm
  /\ (hasModrm (opEnc (final d)) = false ->
      instructionLen (final d) <= 5 + imm).
Proof.
  intros H imm. subst imm.
  destruct (decodeSingleInstruction_kept _ _ _ _ H) as (_ & _ & C).
  destruct (decodeSingleInstruction_summary _ _ _ _ H)
    as (s8' & vs & Hc & _ & _ & _ & _ & _ & Hf').
  assert (Hl : curIdx (final d) - instructionLen (final d)
               = size_t_of_int startIdx) by (rewrite Hf'; exact Hc).
  split; [lia|]. intros Hh.
  destruct (decodeSingleInstruction_stages _ _ _ _ H)
    as (s1 & s2 & s3 & s4 & s5 & s6 & s7 & s8 &
        H1 & H2 & H3 & H4 & H5 & H6 & H7 & H8 & _ & _ & Hf).
  fold (entry st startIdx) in H1.
  destruct (entry_scanned _ _ _ H1) as (K1 & M1 & S1 & B0 & C1).
  destruct (parsePrefix_kept _ _ _ _ K1 H2) as (K2 & M2 & S2 & C2).
  destruct (parseREX_kept _ _ _ _ _ K2 H3) as (K3 & M3 & S3 & C3).
  assert (M3' : modrmByte s3 = -1) by congruence.
  destruct (parseOpecode_kept _ _ _ _ _ K3 M3' H4) as (K4 & P4 & S4 & C4).
  destruct (parseModRM_kept _ _ _ _ _ K4 P4 H5) as (K5 & S5 & C5).
  assert (S5' : sibByte s5 = -1) by congruence.
  destruct (parseSIB_kept _ _ _ _ _ K5 S5' H6) as (K6 & C6).
  destruct (parseAddressOffset_kept _ _ _ _ K6 H7) as (K7 & C7).
  destruct (processOperands_kept _ _ _ _ _ _ K7 H8) as (K8 & C8 & O8).
  destruct (processOperands_frame _ _ _ _ H8) as (_ & _ & T8 & _).
  rewrite Hf in Hh, Hl |- *.
  cbn [opEnc operands curIdx instructionLen set_assemblyInstruction]
    in Hh, Hl |- *.
  rewrite O8 in Hh. rewrite T8.
  assert (E5 : opEnc s5 = opEnc s4 /\ (hasModrm (opEnc s4) = false -> s5 = s4)).
  { unfold parseModRM in H5.
    destruct (hasModrm (opEnc s4));
      [destruct (modrmByte s4 <? 0); [discriminate|]|];
      injection H5 as <-; split; first [reflexivity | discriminate]. }
  destruct E5 as [E5 Z5].
  assert (E6 : opEnc s6 = opEnc s5 /\ (hasModrm (opEnc s5) = false -> s6 = s5)).
  { unfold parseSIB in H6.
    destruct (hasModrm (opEnc s5));
      [|injection H6 as <-; split; reflexivity].
    split; [|discriminate].
    destruct (true && ModRM.hasSib (modrm s5));
      [|injection H6 as <-; reflexivity].
    destruct (curIdx s5 <? size s5); [destruct (byteAt s5 (curIdx s5))|];
      cbn [sibByte set_sibByte] in H6;
      (destruct (_ <? 0) in H6; [discriminate|]);
      injection H6 as <-; reflexivity. }
  destruct E6 as [E6 Z6].
  assert (E7 : opEnc s7 = opEnc s6 /\ (hasModrm (opEnc s6) = false -> s7 = s6)).
  { unfold parseAddressOffset in H7.
    destruct (readDisp8 s6) as [t|] eqn:R8; [cbn [bind] in H7 | discriminate].
    destruct (readDisp8_opEnc _ _ R8) as [Et Zt].
    destruct (readDisp32_opEnc _ _ H7) as [Eu Zu].
    split; [congruence|]. intros Hm6.
    rewrite Et in Zu. rewrite (Zu Hm6). exact (Zt Hm6). }
  destruct E7 as [E7 Z7].
  rewrite E7, E6, E5 in Hh.
  rewrite E5 in Z6. rewrite E6, E5 in Z7.
  pose proof (Z5 Hh) as Q5. pose proof (Z6 Hh) as Q6.
  pose proof (Z7 Hh) as Q7. subst s7 s6 s5.
  unfold consumed in *. lia.
Qed.

Lemma instruction_length_bounds_witness :
  exists d,
    decodeSingleInstruction Spec.externals
      (State_new [xb8; x44; x33; x22; x11]) 0 = Ok d
    /\ hasModrm (opEnc (final d)) = false
    /\ immBytes Spec.externals (operands (final d)) = 4
    /\ 1 <= instructionLen (final d) <= 9.
Proof.
  eexists. split; [run|].
  destruct (instruction_length_bounds Spec.externals
              (State_new [xb8; x44; x33; x22; x11]) 0 _ ltac:(run))
    as ([H1 _] & H2).
  split; [run|]. split; [run|].
  split; [exact H1|]. apply (H2 ltac:(run)).
Defined.

(** X8: the state a call returns in has [hasSIB] false, also when a SIB
    byte was consumed; and when the call met no REX byte ([hasREX] false)
    the REX record is the one the state held before the call. *)
Theorem decode_flags_and_rex (E : Externals) (st : State) (startIdx : Z)
    (d : Decoded) :
  decodeSingleInstruction E st startIdx = Ok d ->
  hasSIB (final d) = false
  /\ objectSource (final d) = objectSource st
  /\ (hasREX (final d) = false -> rex (final d) = rex st).
Proof.
  intros H.
  destruct (decodeSingleInstruction_kept _ _ _ _ H) as ([Ks _ Kb Kr] & _).
  repeat split; assumption.
Qed.

Lemma decode_flags_and_rex_witness :
  exists d1 d2,
    decodeSingleInstruction Spec.externals
      (State_new [x44; x01; x04; x91; x01; xc1]) 0 = Ok d1
    /\ text_of d1 = " ADD  [rcx + rdx * 4] r8d"
    /\ hasSIB (final d1) = false
    /\ decodeSingleInstruction Spec.externals (final d1) 4 = Ok d2
    /\ hasREX (final d2) = false
    /\ rex (final d2) = rex (final d1).
Proof.
  do 2 eexists. split; [run|]. split; [run|]. split; [run|].
  split; [run|]. split; [run|].
  refine (proj2 (proj2 (decode_flags_and_rex Spec.externals _ 4 _ _)) _);
    run.
Defined.

Lemma parseOpecode_peeked (E : Externals) (st st' : State) :
  modrmByte st = -1 -> parseOpecode E st = Ok st' -> peeked st'.
Proof.
  intros Hm H. unfold parseOpecode, resolveOpecode in H.
  destruct (eatOpecode E st) as [s1|] eqn:H1; [cbn [bind] in H | discriminate].
  destruct (lookupOpcode E s1) as [[r s2]|] eqn:H2;
    [cbn [bind] in H | discriminate].
  assert (Hs2 : modrmByte s2 = -1 /\ 0 <= curIdx s2).
  { unfold eatOpecode in H1. unfold lookupOpcode in H2.
    stage_cases H1; stage_cases H2; read_bounds; cbn; lia. }
  destruct Hs2 as [Hm2 Hc2].
  pose proof (peekModRM_peeked s2 Hc2 Hm2) as P.
  unfold lookupOperands in H. cbn in H.
  destruct (find operand_key_eqb _ _) as [[[openc rem] ops]|];
    [|discriminate].
  injection H as <-. exact P.
Qed.

(** X9: after the opcode resolver of a call (the peek byte field being -1
    on entry, as [init] leaves it), the ModR/M stage of an encoding that
    has ModR/M consumes exactly the byte under the cursor and builds the
    ModR/M record from it and from the REX record when a byte is left, and
    throws the missing-ModR/M error when the buffer ends there; it does not
    read past the end. *)
Theorem modrm_stage_takes_the_peeked_byte (E : Externals) (st s4 : State) :
  modrmByte st = -1 ->
  parseOpecode E st = Ok s4 ->
  hasModrm (opEnc s4) = true ->
  (curIdx s4 < size s4 ->
   exists s5,
     parseModRM E s4 = Ok s5
     /\ consumed s4 s5 = 1
     /\ instructionLen s5 = instructionLen s4 + 1
     /\ modrm s5 = ModRM_new E (byteValue s4 (curIdx s4)) (rex s4))
  /\ (size s4 <= curIdx s4 -> parseModRM E s4 = Err ExpectedModRM).
Proof.
  intros Hm H Hh.
  destruct (parseOpecode_peeked _ _ _ Hm H) as [P1 P2].
  unfold parseModRM. rewrite Hh. split.
  - intros Hlt.
    destruct (modrmByte s4 <? 0) eqn:Hneg; [specialize (P2 ltac:(lia)); lia|].
    destruct (P1 ltac:(lia)) as [_ Hv].
    eexists. split; [reflexivity|]. unfold consumed. cbn. rewrite Hv.
    repeat split; lia.
  - intros Hge.
    destruct (modrmByte s4 <? 0) eqn:Hneg; [reflexivity|].
    destruct (P1 ltac:(lia)) as [Hlt _]. lia.
Qed.

Lemma modrm_stage_takes_the_peeked_byte_witness :
  let st := entry (State_new [x8b; x48; x01]) 0 in
  (exists s4 s5,
     parseOpecode Spec.externals st = Ok s4
     /\ parseModRM Spec.externals s4 = Ok s5
     /\ modrm s5 = Spec.ModRM_new 0x48 (rex s4))
  /\ (exists s4,
        parseOpecode Spec.externals (entry (State_new [x8b]) 0) = Ok s4
        /\ parseModRM Spec.externals s4 = Err ExpectedModRM).
Proof.
  intros st. split.
  - pose proof (modrm_stage_takes_the_peeked_byte Spec.externals st _
                  ltac:(run) ltac:(run) ltac:(run)) as [Hok _].
    destruct (Hok ltac:(run)) as (s5 & H5 & _ & _ & Hmod).
    eexists. exists s5. split; [run|]. split; [exact H5|].
    rewrite Hmod. run.
  - pose proof (modrm_stage_takes_the_peeked_byte Spec.externals
                  (entry (State_new [x8b]) 0) _
                  ltac:(run) ltac:(run) ltac:(run)) as [_ Herr].
    eexists. split; [run|]. apply Herr. run.
Defined.

(** X10: the SIB stage of a call (the SIB byte field being -1 on entry, as
    [init] leaves it), when ModR/M asks for SIB: it consumes exactly the
    byte under the cursor and builds the SIB record from it, from the [mod]
    field and from the REX record when a byte is left, leaving [hasSIB] as
    it was; it throws the missing-SIB error when the buffer ends there. *)
Theorem sib_stage_takes_the_next_byte (E : Externals) (st : State) :
  sibByte st = -1 ->
  0 <= curIdx st ->
  hasModrm (opEnc st) && ModRM.hasSib (modrm st) = true ->
  (curIdx st < size st ->
   exists st',
     parseSIB E st = Ok st'
     /\ consumed st st' = 1
     /\ instructionLen st' = instructionLen st + 1
     /\ sibByte st' = byteValue st (curIdx st)
     /\ sib st' = SIB_new E (byteValue st (curIdx st))
                    (ModRM.modByte (modrm st)) (rex st)
     /\ hasSIB st' = hasSIB st)
  /\ (size st <= curIdx st -> parseSIB E st = Err ExpectedSIB).
Proof.
  intros Hs H0 Hh. unfold parseSIB. rewrite Hh. split.
  - intros Hlt. replace (curIdx st <? size st) with true by lia.
    rewrite byteAt_in_bounds by lia.
    cbn [sibByte set_sibByte].
    pose proof (byteValue_nonneg st (curIdx st)) as Hb.
    replace (byteValue st (curIdx st) <? 0) with false by lia.
    eexists. split; [reflexivity|]. unfold consumed. cbn.
    repeat split; lia.
  - intros Hge. replace (curIdx st <? size st) with false by lia.
    rewrite Hs. reflexivity.
Qed.

Lemma sib_stage_takes_the_next_byte_witness :
  let at_sib bs :=
    entry (State_new bs) 0
    |> set_opEnc OpEnc.MR |> set_curIdx 2
    |> set_modrm (Spec.ModRM_new 0x04 (rex (State_new bs))) in
  (exists st',
     parseSIB Spec.externals (at_sib [x01; x04; x91]) = Ok st'
     /\ sibByte st' = 0x91)
  /\ parseSIB Spec.externals (at_sib [x01; x04]) = Err ExpectedSIB.
Proof.
  intros at_sib. split.
  - destruct (sib_stage_takes_the_next_byte Spec.externals
                (at_sib [x01; x04; x91]) ltac:(run) ltac:(run) ltac:(run))
      as [Hok _].
    destruct (Hok ltac:(run)) as (st' & H & _ & _ & Hb & _).
    exists st'. split; [exact H | rewrite Hb; run].
  - apply (sib_stage_takes_the_next_byte Spec.externals (at_sib [x01; x04]));
      run.
Defined.

(** ** The operand loop *)

Lemma processOperand_consumes (E : Externals) (o : Operand.t)
    (st st' : State) :
  processOperand E st o = Ok st' -> consumed st st' = immBytes E [o].
Proof.
  intros H. unfold processOperand in H.
  unfold immBytes. cbn [fold_right]. rewrite Z.add_0_r.
  destruct (isA_REG E o).
  { cbn [bind] in H. injection H as <-. unfold consumed. cbn. lia. }
  destruct (isRM E o || isREG E o).
  { match type of H with
    | bind (bind ?c _) _ = _ => destruct c as [v|]; [|discriminate]
    end.
    cbn [bind] in H.
    destruct (isRM E o && hasModrm (opEnc st) && ModRM.hasSib (modrm st));
      cbn [bind] in H; injection H as <-; unfold consumed; cbn; lia. }
  destruct (isIMM E o).
  - destruct (bytesAt st (curIdx st) (immSize o)) as [imm|]; [|discriminate].
    cbn [bind] in H. injection H as <-. unfold consumed. cbn. lia.
  - cbn [bind] in H. injection H as <-. unfold consumed. cbn. lia.
Qed.

(** X11: the operand loop pushes one text for every operand of the
    template, and the bytes it consumes are the sizes of the operands that
    reach its immediate branch (8, 4, 2 or 1 for imm64, imm32, imm16, imm8
    and nothing for any other kind); the length counter grows by the same
    amount. *)
Theorem operand_loop_consumes_the_immediates (E : Externals)
    (ops : list Operand.t) (st st' : State) :
  processOperands E ops st = Ok st' ->
  consumed st st' = immBytes E ops
  /\ instructionLen st' = instructionLen st + immBytes E ops
  /\ List.length (assemblyOperands st')
     = (List.length (assemblyOperands st) + List.length ops)%nat.
Proof.
  intros H.
  destruct (processOperands_frame _ _ _ _ H)
    as ([_ Lc _] & _ & _ & _ & vs & Hv & Hl).
  assert (Hc : consumed st st' = immBytes E ops).
  { clear Lc vs Hv Hl. revert st st' H.
    induction ops as [|o ops IH]; intros st st' H;
      cbn [processOperands] in H.
    - injection H as <-. unfold consumed. cbn. lia.
    - destruct (processOperand E st o) as [s1|] eqn:H1;
        [cbn [bind] in H | discriminate].
      apply processOperand_consumes in H1. apply IH in H.
      rewrite immBytes_cons. unfold consumed in *. lia. }
  split; [exact Hc|]. unfold consumed in Hc. split; [lia|].
  rewrite Hv, length_app. lia.
Qed.

Lemma operand_loop_consumes_the_immediates_witness :
  let st := entry (State_new [xb8; x44; x33; x22; x11]) 0
            |> set_opEnc OpEnc.OI |> set_remOps ["0"] |> set_curIdx 1 in
  exists st',
    processOperands Spec.externals [Operand.reg; Operand.imm32] st = Ok st'
    /\ consumed st st' = 4
    /\ assemblyOperands st' = ["eax"; "0x11223344"].
Proof.
  intros st. eexists. split; [run|].
  split; [|run].
  rewrite (proj1 (operand_loop_consumes_the_immediates Spec.externals
                    [Operand.reg; Operand.imm32] st _ ltac:(run))).
  run.
Defined.

(** ** Immediates *)

Lemma string_app_assoc (a b c : string) : (a ++ b) ++ c = a ++ b ++ c.
Proof. induction a as [|x a IH]; cbn; [reflexivity | now rewrite IH]. Qed.

Lemma string_length_app (a b : string) :
  String.length (a ++ b) = (String.length a + String.length b)%nat.
Proof. induction a as [|x a IH]; cbn; [reflexivity | now rewrite IH]. Qed.

Lemma hex_of_bytes_fold (bs : list Z) (s : string) :
  fold_left (fun ss x => ss ++ hex2 x) bs s
  = s ++ fold_right (fun x t => hex2 x ++ t) "" bs.
Proof.
  revert s. induction bs as [|b bs IH]; intros s; cbn [fold_left fold_right].
  - induction s as [|x s IHs]; cbn; [reflexivity | now rewrite <- IHs].
  - rewrite IH, string_app_assoc. reflexivity.
Qed.

Lemma hex_digit_value_hex_digit (d : Z) :
  0 <= d < 16 -> hex_digit_value (hex_digit d) = Some d.
Proof.
  intros H.
  assert (Hd : In d [0; 1; 2; 3; 4; 5; 6; 7; 8; 9; 10; 11; 12; 13; 14; 15])
    by (cbn; lia).
  cbn in Hd. repeat (destruct Hd as [<- | Hd]; [reflexivity|]).
  contradiction.
Qed.

Lemma hex_value_from_hex2 (acc x : Z) (s : string) :
  0 <= x < 256 ->
  hex_value_from acc (hex2 x ++ s) = hex_value_from (256 * acc + x) s.
Proof.
  intros H. unfold hex2. cbn [append hex_value_from].
  pose proof (Z.div_mod x 16 ltac:(lia)).
  pose proof (Z.mod_pos_bound x 16 ltac:(lia)).
  rewrite !hex_digit_value_hex_digit by lia.
  f_equal. lia.
Qed.

Lemma hex_value_from_bytes (bs : list Z) :
  Forall (fun b => 0 <= b < 256) bs ->
  forall acc,
    hex_value_from acc (fold_right (fun x t => hex2 x ++ t) "" bs)
    = Some (fold_left (fun a x => 256 * a + x) bs acc).
Proof.
  induction 1 as [|b bs Hb _ IH]; intros acc; cbn [fold_right fold_left].
  - reflexivity.
  - rewrite hex_value_from_hex2 by exact Hb. apply IH.
Qed.

Lemma big_endian_rev (bs : list Z) :
  fold_left (fun a x => 256 * a + x) (rev bs) 0 = little_endian bs.
Proof.
  induction bs as [|b bs IH]; cbn [rev little_endian]; [reflexivity|].
  rewrite fold_left_app. cbn [fold_left]. rewrite IH. lia.
Qed.

Lemma hex_of_bytes_length (bs : list Z) :
  String.length (hex_of_bytes bs) = (2 + 2 * List.length bs)%nat.
Proof.
  unfold hex_of_bytes. rewrite hex_of_bytes_fold. cbn [append String.length].
  induction bs as [|b bs IH]; cbn [fold_right List.length]; [reflexivity|].
  unfold hex2 at 1. cbn [append String.length]. lia.
Qed.

Lemma bytesAt_is_bytes (st : State) (i n : Z) (l : list Z) :
  bytesAt st i n = Ok l ->
  0 <= n ->
  Forall (fun b => 0 <= b < 256) l /\ Z.of_nat (List.length l) = n.
Proof.
  unfold bytesAt, size.
  destruct ((0 <=? i) && (i + n <=? _)) eqn:Hb; [|discriminate].
  intros H Hn. injection H as <-. split.
  - apply Forall_map, Forall_forall. intros x _.
    pose proof (Byte.to_N_bounded x). lia.
  - rewrite length_map, length_firstn, length_skipn. lia.
Qed.

(** X12: an operand that reaches the immediate branch of the loop, the
    bytes being inside the buffer, consumes exactly its size in bytes and
    is written as 0x followed by two hexadecimal digits per byte; read back
    as a number, the text is the value the consumed bytes encode
    little-endian.  An operand of that branch that is none of imm8, imm16,
    imm32 and imm64 consumes nothing and is written as 0x alone. *)
Theorem immediate_text_is_the_little_endian_value (E : Externals)
    (st : State) (o : Operand.t) (imm : list Z) :
  isA_REG E o = false ->
  isRM E o || isREG E o = false ->
  isIMM E o = true ->
  bytesAt st (curIdx st) (immSize o) = Ok imm ->
  exists st' text,
    processOperand E st o = Ok st'
    /\ assemblyOperands st' = (assemblyOperands st ++ [text])%list
    /\ consumed st st' = immSize o
    /\ Z.of_nat (List.length imm) = immSize o
    /\ String.length text = (2 + 2 * List.length imm)%nat
    /\ hex_value text = Some (little_endian imm)
    /\ (immSize o = 0 -> text = "0x").
Proof.
  intros Ha Hr Hi Hb.
  assert (Hn : 0 <= immSize o) by (destruct o; cbn; lia).
  destruct (bytesAt_is_bytes _ _ _ _ Hb Hn) as [Hbytes Hlen].
  unfold processOperand. rewrite Ha, Hr, Hi, Hb. cbn [bind].
  do 2 eexists. split; [reflexivity|].
  unfold consumed. cbn [assemblyOperands curIdx set_assemblyOperands
                         set_curIdx set_instructionLen].
  split; [reflexivity|]. split; [lia|]. split; [exact Hlen|].
  split; [rewrite hex_of_bytes_length, length_rev; reflexivity|].
  split.
  - unfold hex_of_bytes. rewrite hex_of_bytes_fold.
    cbn [append hex_value].
    rewrite hex_value_from_bytes by (apply Forall_rev; exact Hbytes).
    rewrite big_endian_rev. reflexivity.
  - intros H0. rewrite H0 in Hlen.
    destruct imm; [reflexivity | cbn in Hlen; lia].
Qed.

Lemma immediate_text_is_the_little_endian_value_witness :
  let st := entry (State_new [xb8; x44; x33; x22; x11]) 0 |> set_curIdx 1 in
  exists st' text,
    processOperand Spec.externals st Operand.imm32 = Ok st'
    /\ assemblyOperands st' = (assemblyOperands st ++ [text])%list
    /\ text = "0x11223344"
    /\ hex_value text = Some 0x11223344.
Proof.
  intros st.
  destruct (immediate_text_is_the_little_endian_value Spec.externals st
              Operand.imm32 [0x44; 0x33; 0x22; 0x11]
              ltac:(run) ltac:(run) ltac:(run) ltac:(run))
    as (st' & text & H & Ha & _ & _ & _ & Hv & _).
  exists st', text. split; [exact H|]. split; [exact Ha|].
  split; [|exact Hv].
  vm_compute in H. injection H as <-. vm_compute in Ha.
  injection Ha as Ha. symmetry. exact Ha.
Defined.

(** ** Accumulators *)

(** X13: an operand the tables class as an accumulator consumes nothing and
    is written as [to_string] names it: eax as [eax], but al, ax and rax
    as [unknown]. *)
Theorem accumulator_is_named_by_to_string (E : Externals) (st : State)
    (o : Operand.t) :
  isA_REG E o = true ->
  processOperand E st o
  = Ok (set_assemblyOperands
          (assemblyOperands st ++ [Operand.to_string o])%list st)
  /\ (o = Operand.eax -> Operand.to_string o = "eax")
  /\ (In o [Operand.al; Operand.ax; Operand.rax] ->
      Operand.to_string o = "unknown").
Proof.
  intros Ha. unfold processOperand. rewrite Ha. cbn [bind].
  split; [reflexivity|]. split.
  - intros ->. reflexivity.
  - cbn. intros [<- | [<- | [<- | []]]]; reflexivity.
Qed.

Lemma accumulator_is_named_by_to_string_witness :
  let st := entry (State_new [xb0; x11]) 0 |> set_curIdx 1 in
  processOperand Spec.externals st Operand.al
  = Ok (set_assemblyOperands ["unknown"] st).
Proof.
  intros st.
  destruct (accumulator_is_named_by_to_string Spec.externals st Operand.al
              ltac:(run)) as (H & _ & Hu).
  rewrite H, Hu by (cbn; tauto). reflexivity.
Defined.

(** ** The opcode key *)

Lemma inSet_nonzero (s : list Z) (b : Z) :
  inSet 0 s = false -> inSet b s = true -> b <> 0.
Proof. intros H0 Hb ->. congruence. Qed.

(** X14: when 0 is no member of [TWO_BYTES_OPCODE_PREFIX], the opcode key
    tells the opcode bytes: two runs of the opcode eater that end with the
    same key have eaten the same number of bytes, and the same bytes. *)
Theorem opcode_key_determines_the_bytes (E : Externals)
    (st1 st2 s1 s2 : State) :
  inSet 0 (TWO_BYTES_OPCODE_PREFIX E) = false ->
  eatOpecode E st1 = Ok s1 ->
  eatOpecode E st2 = Ok s2 ->
  opcodeByte s1 = opcodeByte s2 ->
  consumed st1 s1 = consumed st2 s2
  /\ byteValue st1 (curIdx st1) = byteValue st2 (curIdx st2)
  /\ (consumed st1 s1 = 2 ->
      byteValue st1 (curIdx st1 + 1) = byteValue st2 (curIdx st2 + 1)).
Proof.
  intros H0 H1 H2 Hk. unfold eatOpecode in H1, H2.
  destruct (byteAt st1 (curIdx st1)) as [a1|] eqn:R1; [|discriminate].
  destruct (byteAt st2 (curIdx st2)) as [a2|] eqn:R2; [|discriminate].
  cbn [bind opcodeByte curIdx set_curIdx set_instructionLen set_opcodeByte]
    in H1, H2.
  apply byteAt_ok_bounds in R1, R2.
  destruct R1 as (_ & V1 & B1), R2 as (_ & V2 & B2).
  rewrite <- V1, <- V2.
  destruct (inSet a1 _) eqn:T1, (inSet a2 _) eqn:T2.
  - destruct (byteAt _ (curIdx st1 + 1)) as [c1|] eqn:R3; [|discriminate].
    destruct (byteAt _ (curIdx st2 + 1)) as [c2|] eqn:R4; [|discriminate].
    cbn [bind] in H1, H2. injection H1 as <-. injection H2 as <-.
    apply byteAt_ok_bounds in R3, R4.
    destruct R3 as (_ & V3 & B3), R4 as (_ & V4 & B4).
    assert (V3' : c1 = byteValue st1 (curIdx st1 + 1)) by exact V3.
    assert (V4' : c2 = byteValue st2 (curIdx st2 + 1)) by exact V4.
    rewrite <- V3', <- V4'.
    change (Z.shiftl a1 8 + c1 = Z.shiftl a2 8 + c2) in Hk.
    rewrite !Z.shiftl_mul_pow2 in Hk by lia.
    unfold consumed. cbn. repeat split; lia.
  - destruct (byteAt _ (curIdx st1 + 1)) as [c1|] eqn:R3; [|discriminate].
    cbn [bind] in H1. injection H1 as <-. injection H2 as <-.
    apply byteAt_ok_bounds in R3. destruct R3 as (_ & _ & B3).
    pose proof (inSet_nonzero _ _ H0 T1).
    change (Z.shiftl a1 8 + c1 = a2) in Hk.
    rewrite Z.shiftl_mul_pow2 in Hk by lia. lia.
  - destruct (byteAt _ (curIdx st2 + 1)) as [c2|] eqn:R4; [|discriminate].
    cbn [bind] in H2. injection H1 as <-. injection H2 as <-.
    apply byteAt_ok_bounds in R4. destruct R4 as (_ & _ & B4).
    pose proof (inSet_nonzero _ _ H0 T2).
    change (a1 = Z.shiftl a2 8 + c2) in Hk.
    rewrite Z.shiftl_mul_pow2 in Hk by lia. lia.
  - injection H1 as <-. injection H2 as <-. change (a1 = a2) in Hk.
    unfold consumed. cbn. repeat split; lia.
Qed.

Lemma opcode_key_determines_the_bytes_witness :
  let st1 := entry (State_new [x0f; xaf; xc1]) 0 in
  let st2 := entry (State_new [x66; x0f; xaf]) 0 |> set_curIdx 1 in
  exists s1 s2,
    eatOpecode Spec.externals st1 = Ok s1
    /\ eatOpecode Spec.externals st2 = Ok s2
    /\ opcodeByte s1 = 0x0FAF
    /\ consumed st1 s1 = consumed st2 s2.
Proof.
  intros st1 st2. do 2 eexists.
  split; [run|]. split; [run|]. split; [run|].
  refine (proj1 (opcode_key_determines_the_bytes Spec.externals
                   st1 st2 _ _ _ _ _ _)); run.
Defined.

(** ** What the resolver leaves *)

(** X15: when the opcode resolver returns, the state is consistent with
    the tables: [OP_LOOKUP] has a row for the class and the opcode key of
    the state (the class a retry has downgraded to, if one was needed), and
    the encoding, the residual operands and the operand template of the
    state are the row of [OPERAND_LOOKUP] for its class, its mnemonic and
    its opcode key; the name of the mnemonic is the last text pushed. *)
Theorem resolver_state_matches_the_tables (E : Externals) (st st' : State) :
  resolveOpecode E st = Ok st' ->
  opcodeByte st' = opcodeByte st
  /\ (exists reg2mnem,
        find op_key_eqb (prefix st', opcodeByte st') (OP_LOOKUP E)
        = Some reg2mnem
        /\ mnemonic st' = selectMnemonic E reg2mnem (modrmByte st'))
  /\ find operand_key_eqb (prefix st', mnemonic st', opcodeByte st')
       (OPERAND_LOOKUP E)
     = Some (opEnc st', remOps st', operands st')
  /\ assemblyInstruction st'
     = (assemblyInstruction st ++ [Mnemonic.to_string (mnemonic st')])%list.
Proof.
  intros H. unfold resolveOpecode in H.
  destruct (lookupOpcode E st) as [[r s1]|] eqn:H1;
    [cbn [bind] in H | discriminate].
  assert (Hrow : find op_key_eqb (prefix s1, opcodeByte s1) (OP_LOOKUP E)
                 = Some r
                 /\ opcodeByte s1 = opcodeByte st
                 /\ assemblyInstruction s1 = assemblyInstruction st).
  { unfold lookupOpcode in H1. stage_cases H1; cbn; auto. }
  destruct Hrow as (Hrow & Hop & Hai).
  set (s2 := peekModRM s1) in *.
  assert (Hs2 : prefix s2 = prefix s1 /\ opcodeByte s2 = opcodeByte s1
                /\ assemblyInstruction s2 = assemblyInstruction s1).
  { subst s2. destruct (peekModRM_cases s1) as [-> | [_ ->]]; cbn; auto. }
  destruct Hs2 as (Hp2 & Ho2 & Ha2).
  unfold lookupOperands in H. cbn in H.
  destruct (find operand_key_eqb _ _) as [[[openc rem] ops]|] eqn:Hf;
    [|discriminate].
  injection H as <-. cbn.
  rewrite Hp2, Ho2, Ha2 in *. rewrite Hop in *. rewrite Hai.
  split; [reflexivity|]. split; [eauto|]. split; [exact Hf | reflexivity].
Qed.

Lemma resolver_state_matches_the_tables_witness :
  let st := entry (State_new [x41; x01; x04; x91]) 0
            |> set_prefix Prefix.REX |> set_opcodeByte 0x01 |> set_curIdx 2 in
  exists st',
    resolveOpecode Spec.externals st = Ok st'
    /\ prefix st' = Prefix.NONE
    /\ find operand_key_eqb (Prefix.NONE, Mnemonic.ADD, 0x01)
         (OPERAND_LOOKUP Spec.externals)
       = Some (opEnc st', remOps st', operands st').
Proof.
  intros st.
  pose proof (resolver_state_matches_the_tables Spec.externals st _
                ltac:(run)) as (_ & _ & Hf & _).
  eexists. split; [run|]. split; [run|]. exact Hf.
Defined.

(** ** Shifted buffers *)

Lemma decodeSingleInstruction_unfold (E : Externals) (st : State)
    (startIdx : Z) :
  decodeSingleInstruction E st startIdx
  = (s <- parsePrefixInstructions (entry st startIdx) ;;
     afterPrefixInstructions E startIdx s).
Proof. reflexivity. Qed.

Lemma alike_bind {A B : Type} (R : A -> A -> Prop) (R' : B -> B -> Prop)
    (r1 r2 : Result A) (f1 f2 : A -> Result B) :
  alike R r1 r2 ->
  (forall a1 a2, R a1 a2 -> alike R' (f1 a1) (f2 a2)) ->
  alike R' (bind r1 f1) (bind r2 f2).
Proof.
  destruct r1, r2; cbn; intros H Hf; auto; contradiction.
Qed.

Lemma byteAt_read (st : State) (i : Z) :
  byteAt st i
  = match read st i with
    | Some v => Ok v
    | None => Err (OutOfBoundsRead i)
    end.
Proof.
  unfold byteAt, read, byteValue.
  destruct ((0 <=? i) && (i <? size st)); reflexivity.
Qed.

Ltac compare_cases :=
  repeat match goal with
         | |- context [?a <? ?b] => destruct (Z.ltb_spec a b)
         | |- context [?a <=? ?b] => destruct (Z.leb_spec a b)
         end;
  cbn [andb alike]; first [reflexivity | exact Logic.I | exfalso; lia].

Lemma read_shifted (pre : list byte) (j : Z) (s1 s2 : State) :
  Shifted pre j s1 s2 -> read s1 (curIdx s1) = read s2 (curIdx s2).
Proof.
  intros S. unfold read, byteValue, size.
  rewrite (sh_source _ _ _ _ S), (sh_curIdx _ _ _ _ S), length_app.
  pose proof (sh_nonneg _ _ _ _ S) as H0.
  replace (Z.to_nat (curIdx s2 + Z.of_nat (List.length pre)))
    with (List.length pre + Z.to_nat (curIdx s2))%nat by lia.
  rewrite app_nth2_plus, Nat2Z.inj_add.
  compare_cases.
Qed.

Lemma peek_shifted (pre : list byte) (j : Z) (s1 s2 : State) :
  Shifted pre j s1 s2 ->
  (curIdx s1 <? size s1) = (curIdx s2 <? size s2).
Proof.
  intros S. unfold size.
  rewrite (sh_source _ _ _ _ S), (sh_curIdx _ _ _ _ S), length_app,
    Nat2Z.inj_add.
  compare_cases.
Qed.

Lemma bytesAt_shifted (pre : list byte) (j : Z) (s1 s2 : State) (n : Z) :
  Shifted pre j s1 s2 -> 0 <= n ->
  alike eq (bytesAt s1 (curIdx s1) n) (bytesAt s2 (curIdx s2) n).
Proof.
  intros S Hn. unfold bytesAt, size.
  rewrite (sh_source _ _ _ _ S), (sh_curIdx _ _ _ _ S), length_app.
  pose proof (sh_nonneg _ _ _ _ S) as H0.
  replace (Z.to_nat (curIdx s2 + Z.of_nat (List.length pre)))
    with (List.length pre + Z.to_nat (curIdx s2))%nat by lia.
  rewrite skipn_app, skipn_all2 by lia.
  replace (List.length pre + Z.to_nat (curIdx s2) - List.length pre)%nat
    with (Z.to_nat (curIdx s2)) by lia.
  cbn [app]. rewrite Nat2Z.inj_add.
  compare_cases.
Qed.

Ltac shifted_by S :=
  repeat match goal with
         | x := _ : State |- _ => subst x
         end;
  destruct S; split; cbn in *; first [assumption | lia | congruence].

Ltac shifted :=
  match goal with
  | S : Shifted _ _ _ _ |- _ => shifted_by S
  end.

Lemma parsePrefix_shifted (pre : list byte) (j : Z) (s1 s2 : State) :
  Shifted pre j s1 s2 ->
  alike (Shifted pre j) (parsePrefix s1) (parsePrefix s2).
Proof.
  intros S. unfold parsePrefix.
  rewrite !byteAt_read, (read_shifted _ _ _ _ S).
  destruct (read s2 (curIdx s2)) as [b|]; cbn [bind alike]; [|exact Logic.I].
  destruct (b =? 102); cbn [alike]; [shifted | exact S].
Qed.

Lemma parseREX_shifted (E : Externals) (pre : list byte) (j : Z)
    (s1 s2 : State) :
  Shifted pre j s1 s2 ->
  alike (Shifted pre j) (parseREX E s1) (parseREX E s2).
Proof.
  intros S. unfold parseREX.
  rewrite !byteAt_read, (read_shifted _ _ _ _ S).
  destruct (read s2 (curIdx s2)) as [b|]; cbn [bind alike]; [|exact Logic.I].
  destruct (Z.shiftr b 4 =? 4); cbn [alike]; [|exact S].
  cbn [rex set_curIdx set_instructionLen set_rex].
  destruct (REX.rexW (REX_new E b)); cbn [alike]; shifted.
Qed.

Lemma eatOpecode_shifted (E : Externals) (pre : list byte) (j : Z)
    (s1 s2 : State) :
  Shifted pre j s1 s2 ->
  alike (Shifted pre j) (eatOpecode E s1) (eatOpecode E s2).
Proof.
  intros S. unfold eatOpecode.
  rewrite (byteAt_read s1), (byteAt_read s2), (read_shifted _ _ _ _ S).
  destruct (read s2 (curIdx s2)) as [b|]; cbn [bind alike]; [|exact Logic.I].
  set (t1 := set_curIdx _ (set_instructionLen _ (set_opcodeByte b s1))).
  set (t2 := set_curIdx _ (set_instructionLen _ (set_opcodeByte b s2))).
  assert (T : Shifted pre j t1 t2) by (subst t1 t2; shifted).
  via T. destruct (inSet (opcodeByte t2) _); cbn [alike]; [|exact T].
  rewrite (byteAt_read t1), (byteAt_read t2), (read_shifted _ _ _ _ T).
  destruct (read t2 (curIdx t2)) as [b2|]; cbn [bind alike]; [|exact Logic.I].
  via T. clear S. shifted_by T.
Qed.

Lemma lookupOpcode_shifted (E : Externals) (pre : list byte) (j : Z)
    (s1 s2 : State) :
  Shifted pre j s1 s2 ->
  alike (shifted_row pre j) (lookupOpcode E s1) (lookupOpcode E s2).
Proof.
  intros S. unfold lookupOpcode. via S.
  destruct (find op_key_eqb (prefix s2, opcodeByte s2) _);
    [cbn; split; [reflexivity | exact S]|].
  match goal with
  | |- context [match ?c with Some _ => _ | None => _ end] => destruct c
  end; [cbn; split; [reflexivity | cbn; shifted]|].
  match goal with
  | |- context [match ?c with Some _ => _ | None => _ end] => destruct c
  end; [cbn; split; [reflexivity | cbn; shifted] | exact Logic.I].
Qed.

Lemma peekModRM_shifted (pre : list byte) (j : Z) (s1 s2 : State) :
  Shifted pre j s1 s2 -> Shifted pre j (peekModRM s1) (peekModRM s2).
Proof.
  intros S. unfold peekModRM.
  rewrite (peek_shifted _ _ _ _ S), (byteAt_read s1), (byteAt_read s2),
    (read_shifted _ _ _ _ S).
  destruct (curIdx s2 <? size s2); [|exact S].
  destruct (read s2 (curIdx s2)); [shifted | exact S].
Qed.

Lemma lookupOperands_shifted (E : Externals) (pre : list byte) (j : Z)
    (s1 s2 : State) :
  Shifted pre j s1 s2 ->
  alike (Shifted pre j) (lookupOperands E s1) (lookupOperands E s2).
Proof.
  intros S. unfold lookupOperands.
  set (t1 := set_assemblyInstruction _ s1).
  set (t2 := set_assemblyInstruction _ s2).
  assert (T : Shifted pre j t1 t2) by (subst t1 t2; shifted).
  via T.
  destruct (find operand_key_eqb _ _) as [[[openc rem] ops]|];
    cbn [alike]; [clear S; shifted_by T | exact Logic.I].
Qed.

Lemma parseOpecode_shifted (E : Externals) (pre : list byte) (j : Z)
    (s1 s2 : State) :
  Shifted pre j s1 s2 ->
  alike (Shifted pre j) (parseOpecode E s1) (parseOpecode E s2).
Proof.
  intros S. unfold parseOpecode, resolveOpecode.
  eapply alike_bind; [apply eatOpecode_shifted, S|].
  clear s1 s2 S. intros s1 s2 S.
  eapply alike_bind; [apply lookupOpcode_shifted, S|].
  intros [r1 a1] [r2 a2] [Hr Ha]. cbn [fst snd] in Hr, Ha. subst r2.
  pose proof (peekModRM_shifted _ _ _ _ Ha) as P.
  rewrite (sh_modrmByte _ _ _ _ P).
  apply lookupOperands_shifted. clear S Ha. shifted_by P.
Qed.

Lemma parseModRM_shifted (E : Externals) (pre : list byte) (j : Z)
    (s1 s2 : State) :
  Shifted pre j s1 s2 ->
  alike (Shifted pre j) (parseModRM E s1) (parseModRM E s2).
Proof.
  intros S. unfold parseModRM. via S.
  destruct (hasModrm (opEnc s2)); cbn [alike]; [|exact S].
  destruct (modrmByte s2 <? 0); cbn [alike]; [exact Logic.I | shifted].
Qed.

Lemma parseSIB_shifted (E : Externals) (pre : list byte) (j : Z)
    (s1 s2 : State) :
  Shifted pre j s1 s2 ->
  alike (Shifted pre j) (parseSIB E s1) (parseSIB E s2).
Proof.
  intros S. unfold parseSIB. via S.
  destruct (hasModrm (opEnc s2) && ModRM.hasSib (modrm s2));
    cbn [alike]; [|exact S].
  rewrite (peek_shifted _ _ _ _ S), (byteAt_read s1), (byteAt_read s2),
    (read_shifted _ _ _ _ S).
  assert (T : Shifted pre j
                (if curIdx s2 <? size s2
                 then match read s2 (curIdx s2) with
                      | Some b => set_sibByte b s1
                      | None => s1
                      end
                 else s1)
                (if curIdx s2 <? size s2
                 then match read s2 (curIdx s2) with
                      | Some b => set_sibByte b s2
                      | None => s2
                      end
                 else s2)).
  { destruct (curIdx s2 <? size s2); [|exact S].
    destruct (read s2 (curIdx s2)); [shifted | exact S]. }
  destruct (curIdx s2 <? size s2);
    [destruct (read s2 (curIdx s2)) as [b|]|];
    via T; (destruct (sibByte _ <? 0); cbn [alike];
            [exact Logic.I | via T; clear S; shifted_by T]).
Qed.

Lemma readDisp8_shifted (pre : list byte) (j : Z) (s1 s2 : State) :
  Shifted pre j s1 s2 ->
  alike (Shifted pre j) (readDisp8 s1) (readDisp8 s2).
Proof.
  intros S. unfold readDisp8, wantsDisp8. via S.
  match goal with
  | |- alike _ (if ?c then _ else _) _ => destruct c
  end; cbn [alike]; [|exact S].
  rewrite (byteAt_read s1), (byteAt_read s2), (read_shifted _ _ _ _ S).
  destruct (read s2 (curIdx s2)); cbn [bind alike];
    [shifted | exact Logic.I].
Qed.

Lemma readDisp32_shifted (pre : list byte) (j : Z) (s1 s2 : State) :
  Shifted pre j s1 s2 ->
  alike (Shifted pre j) (readDisp32 s1) (readDisp32 s2).
Proof.
  intros S. unfold readDisp32, wantsDisp32. via S.
  match goal with
  | |- alike _ (if ?c then _ else _) _ => destruct c
  end; cbn [alike]; [|exact S].
  pose proof (bytesAt_shifted _ _ _ _ 4 S ltac:(lia)) as Hb.
  destruct (bytesAt s1 (curIdx s1) 4), (bytesAt s2 (curIdx s2) 4);
    cbn [alike] in Hb; try contradiction; cbn [bind alike];
    [subst; shifted | exact Logic.I].
Qed.

Lemma parseAddressOffset_shifted (pre : list byte) (j : Z) (s1 s2 : State) :
  Shifted pre j s1 s2 ->
  alike (Shifted pre j) (parseAddressOffset s1) (parseAddressOffset s2).
Proof.
  intros S. unfold parseAddressOffset.
  eapply alike_bind; [apply readDisp8_shifted, S|].
  intros a1 a2 Ha. apply readDisp32_shifted, Ha.
Qed.

Lemma embeddedRegister_shifted (E : Externals) (pre : list byte) (j : Z)
    (s1 s2 : State) (o : Operand.t) :
  Shifted pre j s1 s2 -> embeddedRegister E s1 o = embeddedRegister E s2 o.
Proof.
  intros S. unfold embeddedRegister, remOps0. via S. reflexivity.
Qed.

Lemma processOperand_shifted (E : Externals) (pre : list byte) (j : Z)
    (o : Operand.t) (s1 s2 : State) :
  Shifted pre j s1 s2 ->
  alike (Shifted pre j) (processOperand E s1 o) (processOperand E s2 o).
Proof.
  intros S. unfold processOperand.
  rewrite (embeddedRegister_shifted E _ _ _ _ o S). via S.
  destruct (isA_REG E o); [cbn [bind alike]; shifted|].
  destruct (isRM E o || isREG E o).
  { match goal with
    | |- alike _ (bind (bind ?c _) _) _ => destruct c as [v|]
    end; cbn [bind alike]; [|exact Logic.I].
    destruct (isRM E o && hasModrm (opEnc s2) && ModRM.hasSib (modrm s2));
      cbn [bind alike]; shifted. }
  destruct (isIMM E o); [|cbn [bind alike]; shifted].
  assert (Hn : 0 <= immSize o) by (destruct o; cbn; lia).
  pose proof (bytesAt_shifted _ _ _ _ (immSize o) S Hn) as Hb.
  destruct (bytesAt s1 (curIdx s1) (immSize o)),
           (bytesAt s2 (curIdx s2) (immSize o));
    cbn [alike] in Hb; try contradiction; cbn [bind alike];
    [subst; shifted | exact Logic.I].
Qed.

Lemma processOperands_shifted (E : Externals) (pre : list byte) (j : Z)
    (ops : list Operand.t) :
  forall s1 s2,
    Shifted pre j s1 s2 ->
    alike (Shifted pre j) (processOperands E ops s1) (processOperands E ops s2).
Proof.
  induction ops as [|o ops IH]; intros s1 s2 S; cbn [processOperands].
  - exact S.
  - eapply alike_bind; [apply processOperand_shifted, S | exact IH].
Qed.

Lemma afterPrefixInstructions_shifted (E : Externals) (pre : list byte)
    (j start1 start2 : Z) (s1 s2 : State) :
  Shifted pre j s1 s2 ->
  alike (shifted_result j)
    (afterPrefixInstructions E start1 s1)
    (afterPrefixInstructions E start2 s2).
Proof.
  intros S. unfold afterPrefixInstructions.
  eapply alike_bind; [apply parsePrefix_shifted, S|].
  clear s1 s2 S. intros s1 s2 S.
  eapply alike_bind; [apply parseREX_shifted, S|].
  clear s1 s2 S. intros s1 s2 S.
  eapply alike_bind; [apply parseOpecode_shifted, S|].
  clear s1 s2 S. intros s1 s2 S.
  eapply alike_bind; [apply parseModRM_shifted, S|].
  clear s1 s2 S. intros s1 s2 S.
  eapply alike_bind; [apply parseSIB_shifted, S|].
  clear s1 s2 S. intros s1 s2 S.
  eapply alike_bind; [apply parseAddressOffset_shifted, S|].
  clear s1 s2 S. intros s1 s2 S.
  rewrite (sh_operands _ _ _ _ S).
  eapply alike_bind; [apply processOperands_shifted, S|].
  clear s1 s2 S. intros s1 s2 S.
  unfold shifted_result, same_rendering, mnemonic_of, text_of.
  cbn. via S. destruct S. repeat split; assumption.
Qed.

Lemma parsePrefixInstructions_shifted (pre : list byte) (j : Z)
    (s1 s2 : State) :
  Shifted pre j s1 s2 ->
  alike (Shifted pre j)
    (parsePrefixInstructions s1) (parsePrefixInstructions s2).
Proof.
  intros S. unfold parsePrefixInstructions.
  rewrite (byteAt_read s1), (byteAt_read s2), (read_shifted _ _ _ _ S).
  destruct (read s2 (curIdx s2)) as [b|]; cbn [bind alike]; [|exact Logic.I].
  destruct (inSet b _); cbn [alike]; [shifted | exact S].
Qed.

Lemma decodeSingleInstruction_same_result (E : Externals) (st1 st2 : State)
    (startIdx : Z) :
  objectSource st1 = objectSource st2 ->
  rex st1 = rex st2 -> disp8 st1 = disp8 st2 -> disp32 st1 = disp32 st2 ->
  agree same_result
    (decodeSingleInstruction E st1 startIdx)
    (decodeSingleInstruction E st2 startIdx).
Proof.
  intros H1 H2 H3 H4. unfold decodeSingleInstruction.
  eapply agree_bind;
    [apply parsePrefixInstructions_same, init_same_scanned; assumption|].
  intros a1 a2 Ha. eapply agree_bind; [apply parsePrefix_same, Ha|].
  clear a1 a2 Ha. intros a1 a2 Ha.
  eapply agree_bind; [apply parseREX_same, Ha|].
  clear a1 a2 Ha. intros a1 a2 Ha.
  eapply agree_bind; [apply parseOpecode_same, Ha|].
  clear a1 a2 Ha. intros a1 a2 Ha.
  eapply agree_bind; [apply parseModRM_same, Ha|].
  clear a1 a2 Ha. intros a1 a2 Ha.
  eapply agree_bind; [apply parseSIB_same, Ha|].
  clear a1 a2 Ha. intros a1 a2 Ha.
  eapply agree_bind; [apply parseAddressOffset_same, Ha|].
  clear a1 a2 Ha. intros a1 a2 Ha.
  rewrite (same_decoded_operands _ _ Ha).
  eapply agree_bind; [apply processOperands_same, Ha|].
  clear a1 a2 Ha. intros a1 a2 [[Ha _] _].
  unfold same_result. cbn.
  pose proof (f_equal instructionLen Ha) as Hl.
  pose proof (f_equal mnemonic Ha) as Hm.
  pose proof (f_equal assemblyInstruction Ha) as Hi.
  pose proof (f_equal assemblyOperands Ha) as Ho.
  cbn in Hl, Hm, Hi, Ho. rewrite Hl, Hm, Hi, Ho. split; reflexivity.
Qed.

Lemma alike_then_agree (j : Z) (r1 r2 r3 : Result Decoded) :
  alike (shifted_result j) r1 r2 -> agree same_result r2 r3 ->
  alike (shifted_result j) r1 r3.
Proof.
  destruct r1 as [d1|], r2 as [d2|], r3 as [d3|]; cbn;
    try contradiction; try discriminate; auto.
  intros [[Hm Ht] Hl] [Hr Hf].
  unfold shifted_result, same_rendering, mnemonic_of, text_of in *.
  rewrite <- Hr, <- Hf. repeat split; assumption.
Qed.

Lemma entry_shifted (pre : list byte) (st : State) (src : list byte)
    (startIdx : Z) :
  objectSource st = (pre ++ src)%list ->
  0 <= startIdx ->
  startIdx + Z.of_nat (List.length pre) < 2 ^ 64 ->
  Shifted pre 0
    (entry st (startIdx + Z.of_nat (List.length pre)))
    (entry (with_objectSource src st) startIdx).
Proof.
  intros Hs H0 Hk. unfold entry, size_t_of_int.
  rewrite !Z.mod_small by lia.
  split; cbn; first [assumption | reflexivity | lia].
Qed.

(** X16: decoding depends on the buffer only from the start offset on:
    over a buffer with any bytes put in front, at a start offset moved by
    their number, a call fails when the call over the bare buffer fails,
    and otherwise returns the same length, mnemonic and text (the states
    holding the same REX record and displacement strings). *)
Theorem decode_depends_on_the_suffix (E : Externals) (pre : list byte)
    (st1 st2 : State) (startIdx : Z) :
  objectSource st1 = (pre ++ objectSource st2)%list ->
  rex st1 = rex st2 -> disp8 st1 = disp8 st2 -> disp32 st1 = disp32 st2 ->
  0 <= startIdx ->
  startIdx + Z.of_nat (List.length pre) < 2 ^ 64 ->
  alike (fun d1 d2 =>
           length_of d1 = length_of d2
           /\ mnemonic_of d1 = mnemonic_of d2
           /\ text_of d1 = text_of d2)
    (decodeSingleInstruction E st1 (startIdx + Z.of_nat (List.length pre)))
    (decodeSingleInstruction E st2 startIdx).
Proof.
  intros Hs Hr H8 H32 H0 Hk.
  pose proof (entry_shifted pre st1 (objectSource st2) startIdx Hs H0 Hk)
    as S.
  assert (A : alike (shifted_result 0)
                (decodeSingleInstruction E st1
                   (startIdx + Z.of_nat (List.length pre)))
                (decodeSingleInstruction E
                   (with_objectSource (objectSource st2) st1) startIdx)).
  { rewrite !decodeSingleInstruction_unfold.
    eapply alike_bind; [apply parsePrefixInstructions_shifted, S|].
    intros a1 a2 Ha. eapply afterPrefixInstructions_shifted. exact Ha. }
  assert (B : agree same_result
                (decodeSingleInstruction E
                   (with_objectSource (objectSource st2) st1) startIdx)
                (decodeSingleInstruction E st2 startIdx))
    by (apply decodeSingleInstruction_same_result; cbn; congruence).
  pose proof (alike_then_agree _ _ _ _ A B) as C.
  destruct (decodeSingleInstruction E st1 _) as [d1|] eqn:D1,
           (decodeSingleInstruction E st2 startIdx) as [d2|] eqn:D2;
    cbn in C |- *; try contradiction; [|exact Logic.I].
  destruct C as [[Hm Ht] Hl].
  destruct (decodeSingleInstruction_stages _ _ _ _ D1)
    as (? & ? & ? & ? & ? & ? & ? & t1 & _ & _ & _ & _ & _ & _ & _ & _ &
        R1 & _ & F1).
  destruct (decodeSingleInstruction_stages _ _ _ _ D2)
    as (? & ? & ? & ? & ? & ? & ? & t2 & _ & _ & _ & _ & _ & _ & _ & _ &
        R2 & _ & F2).
  split; [|split; assumption].
  unfold length_of. rewrite R1, R2. cbn [fst snd].
  rewrite F1, F2 in Hl. cbn in Hl. rewrite Hl, Z.add_0_r. reflexivity.
Qed.

Lemma decode_depends_on_the_suffix_witness :
  observable
    (decodeSingleInstruction Spec.externals
       (State_new [x90; xc3; x8b; x48; x01]) 2)
  = Ok (2, 3, "MOV", " MOV  ecx [rax + 1]", "2 3  MOV  ecx [rax + 1]" ++ newline)
  /\ alike (fun d1 d2 =>
             length_of d1 = length_of d2
             /\ mnemonic_of d1 = mnemonic_of d2
             /\ text_of d1 = text_of d2)
       (decodeSingleInstruction Spec.externals
          (State_new [x90; xc3; x8b; x48; x01]) 2)
       (decodeSingleInstruction Spec.externals
          (State_new [x8b; x48; x01]) 0).
Proof.
  split; [run|].
  apply (decode_depends_on_the_suffix Spec.externals [x90; xc3]
           (State_new [x90; xc3; x8b; x48; x01])
           (State_new [x8b; x48; x01]) 0); run.
Defined.

Lemma byteAt_entry_after (st : State) (front rest : list byte) (b : byte) :
  objectSource st = (front ++ b :: rest)%list ->
  Z.of_nat (List.length front) < 2 ^ 64 ->
  byteAt (entry st (Z.of_nat (List.length front)))
    (curIdx (entry st (Z.of_nat (List.length front))))
  = Ok (Z.of_N (Byte.to_N b)).
Proof.
  intros Hs Hk. unfold byteAt, size, entry, size_t_of_int.
  cbn [curIdx objectSource set_curIdx init].
  rewrite Z.mod_small by lia. rewrite Hs, length_app. cbn [List.length].
  rewrite Nat2Z.id, nth_middle.
  destruct (Z.leb_spec 0 (Z.of_nat (List.length front))); [|lia].
  destruct (Z.ltb_spec (Z.of_nat (List.length front))
              (Z.of_nat (List.length front + S (List.length rest))));
    [reflexivity | lia].
Qed.

(** X17: a prefix-instruction byte (0x0F, 0xF0, 0xF2 or 0xF3) in front of
    an instruction that does not begin with such a byte changes neither
    the mnemonic nor the text, only the length, which is one more: the
    byte is recorded in the state and never written. *)
Theorem prefix_instruction_byte_is_not_rendered (E : Externals)
    (front : list byte) (b : byte) (st1 st2 : State) :
  objectSource st1 = (front ++ b :: objectSource st2)%list ->
  inSet (Z.of_N (Byte.to_N b)) PREFIX_INSTRUCTIONS_BYTES_SET = true ->
  (forall v, byteAt (entry st2 0) 0 = Ok v ->
             inSet v PREFIX_INSTRUCTIONS_BYTES_SET = false) ->
  rex st1 = rex st2 -> disp8 st1 = disp8 st2 -> disp32 st1 = disp32 st2 ->
  Z.of_nat (List.length front) + 1 < 2 ^ 64 ->
  alike (fun d1 d2 =>
           instructionLen (final d1) = instructionLen (final d2) + 1
           /\ mnemonic_of d1 = mnemonic_of d2
           /\ text_of d1 = text_of d2)
    (decodeSingleInstruction E st1 (Z.of_nat (List.length front)))
    (decodeSingleInstruction E st2 0).
Proof.
  intros Hs Hb Hnext Hr H8 H32 Hk.
  set (start := Z.of_nat (List.length front)).
  set (st2' := with_objectSource (objectSource st2) st1).
  set (e1 := entry st1 start). set (e2 := entry st2' 0).
  set (t1 := e1 |> set_prefixInstructionByte (Z.of_N (Byte.to_N b))
                |> set_prefixOffset 1
                |> set_instructionLen (instructionLen e1 + 1)
                |> set_curIdx (curIdx e1 + 1)).
  assert (P1 : parsePrefixInstructions e1 = Ok t1).
  { unfold parsePrefixInstructions. subst e1 start.
    rewrite (byteAt_entry_after st1 front (objectSource st2) b Hs)
      by lia.
    cbn [bind]. rewrite Hb. reflexivity. }
  assert (S : Shifted (front ++ [b]) 1 t1 e2).
  { subst t1 e1 e2 st2' start. unfold entry, size_t_of_int.
    rewrite !Z.mod_small by lia.
    split; cbn; rewrite ?length_app; cbn;
      first [reflexivity | lia | rewrite Hs, <- app_assoc; reflexivity]. }
  pose proof (afterPrefixInstructions_shifted E _ _ start 0 _ _ S) as A.
  assert (A' : alike (shifted_result 1)
                 (decodeSingleInstruction E st1 start)
                 (decodeSingleInstruction E st2' 0)).
  { rewrite !decodeSingleInstruction_unfold. fold e1 e2. rewrite P1.
    cbn [bind].
    assert (B0 : byteAt e2 (curIdx e2) = byteAt (entry st2 0) 0)
      by reflexivity.
    unfold parsePrefixInstructions. rewrite B0.
    destruct (byteAt (entry st2 0) 0) as [v|] eqn:Hv; cbn [bind].
    - rewrite (Hnext v eq_refl). exact A.
    - assert (A2 : afterPrefixInstructions E 0 e2 = Err e).
      { unfold afterPrefixInstructions, parsePrefix. rewrite B0.
        reflexivity. }
      rewrite A2 in A.
      destruct (afterPrefixInstructions E start t1); [contradiction|].
      exact Logic.I. }
  assert (B : agree same_result
                (decodeSingleInstruction E st2' 0)
                (decodeSingleInstruction E st2 0))
    by (apply decodeSingleInstruction_same_result; cbn; congruence).
  pose proof (alike_then_agree _ _ _ _ A' B) as C.
  destruct (decodeSingleInstruction E st1 start) as [d1|],
           (decodeSingleInstruction E st2 0) as [d2|];
    cbn in C |- *; try contradiction; [|exact Logic.I].
  destruct C as [[Hm Ht] Hl]. repeat split; assumption.
Qed.

Lemma prefix_instruction_byte_is_not_rendered_witness :
  observable
    (decodeSingleInstruction Spec.externals
       (State_new [xf3; x01; xc1]) 0)
  = Ok (0, 3, "ADD", " ADD  ecx eax", "0 3  ADD  ecx eax" ++ newline)
  /\ alike (fun d1 d2 =>
             instructionLen (final d1) = instructionLen (final d2) + 1
             /\ mnemonic_of d1 = mnemonic_of d2
             /\ text_of d1 = text_of d2)
       (decodeSingleInstruction Spec.externals
          (State_new [xf3; x01; xc1]) 0)
       (decodeSingleInstruction Spec.externals (State_new [x01; xc1]) 0).
Proof.
  split; [run|].
  apply (prefix_instruction_byte_is_not_rendered Spec.externals [] xf3
           (State_new [xf3; x01; xc1]) (State_new [x01; xc1]));
    try run.
  intros v Hv. vm_compute in Hv. injection Hv as <-. reflexivity.
Defined.

(** * Two runs over the same slice *)

Section Slice.

Variable E : Externals.
Variables w pA pB : list byte.

Lemma byteAt_over (st : State) (mb i : Z) :
  objectSource st = (w ++ pA)%list ->
  i < Z.of_nat (List.length w) ->
  byteAt (over (w ++ pB) mb st) i = byteAt st i.
Proof.
  intros Hs Hi. unfold byteAt, size.
  cbn [over with_objectSource objectSource]. rewrite Hs, !length_app.
  destruct (Z.leb_spec 0 i); [|reflexivity].
  rewrite (proj2 (Z.ltb_lt i (Z.of_nat (List.length w + List.length pB))))
    by lia.
  rewrite (proj2 (Z.ltb_lt i (Z.of_nat (List.length w + List.length pA))))
    by lia.
  cbn [andb]. rewrite !app_nth1 by lia. reflexivity.
Qed.

Lemma peek_over (st : State) (mb : Z) :
  objectSource st = (w ++ pA)%list ->
  curIdx st < Z.of_nat (List.length w) ->
  (curIdx st <? size st) = true
  /\ (curIdx st <? size (over (w ++ pB) mb st)) = true.
Proof.
  intros Hs Hi. unfold size.
  cbn [over with_objectSource objectSource curIdx set_modrmByte].
  rewrite Hs, !length_app. split; apply Z.ltb_lt; lia.
Qed.

Lemma bytesAt_over (st : State) (mb i n : Z) (l : list Z) :
  objectSource st = (w ++ pA)%list ->
  0 <= n ->
  i + n <= Z.of_nat (List.length w) ->
  bytesAt st i n = Ok l ->
  bytesAt (over (w ++ pB) mb st) i n = Ok l.
Proof.
  intros Hs Hn Hi. unfold bytesAt, size.
  cbn [over with_objectSource objectSource]. rewrite Hs, !length_app.
  destruct (Z.leb_spec 0 i); [|discriminate].
  rewrite (proj2 (Z.leb_le (i + n)
                     (Z.of_nat (List.length w + List.length pB)))) by lia.
  rewrite (proj2 (Z.leb_le (i + n)
                     (Z.of_nat (List.length w + List.length pA)))) by lia.
  cbn [andb]. intros Hb. injection Hb as <-. f_equal. f_equal.
  rewrite !skipn_app, !firstn_app, length_skipn.
  replace (Z.to_nat n - (List.length w - Z.to_nat i))%nat with 0%nat by lia.
  reflexivity.
Qed.

(** The projections of a state put over the other buffer. *)
Ltac over_fields :=
  cbn [over with_objectSource objectSource hasREX hasSIB hasDisp8 hasDisp32
       curIdx instructionLen prefixOffset prefixInstructionByte opcodeByte
       modrmByte sibByte mnemonic prefix rex modrm sib opEnc remOps operands
       disp8 disp32 assemblyInstruction assemblyOperands set_hasREX
       set_hasDisp8 set_hasDisp32 set_curIdx set_instructionLen
       set_prefixOffset set_prefixInstructionByte set_opcodeByte
       set_modrmByte set_sibByte set_mnemonic set_prefix set_rex set_modrm
       set_sib set_opEnc set_remOps set_operands set_disp8 set_disp32
       set_assemblyInstruction set_assemblyOperands bind fst snd] in *.

(** The second run takes the branches the first one took. *)
Ltac mirror :=
  repeat
    (over_fields;
     match goal with
     | Hc : ?c = _ |- context [?c] =>
         lazymatch type of c with
         | bool => rewrite Hc
         | Result _ => rewrite Hc
         | option _ => rewrite Hc
         end
     end);
  over_fields; try reflexivity.

Lemma parsePrefixInstructions_over (st st' : State) (mb : Z) :
  objectSource st = (w ++ pA)%list ->
  curIdx st < Z.of_nat (List.length w) ->
  parsePrefixInstructions st = Ok st' ->
  parsePrefixInstructions (over (w ++ pB) mb st) = Ok (over (w ++ pB) mb st').
Proof.
  intros Hs Hi H. unfold parsePrefixInstructions in *.
  rewrite (byteAt_over _ _ _ Hs) by exact Hi.
  stage_cases H; mirror.
Qed.

Lemma parsePrefix_over (st st' : State) (mb : Z) :
  objectSource st = (w ++ pA)%list ->
  curIdx st < Z.of_nat (List.length w) ->
  parsePrefix st = Ok st' ->
  parsePrefix (over (w ++ pB) mb st) = Ok (over (w ++ pB) mb st').
Proof.
  intros Hs Hi H. unfold parsePrefix in *.
  rewrite (byteAt_over _ _ _ Hs) by exact Hi.
  stage_cases H; mirror.
Qed.

Lemma parseREX_over (st st' : State) (mb : Z) :
  objectSource st = (w ++ pA)%list ->
  curIdx st < Z.of_nat (List.length w) ->
  parseREX E st = Ok st' ->
  parseREX E (over (w ++ pB) mb st) = Ok (over (w ++ pB) mb st').
Proof.
  intros Hs Hi H. unfold parseREX in *.
  rewrite (byteAt_over _ _ _ Hs) by exact Hi.
  stage_cases H; mirror.
Qed.

Lemma eatOpecode_over (st st' : State) (mb : Z) :
  objectSource st = (w ++ pA)%list ->
  curIdx st' <= Z.of_nat (List.length w) ->
  eatOpecode E st = Ok st' ->
  eatOpecode E (over (w ++ pB) mb st) = Ok (over (w ++ pB) mb st')
  /\ curIdx st < curIdx st'.
Proof.
  intros Hs Hi H. unfold eatOpecode in *.
  destruct (byteAt st (curIdx st)) as [b|] eqn:Hb; [|discriminate].
  over_fields.
  destruct (inSet b (TWO_BYTES_OPCODE_PREFIX E)) eqn:Ht.
  - destruct (byteAt _ (curIdx st + 1)) as [b2|] eqn:Hb2 in H;
      [|discriminate].
    over_fields. injection H as <-. over_fields.
    rewrite (byteAt_over _ _ _ Hs) by lia. rewrite Hb. over_fields.
    rewrite Ht.
    change (byteAt (set_curIdx (curIdx st + 1)
                      (set_instructionLen (instructionLen st + 1)
                         (set_opcodeByte b (over (w ++ pB) mb st))))
              (curIdx st + 1))
      with (byteAt (over (w ++ pB) mb st) (curIdx st + 1)).
    rewrite (byteAt_over _ _ _ Hs) by lia.
    change (byteAt st (curIdx st + 1))
      with (byteAt (set_curIdx (curIdx st + 1)
                      (set_instructionLen (instructionLen st + 1)
                         (set_opcodeByte b st))) (curIdx st + 1)).
    rewrite Hb2. over_fields. split; [reflexivity | lia].
  - injection H as <-. over_fields.
    rewrite (byteAt_over _ _ _ Hs) by lia. rewrite Hb. over_fields.
    rewrite Ht. split; [reflexivity | lia].
Qed.

Lemma lookupOpcode_over (st st' : State) (mb : Z) (r : Reg2Mnem) :
  lookupOpcode E st = Ok (r, st') ->
  lookupOpcode E (over (w ++ pB) mb st) = Ok (r, over (w ++ pB) mb st')
  /\ find op_key_eqb (prefix st', opcodeByte st') (OP_LOOKUP E) = Some r
  /\ curIdx st' = curIdx st
  /\ objectSource st' = objectSource st.
Proof.
  intros H. unfold lookupOpcode in *.
  stage_cases H; mirror; repeat split; assumption.
Qed.

Lemma peekModRM_over (st : State) (mb : Z) :
  objectSource st = (w ++ pA)%list ->
  0 <= curIdx st ->
  exists mb',
    peekModRM (over (w ++ pB) mb st) = over (w ++ pB) mb' (peekModRM st)
    /\ (curIdx st < Z.of_nat (List.length w) ->
        mb' = modrmByte (peekModRM st)).
Proof.
  intros Hs H0.
  destruct (Z.lt_ge_cases (curIdx st) (Z.of_nat (List.length w))) as [Hi|Hi].
  - destruct (peek_over st mb Hs Hi) as [HA HB].
    unfold peekModRM.
    change (curIdx (over (w ++ pB) mb st)) with (curIdx st).
    rewrite HA, HB.
    rewrite (byteAt_over _ _ _ Hs) by exact Hi.
    destruct (byteAt st (curIdx st)) as [b|e] eqn:Hb.
    + exists b. split; [reflexivity|]. intros _. reflexivity.
    + exfalso. unfold byteAt in Hb. rewrite HA in Hb.
      rewrite (proj2 (Z.leb_le 0 (curIdx st))) in Hb by exact H0.
      discriminate.
  - exists (modrmByte (peekModRM (over (w ++ pB) mb st))).
    split; [|intros; lia].
    destruct (peekModRM_cases (over (w ++ pB) mb st)) as [-> | [_ ->]];
      destruct (peekModRM_cases st) as [-> | [_ ->]]; reflexivity.
Qed.

Lemma lookupOperands_over (st st' : State) (mb : Z) :
  lookupOperands E st = Ok st' ->
  lookupOperands E (over (w ++ pB) mb st) = Ok (over (w ++ pB) mb st')
  /\ find operand_key_eqb (prefix st, mnemonic st, opcodeByte st)
       (OPERAND_LOOKUP E)
     = Some (opEnc st', remOps st', operands st')
  /\ modrmByte st' = modrmByte st
  /\ curIdx st' = curIdx st.
Proof.
  intros H. unfold lookupOperands in *. over_fields.
  destruct (find operand_key_eqb _ _) as [[[openc rem] ops]|] eqn:Hf;
    [|discriminate].
  injection H as <-. over_fields. repeat split; reflexivity.
Qed.

Lemma resolveOpecode_over (st st' : State) (mb : Z) :
  peek_is_ModRM E ->
  objectSource st = (w ++ pA)%list ->
  0 <= curIdx st ->
  (hasModrm (opEnc st') = true -> curIdx st < Z.of_nat (List.length w)) ->
  resolveOpecode E st = Ok st' ->
  exists mb',
    resolveOpecode E (over (w ++ pB) mb st) = Ok (over (w ++ pB) mb' st')
    /\ (curIdx st < Z.of_nat (List.length w) -> mb' = modrmByte st')
    /\ curIdx st' = curIdx st.
Proof.
  intros Hpeek Hs H0 Hm H. unfold resolveOpecode in *.
  destruct (lookupOpcode E st) as [[r s1]|] eqn:H1;
    [cbn [bind] in H | discriminate].
  destruct (lookupOpcode_over _ _ mb _ H1) as (HB & Hrow & Hc & Hsrc).
  rewrite HB. cbn [bind].
  rewrite Hs in Hsrc. rewrite <- Hc in H0, Hm |- *.
  destruct (peekModRM_over s1 mb Hsrc H0) as (mB & HpB & HmB).
  rewrite HpB.
  destruct (peekModRM_frame s1) as [[_ Lc Lm] _].
  assert (Hkeep : prefix (peekModRM s1) = prefix s1
                  /\ opcodeByte (peekModRM s1) = opcodeByte s1
                  /\ curIdx (peekModRM s1) = curIdx s1).
  { destruct (peekModRM_cases s1) as [-> | [_ ->]]; repeat split. }
  destruct Hkeep as (Hp & Ho & Hcur).
  set (sA := peekModRM s1) in *.
  destruct (lookupOperands_over _ _ mB H) as (_ & Hf & Hmod & Hcur').
  over_fields.
  assert (K : selectMnemonic E r mB = selectMnemonic E r (modrmByte sA)).
  { destruct (Z.lt_ge_cases (curIdx s1) (Z.of_nat (List.length w)))
      as [Hi|Hi].
    - rewrite (HmB Hi). reflexivity.
    - destruct (hasModrm (opEnc st')) eqn:Hh;
        [specialize (Hm eq_refl); lia|].
      rewrite Hp, Ho in Hf.
      exact (Hpeek _ _ _ _ mB _ _ _ Hrow Hf Hh). }
  rewrite K.
  change (set_mnemonic (selectMnemonic E r (modrmByte sA))
            (over (w ++ pB) mB sA))
    with (over (w ++ pB) mB
            (set_mnemonic (selectMnemonic E r (modrmByte sA)) sA)).
  destruct (lookupOperands_over _ _ mB H) as (HBo & _).
  exists mB. split; [exact HBo|]. split; [|lia].
  intros Hi. rewrite (HmB Hi), Hmod. reflexivity.
Qed.

Lemma parseOpecode_over (st st' : State) (mb : Z) :
  peek_is_ModRM E ->
  objectSource st = (w ++ pA)%list ->
  0 <= curIdx st ->
  curIdx st' <= Z.of_nat (List.length w) ->
  (hasModrm (opEnc st') = true -> curIdx st' < Z.of_nat (List.length w)) ->
  parseOpecode E st = Ok st' ->
  exists mb',
    parseOpecode E (over (w ++ pB) mb st) = Ok (over (w ++ pB) mb' st')
    /\ (curIdx st' < Z.of_nat (List.length w) -> mb' = modrmByte st')
    /\ curIdx st < curIdx st'.
Proof.
  intros Hpeek Hs H0 Hi Hm H. unfold parseOpecode in *.
  destruct (eatOpecode E st) as [s1|] eqn:H1; [cbn [bind] in H | discriminate].
  destruct (eatOpecode_frame _ _ _ H1) as [[Ls _ _] _].
  assert (Hs1 : objectSource s1 = (w ++ pA)%list) by congruence.
  assert (Hc : curIdx st' = curIdx s1).
  { unfold resolveOpecode in H.
    destruct (lookupOpcode E s1) as [[r s2]|] eqn:H2;
      [cbn [bind] in H | discriminate].
    destruct (lookupOpcode_over _ _ mb _ H2) as (_ & _ & Hc2 & _).
    destruct (lookupOperands_over _ _ mb H) as (_ & _ & _ & Hc3).
    over_fields.
    destruct (peekModRM_cases s2) as [Hp | [_ Hp]]; rewrite Hp in Hc3;
      over_fields; congruence. }
  rewrite Hc in Hi, Hm.
  destruct (eatOpecode_over _ _ mb Hs Hi H1) as [HB Hlt].
  rewrite HB. cbn [bind].
  destruct (resolveOpecode_over s1 st' mb Hpeek Hs1 ltac:(lia) Hm H)
    as (mB & HR & HmB & _).
  exists mB. rewrite Hc. repeat split; assumption.
Qed.

Lemma parseModRM_over (st st' : State) (mb : Z) :
  (curIdx st < Z.of_nat (List.length w) -> mb = modrmByte st) ->
  curIdx st' <= Z.of_nat (List.length w) ->
  parseModRM E st = Ok st' ->
  parseModRM E (over (w ++ pB) mb st) = Ok (over (w ++ pB) mb st').
Proof.
  intros Hm Hi H. unfold parseModRM in *. over_fields.
  destruct (hasModrm (opEnc st)) eqn:Hh.
  - destruct (modrmByte st <? 0) eqn:Hneg; [discriminate|].
    injection H as <-. over_fields.
    rewrite (Hm ltac:(lia)), Hneg. reflexivity.
  - injection H as <-. reflexivity.
Qed.

Lemma parseModRM_eats (st st' : State) :
  parseModRM E st = Ok st' ->
  hasModrm (opEnc st) = true -> curIdx st < curIdx st'.
Proof.
  intros H Hh. unfold parseModRM in H. rewrite Hh in H.
  destruct (modrmByte st <? 0); [discriminate|].
  injection H as <-. cbn. lia.
Qed.

Lemma parseSIB_over (st st' : State) (mb : Z) :
  objectSource st = (w ++ pA)%list ->
  curIdx st' <= Z.of_nat (List.length w) ->
  parseSIB E st = Ok st' ->
  parseSIB E (over (w ++ pB) mb st) = Ok (over (w ++ pB) mb st').
Proof.
  intros Hs Hi H. unfold parseSIB in *. over_fields.
  destruct (hasModrm (opEnc st) && ModRM.hasSib (modrm st)) eqn:Hh;
    [|injection H as <-; reflexivity].
  assert (Hlt : curIdx st < Z.of_nat (List.length w)).
  { destruct (curIdx st <? size st);
      [destruct (byteAt st (curIdx st))|];
      over_fields; (destruct (_ <? 0) in H; [discriminate|]);
      injection H as <-; over_fields; lia. }
  destruct (peek_over st mb Hs Hlt) as [HA HB].
  rewrite HA in H. rewrite HB.
  rewrite (byteAt_over _ _ _ Hs) by exact Hlt.
  destruct (byteAt st (curIdx st)) as [b|e]; over_fields;
    (destruct (_ <? 0) in H |- *; [discriminate|]);
    injection H as <-; reflexivity.
Qed.

Lemma readDisp8_over (st st' : State) (mb : Z) :
  objectSource st = (w ++ pA)%list ->
  curIdx st' <= Z.of_nat (List.length w) ->
  readDisp8 st = Ok st' ->
  readDisp8 (over (w ++ pB) mb st) = Ok (over (w ++ pB) mb st').
Proof.
  intros Hs Hi H. unfold readDisp8 in *.
  change (wantsDisp8 (over (w ++ pB) mb st)) with (wantsDisp8 st).
  destruct (wantsDisp8 st); [|injection H as <-; reflexivity].
  destruct (byteAt st (curIdx st)) as [b|] eqn:Hb; [|discriminate].
  over_fields. injection H as <-. over_fields.
  rewrite (byteAt_over _ _ _ Hs) by lia. rewrite Hb. reflexivity.
Qed.

Lemma readDisp32_over (st st' : State) (mb : Z) :
  objectSource st = (w ++ pA)%list ->
  curIdx st' <= Z.of_nat (List.length w) ->
  readDisp32 st = Ok st' ->
  readDisp32 (over (w ++ pB) mb st) = Ok (over (w ++ pB) mb st').
Proof.
  intros Hs Hi H. unfold readDisp32 in *.
  change (wantsDisp32 (over (w ++ pB) mb st)) with (wantsDisp32 st).
  destruct (wantsDisp32 st); [|injection H as <-; reflexivity].
  destruct (bytesAt st (curIdx st) 4) as [l|] eqn:Hb; [|discriminate].
  over_fields. injection H as <-. over_fields.
  rewrite (bytesAt_over st mb (curIdx st) 4 l Hs ltac:(lia) ltac:(lia) Hb).
  reflexivity.
Qed.

Lemma parseAddressOffset_over (st st' : State) (mb : Z) :
  objectSource st = (w ++ pA)%list ->
  curIdx st' <= Z.of_nat (List.length w) ->
  parseAddressOffset st = Ok st' ->
  parseAddressOffset (over (w ++ pB) mb st) = Ok (over (w ++ pB) mb st').
Proof.
  intros Hs Hi H. unfold parseAddressOffset in *.
  destruct (readDisp8 st) as [s1|] eqn:H1; [cbn [bind] in H | discriminate].
  destruct (readDisp8_frame _ _ H1) as [[L1 _ _] _].
  destruct (readDisp32_frame _ _ H) as [[_ L2 L3] _].
  rewrite (readDisp8_over st s1 mb Hs ltac:(lia) H1). cbn [bind].
  apply readDisp32_over; [congruence | exact Hi | exact H].
Qed.

Lemma processOperand_over (st st' : State) (o : Operand.t) (mb : Z) :
  objectSource st = (w ++ pA)%list ->
  curIdx st' <= Z.of_nat (List.length w) ->
  processOperand E st o = Ok st' ->
  processOperand E (over (w ++ pB) mb st) o = Ok (over (w ++ pB) mb st').
Proof.
  intros Hs Hi H. unfold processOperand in *.
  change (embeddedRegister E (over (w ++ pB) mb st) o)
    with (embeddedRegister E st o).
  over_fields.
  destruct (isA_REG E o); [injection H as <-; reflexivity|].
  destruct (isRM E o || isREG E o).
  - destruct (if hasModrm (opEnc st) then _ else _) as [v|];
      [|discriminate].
    over_fields.
    destruct (isRM E o && hasModrm (opEnc st) && ModRM.hasSib (modrm st));
      over_fields; injection H as <-; reflexivity.
  - destruct (isIMM E o); [|injection H as <-; reflexivity].
    destruct (bytesAt st (curIdx st) (immSize o)) as [l|] eqn:Hb;
      [|discriminate].
    over_fields. injection H as <-. over_fields.
    assert (Hn : 0 <= immSize o) by (destruct o; cbn; lia).
    rewrite (bytesAt_over st mb (curIdx st) (immSize o) l Hs Hn ltac:(lia) Hb).
    reflexivity.
Qed.

Lemma processOperands_over (ops : list Operand.t) (mb : Z) :
  forall st st',
    objectSource st = (w ++ pA)%list ->
    curIdx st' <= Z.of_nat (List.length w) ->
    processOperands E ops st = Ok st' ->
    processOperands E ops (over (w ++ pB) mb st)
    = Ok (over (w ++ pB) mb st').
Proof.
  induction ops as [|o ops IH]; intros st st' Hs Hi H;
    cbn [processOperands] in *.
  - injection H as <-. reflexivity.
  - destruct (processOperand E st o) as [s1|] eqn:H1;
      [cbn [bind] in H | discriminate].
    destruct (processOperand_frame _ _ _ _ H1) as ([L1 _ _] & _).
    destruct (processOperands_frame _ _ _ _ H) as ([_ L2 L3] & _).
    rewrite (processOperand_over st s1 o mb Hs ltac:(lia) H1). cbn [bind].
    apply IH; [congruence | exact Hi | exact H].
Qed.

Lemma Lockstep_cursor (st st' : State) :
  Lockstep st st' ->
  objectSource st' = objectSource st /\ curIdx st <= curIdx st'.
Proof. intros [Ls Lc Lm]. split; [exact Ls | lia]. Qed.

(** A call that returns goes the same way over any buffer that has the
    bytes of the first one up to the cursor it ends at. *)
Lemma decodeSingleInstruction_over (st : State) (startIdx : Z) (d : Decoded) :
  peek_is_ModRM E ->
  objectSource st = (w ++ pA)%list ->
  decodeSingleInstruction E st startIdx = Ok d ->
  curIdx (final d) <= Z.of_nat (List.length w) ->
  exists d',
    decodeSingleInstruction E (with_objectSource (w ++ pB) st) startIdx
    = Ok d'
    /\ result d' = result d
    /\ printed d' = printed d
    /\ instructionLen (final d') = instructionLen (final d).
Proof.
  intros Hpeek Hs H Hi.
  destruct (decodeSingleInstruction_stages _ _ _ _ H)
    as (s1 & s2 & s3 & s4 & s5 & s6 & s7 & s8 &
        H1 & H2 & H3 & H4 & H5 & H6 & H7 & H8 & Hr & Hp & Hf).
  rewrite Hf in Hi |- *. cbn [curIdx set_assemblyInstruction] in Hi.
  set (e := set_curIdx (size_t_of_int startIdx) (init st)) in *.
  assert (He : objectSource e = (w ++ pA)%list) by exact Hs.
  assert (H0 : 0 <= curIdx e).
  { subst e. cbn. unfold size_t_of_int. apply Z.mod_pos_bound. lia. }
  destruct (Lockstep_cursor _ _ (proj1 (parsePrefixInstructions_frame _ _ H1)))
    as [S1 C1].
  destruct (Lockstep_cursor _ _ (proj1 (parsePrefix_frame _ _ H2)))
    as [S2 C2].
  destruct (Lockstep_cursor _ _ (proj1 (parseREX_frame _ _ _ H3)))
    as [S3 C3].
  destruct (Lockstep_cursor _ _ (proj1 (parseOpecode_frame _ _ _ H4)))
    as [S4 C4].
  destruct (Lockstep_cursor _ _ (proj1 (parseModRM_frame _ _ _ H5)))
    as [S5 C5].
  destruct (Lockstep_cursor _ _ (proj1 (parseSIB_frame _ _ _ H6)))
    as [S6 C6].
  destruct (Lockstep_cursor _ _ (proj1 (parseAddressOffset_frame _ _ H7)))
    as [S7 C7].
  destruct (Lockstep_cursor _ _ (proj1 (processOperands_frame _ _ _ _ H8)))
    as [S8 C8].
  rewrite He in S1. rewrite S1 in S2. rewrite S2 in S3. rewrite S3 in S4.
  rewrite S4 in S5. rewrite S5 in S6. rewrite S6 in S7.
  pose proof (parseModRM_eats _ _ H5) as Heat.
  assert (Hm4 : hasModrm (opEnc s4) = true
                -> curIdx s4 < Z.of_nat (List.length w))
    by (intros h; specialize (Heat h); lia).
  destruct (parseOpecode_over s3 s4 (-1) Hpeek S3 ltac:(lia) ltac:(lia)
              Hm4 H4)
    as (mB & HB4 & HmB & Hlt).
  unfold decodeSingleInstruction.
  change (set_curIdx (size_t_of_int startIdx)
            (init (with_objectSource (w ++ pB) st)))
    with (over (w ++ pB) (-1) e).
  rewrite (parsePrefixInstructions_over e s1 (-1) He ltac:(lia) H1).
  cbn [bind].
  rewrite (parsePrefix_over s1 s2 (-1) S1 ltac:(lia) H2). cbn [bind].
  rewrite (parseREX_over s2 s3 (-1) S2 ltac:(lia) H3). cbn [bind].
  rewrite HB4. cbn [bind].
  rewrite (parseModRM_over s4 s5 mB HmB ltac:(lia) H5). cbn [bind].
  rewrite (parseSIB_over s5 s6 mB S5 ltac:(lia) H6). cbn [bind].
  rewrite (parseAddressOffset_over s6 s7 mB S6 ltac:(lia) H7). cbn [bind].
  change (operands (over (w ++ pB) mB s7)) with (operands s7).
  rewrite (processOperands_over (operands s7) mB s7 s8 S7 ltac:(lia) H8).
  cbn [bind].
  eexists. split; [reflexivity|].
  cbn [result printed final]. rewrite Hr, Hp, Hr.
  repeat split; reflexivity.
Qed.

End Slice.

(** What a call that returns has returned and printed, read in the state
    it leaves. *)
Lemma decodeSingleInstruction_returns (E : Externals) (st : State)
    (startIdx : Z) (d : Decoded) :
  decodeSingleInstruction E st startIdx = Ok d ->
  length_of d = int_of_size_t (instructionLen (final d))
  /\ printed d
     = dec_string startIdx ++ " " ++ dec_string (instructionLen (final d))
       ++ " " ++ text_of d ++ newline
  /\ curIdx (final d) = size_t_of_int startIdx + instructionLen (final d).
Proof.
  intros H.
  destruct (decodeSingleInstruction_stages _ _ _ _ H)
    as (s1 & s2 & s3 & s4 & s5 & s6 & s7 & s8 & _ & _ & _ & _ & _ & _ &
        _ & _ & Hr & Hp & Hf).
  destruct (decodeSingleInstruction_summary _ _ _ _ H)
    as (s8' & vs & Hc & _ & _ & _ & _ & _ & Hf').
  assert (Hl : curIdx (final d) - instructionLen (final d)
               = size_t_of_int startIdx) by (rewrite Hf'; exact Hc).
  split; [|split; [|lia]]; unfold length_of, text_of;
    rewrite ?Hp, Hf, Hr; reflexivity.
Qed.

(** A call at the offset [length pre] of [pre ++ src] and the call at the
    offset 0 of [src]. *)
Lemma decodeSingleInstruction_from_the_start (E : Externals)
    (pre src : list byte) (st : State) :
  objectSource st = (pre ++ src)%list ->
  Z.of_nat (List.length pre) < 2 ^ 64 ->
  alike (shifted_result 0)
    (decodeSingleInstruction E st (Z.of_nat (List.length pre)))
    (decodeSingleInstruction E (with_objectSource src st) 0).
Proof.
  intros Hs Hk.
  pose proof (entry_shifted pre st src 0 Hs (Z.le_refl 0) Hk) as S.
  rewrite !decodeSingleInstruction_unfold.
  eapply alike_bind; [apply parsePrefixInstructions_shifted, S|].
  intros a1 a2 Ha. eapply afterPrefixInstructions_shifted. exact Ha.
Qed.

Lemma buffer_from (src : list byte) (start : Z) :
  0 <= start <= Z.of_nat (List.length src) ->
  src = (firstn (Z.to_nat start) src ++ skipn (Z.to_nat start) src)%list
  /\ Z.of_nat (List.length (firstn (Z.to_nat start) src)) = start.
Proof.
  intros H. split; [symmetry; apply firstn_skipn|].
  rewrite length_firstn. lia.
Qed.

(** C5, as the code has it: a call assigns afresh the cursor, the length,
    the flags, the prefix class, the byte fields and the operand and text
    vectors, and it reads the buffer from the start offset to the end of
    the instruction and, at most, the one byte it peeks after the opcode.
    Where the tables let the peeked byte choose the mnemonic only in rows
    with a ModR/M byte, the length, the mnemonic and the text a call
    returns are those of every call over the same slice, at whatever offset
    of whatever buffer, on a state that holds the same REX record and the
    same two displacement strings, whatever calls came before; and the call
    has written one line to the standard output: the start offset, the
    length and the text.  The slice is the one of the length counter, of
    which the returned length is the conversion to [int]. *)
Theorem decode_depends_on_slice_and_kept_fields (E : Externals)
    (st1 st2 : State) (start1 start2 : Z) (d1 : Decoded) :
  peek_is_ModRM E ->
  rex st1 = rex st2 -> disp8 st1 = disp8 st2 -> disp32 st1 = disp32 st2 ->
  0 <= start1 < 2 ^ 64 -> 0 <= start2 < 2 ^ 64 ->
  decodeSingleInstruction E st1 start1 = Ok d1 ->
  slice (objectSource st2) start2 (instructionLen (final d1))
  = slice (objectSource st1) start1 (instructionLen (final d1)) ->
  exists d2,
    decodeSingleInstruction E st2 start2 = Ok d2
    /\ length_of d2 = length_of d1
    /\ mnemonic_of d2 = mnemonic_of d1
    /\ text_of d2 = text_of d1
    /\ printed d2
       = dec_string start2 ++ " " ++ dec_string (instructionLen (final d1))
         ++ " " ++ text_of d1 ++ newline.
Proof.
  intros Hpeek Hr H8 H32 B1 B2 H Hsl.
  destruct (decodeSingleInstruction_kept _ _ _ _ H) as ([_ Kw _ _] & B0 & C).
  destruct (decodeSingleInstruction_returns _ _ _ _ H) as (L1 & _ & C1).
  unfold size_t_of_int, size in *. rewrite Z.mod_small in * by lia.
  set (n := instructionLen (final d1)) in *.
  set (buf1 := objectSource st1) in *. set (buf2 := objectSource st2) in *.
  unfold slice in Hsl.
  set (rest1 := skipn (Z.to_nat start1) buf1) in *.
  set (rest2 := skipn (Z.to_nat start2) buf2) in *.
  set (w := firstn (Z.to_nat n) rest1) in *.
  assert (Hw : Z.of_nat (List.length w) = n).
  { subst w rest1. rewrite length_firstn, length_skipn. lia. }
  assert (Hin2 : start2 <= Z.of_nat (List.length buf2)).
  { apply (f_equal (@List.length byte)) in Hsl.
    subst rest2. rewrite length_firstn, length_skipn in Hsl. lia. }
  destruct (buffer_from buf1 start1 ltac:(lia)) as [Hb1 Hp1].
  destruct (buffer_from buf2 start2 ltac:(lia)) as [Hb2 Hp2].
  fold rest1 in Hb1. fold rest2 in Hb2.
  assert (Hr1 : rest1 = (w ++ skipn (Z.to_nat n) rest1)%list)
    by (symmetry; apply firstn_skipn).
  assert (Hr2 : rest2 = (w ++ skipn (Z.to_nat n) rest2)%list)
    by (rewrite <- Hsl; symmetry; apply firstn_skipn).
  (* the instruction at the start of its own buffer *)
  pose proof (decodeSingleInstruction_from_the_start E _ _ st1 Hb1
                ltac:(lia)) as A1.
  rewrite Hp1, H in A1.
  destruct (decodeSingleInstruction E (with_objectSource rest1 st1) 0)
    as [d1'|] eqn:D1; [|contradiction].
  cbn [alike] in A1. destruct A1 as [[Am1 At1] Al1].
  destruct (decodeSingleInstruction_returns _ _ _ _ D1) as (L1' & _ & C1').
  change (size_t_of_int 0) with 0 in C1'.
  (* over the buffer of the other call *)
  destruct (decodeSingleInstruction_over E w (skipn (Z.to_nat n) rest1)
              (skipn (Z.to_nat n) rest2) (with_objectSource rest1 st1) 0
              d1' Hpeek Hr1 D1 ltac:(lia))
    as (d1'' & D1'' & R1'' & _ & Ll1'').
  change (with_objectSource (w ++ skipn (Z.to_nat n) rest2)
            (with_objectSource rest1 st1))
    with (with_objectSource (w ++ skipn (Z.to_nat n) rest2) st1) in D1''.
  rewrite <- Hr2 in D1''.
  (* on the state of the other call *)
  pose proof (decodeSingleInstruction_same_result E
                (with_objectSource rest2 st1) (with_objectSource rest2 st2) 0
                eq_refl Hr H8 H32) as A2.
  rewrite D1'' in A2.
  destruct (decodeSingleInstruction E (with_objectSource rest2 st2) 0)
    as [d2'|] eqn:D2'; [|contradiction].
  cbn [agree] in A2. destruct A2 as [R2' Ll2'].
  (* at the offset of the other call *)
  pose proof (decodeSingleInstruction_from_the_start E _ _ st2 Hb2
                ltac:(lia)) as A3.
  rewrite Hp2, D2' in A3.
  destruct (decodeSingleInstruction E st2 start2) as [d2|] eqn:D2;
    [|contradiction].
  cbn [alike] in A3. destruct A3 as [[Am3 At3] Al3].
  destruct (decodeSingleInstruction_returns _ _ _ _ D2) as (L2 & P2 & _).
  assert (Hlen : instructionLen (final d2) = n) by lia.
  assert (Hm : mnemonic_of d2 = mnemonic_of d1).
  { rewrite Am3, Am1. unfold mnemonic_of. rewrite <- R2', R1''. reflexivity. }
  assert (Ht : text_of d2 = text_of d1).
  { rewrite At3, At1. unfold text_of. rewrite <- R2', R1''. reflexivity. }
  exists d2. split; [reflexivity|].
  split; [rewrite L2, L1, Hlen; reflexivity|].
  split; [exact Hm|]. split; [exact Ht|].
  rewrite P2, Hlen, Ht. reflexivity.
Qed.

(** The sample tables let the peeked byte choose only in rows with a
    ModR/M byte. *)
Lemma Spec_peek_is_ModRM : peek_is_ModRM Spec.externals.
Proof.
  intros p op r b b' openc rem ops Hrow Hops Hm.
  cbv [Spec.externals OP_LOOKUP Spec.OP_LOOKUP find op_key_eqb fst snd]
    in Hrow.
  repeat
    match type of Hrow with
    | (if ?c then _ else _) = _ =>
        let Hk := fresh "Hk" in
        destruct c eqn:Hk;
        [ apply andb_prop in Hk; destruct Hk as [Hp Ho];
          apply Z.eqb_eq in Ho; subst op;
          destruct p; try discriminate Hp; clear Hp;
          injection Hrow as <-;
          first
            [ rewrite !selectMnemonic_wildcard_only; reflexivity
            | exfalso;
              remember (selectMnemonic Spec.externals _ b) as m eqn:Heqm
                in Hops;
              clear Heqm; destruct m; vm_compute in Hops;
              first [ discriminate Hops
                    | injection Hops as <- _ _; discriminate Hm ] ]
        | ]
    end.
  discriminate Hrow.
Qed.

(** Without that condition on the tables the byte after the instruction
    decides: with a row for 0x90 that gives RET for the digit 1 and NOP
    otherwise, both without ModR/M, the one-byte slice 90 is NOP at the end
    of the buffer and before 00, and RET before 08. *)
Lemma peeked_byte_lies_after_the_slice :
  let E := peeking_externals in
  exists d1 d2 d3,
    decodeSingleInstruction E (State_new [x90]) 0 = Ok d1
    /\ decodeSingleInstruction E (State_new [x90; x00]) 0 = Ok d2
    /\ decodeSingleInstruction E (State_new [x90; x08]) 0 = Ok d3
    /\ (length_of d1 = 1 /\ length_of d2 = 1 /\ length_of d3 = 1)
    /\ slice [x90; x00] 0 1 = slice [x90] 0 1
    /\ slice [x90; x08] 0 1 = slice [x90] 0 1
    /\ mnemonic_of d1 = "NOP"
    /\ mnemonic_of d2 = "NOP"
    /\ mnemonic_of d3 = "RET"
    /\ ~ peek_is_ModRM E.
Proof.
  cbv zeta. do 3 eexists.
  split; [run|]. split; [run|]. split; [run|].
  split; [repeat split; run|].
  split; [reflexivity|]. split; [reflexivity|].
  split; [run|]. split; [run|]. split; [run|].
  intros Hpeek.
  specialize (Hpeek Prefix.NONE 0x90
                [(-1, Mnemonic.NOP); (1, Mnemonic.RET)] 8 0
                OpEnc.NP [] [] eq_refl eq_refl eq_refl).
  vm_compute in Hpeek. discriminate Hpeek.
Qed.

Lemma decode_depends_on_slice_and_kept_fields_witness :
  exists d0 d1 d2,
    decodeSingleInstruction Spec.externals
      (State_new [x90; x01; xc1]) 0 = Ok d0
    /\ decodeSingleInstruction Spec.externals (final d0) 1 = Ok d1
    /\ slice [x01; xc1; xc3] 0 (instructionLen (final d1))
       = slice [x90; x01; xc1] 1 (instructionLen (final d1))
    /\ decodeSingleInstruction Spec.externals
         (State_new [x01; xc1; xc3]) 0 = Ok d2
    /\ length_of d2 = 2
    /\ mnemonic_of d2 = "ADD"
    /\ text_of d2 = " ADD  ecx eax"
    /\ text_of d2 = text_of d1
    /\ printed d2 = "0 2  ADD  ecx eax" ++ newline.
Proof.
  destruct (decodeSingleInstruction Spec.externals
              (State_new [x90; x01; xc1]) 0) as [d0|] eqn:D0;
    [|exfalso; vm_compute in D0; discriminate D0].
  destruct (decodeSingleInstruction Spec.externals (final d0) 1)
    as [d1|] eqn:D1;
    [|exfalso; vm_compute in D0; injection D0 as <-;
      vm_compute in D1; discriminate D1].
  assert (Hl : instructionLen (final d1) = 2).
  { vm_compute in D0. injection D0 as <-.
    vm_compute in D1. injection D1 as <-. reflexivity. }
  assert (Hs : slice [x01; xc1; xc3] 0 (instructionLen (final d1))
               = slice [x90; x01; xc1] 1 (instructionLen (final d1)))
    by (rewrite Hl; reflexivity).
  assert (Hk : rex (final d0) = rex (State_new [x01; xc1; xc3])
               /\ disp8 (final d0) = disp8 (State_new [x01; xc1; xc3])
               /\ disp32 (final d0) = disp32 (State_new [x01; xc1; xc3])).
  { vm_compute in D0. injection D0 as <-. repeat split. }
  destruct Hk as (K1 & K2 & K3).
  assert (Hsrc : objectSource (final d0) = [x90; x01; xc1]).
  { vm_compute in D0. injection D0 as <-. reflexivity. }
  destruct (decode_depends_on_slice_and_kept_fields Spec.externals
              (final d0) (State_new [x01; xc1; xc3]) 1 0 d1
              Spec_peek_is_ModRM K1 K2 K3 ltac:(lia) ltac:(lia) D1
              ltac:(rewrite Hsrc; exact Hs))
    as (d2 & D2 & L2 & M2 & T2 & P2).
  exists d0, d1, d2.
  split; [reflexivity|]. split; [exact D1|]. split; [exact Hs|].
  split; [exact D2|].
  assert (R1 : length_of d1 = 2 /\ mnemonic_of d1 = "ADD"
               /\ text_of d1 = " ADD  ecx eax").
  { vm_compute in D0. injection D0 as <-.
    vm_compute in D1. injection D1 as <-. repeat split. }
  destruct R1 as (R1 & R2 & R3).
  split; [congruence|]. split; [congruence|]. split; [congruence|].
  split; [exact T2|].
  rewrite P2, Hl, R3. reflexivity.
Defined.
